(** * Health monitoring core of cube-ai: service orchestration and health
    aggregation

    A shallow embedding of [backend-ai/health_monitoring]: the data models
    ([models.py]), the service table and its dependency-ordered startup
    sequence ([config.py]), the service manager ([service_manager.py]), the
    credential check of the dependency validator ([dependency_validator.py])
    and the top-level monitor ([health_monitor.py]); then the port checker
    ([port_checker.py]), the commands and dependency checks of the validator,
    the key manager ([api_key_manager.py]) and the base controller of
    [service_manager.py], each from its source.

    Python dictionaries are finite maps ([gmap]), Python sets are finite sets
    ([gset]); coroutines are run to completion one after the other, so an
    [await]ed call is an ordinary call in a state-and-exception monad over the
    outside world (processes, sockets, clocks). *)

From Stdlib Require Import ZArith String Ascii.
From stdpp Require Import gmap strings list sorting relations pretty.
From Equations Require Import Equations.

Local Open Scope Z_scope.

(** ** Python exceptions and effectful computations *)

(** The subclasses of [Exception] that the modelled code raises itself or
    may receive from its collaborators.  [except Exception] catches all of
    them. *)
Inductive PyExc : Type :=
  | ValueError (msg : string)
  | TypeError (msg : string)
  | KeyError (msg : string)
  | OSError (msg : string)
  | RuntimeError (msg : string).

(** [str(e)] *)
Definition exc_str (e : PyExc) : string :=
  match e with
  | ValueError m | TypeError m | KeyError m | OSError m | RuntimeError m => m
  end.

Inductive outcome (A : Type) : Type :=
  | Returned (a : A)
  | Raised (e : PyExc).
Arguments Returned {A} a.
Arguments Raised {A} e.

(** A computation reads and changes the world and either returns a value or
    raises. *)
Definition Eff (World A : Type) : Type := World → outcome A * World.

Section Eff.
Context {World : Type}.

Definition eff_ret {A} (a : A) : Eff World A := λ w, (Returned a, w).

Definition eff_raise {A} (e : PyExc) : Eff World A := λ w, (Raised e, w).

Definition eff_bind {A B} (m : Eff World A) (k : A → Eff World B) : Eff World B :=
  λ w, match m w with
       | (Returned a, w') => k a w'
       | (Raised e, w') => (Raised e, w')
       end.

(** [try: body  except Exception as e: handler e] *)
Definition try_except {A} (body : Eff World A) (handler : PyExc → Eff World A)
  : Eff World A :=
  λ w, match body w with
       | (Returned a, w') => (Returned a, w')
       | (Raised e, w') => handler e w'
       end.

(** A pure call that may raise. *)
Definition eff_of_outcome {A} (o : outcome A) : Eff World A := λ w, (o, w).

(** A primitive that cannot raise. *)
Definition eff_lift {A} (f : World → A * World) : Eff World A :=
  λ w, let '(a, w') := f w in (Returned a, w').

(** [for x in xs: body x], the body returning nothing. *)
Fixpoint for_each {A} (xs : list A) (body : A → Eff World unit) : Eff World unit :=
  match xs with
  | [] => eff_ret tt
  | x :: xs' => eff_bind (body x) (λ _, for_each xs' body)
  end.
End Eff.

Global Instance eff_mret {World} : MRet (Eff World) := λ A, eff_ret.
Global Instance eff_mbind {World} : MBind (Eff World) := λ A B k m, eff_bind m k.

(** ** String helpers *)

(** [sep.join(parts)] *)
Fixpoint join (sep : string) (parts : list string) : string :=
  match parts with
  | [] => ""
  | [p] => p
  | p :: rest => p +:+ sep +:+ join sep rest
  end.

(** Python compares [str] values lexicographically by code point; on the
    byte strings used here this is [String.compare]. *)
Definition str_le (s1 s2 : string) : Prop := String.leb s1 s2 = true.

Global Instance str_le_dec : RelDecision str_le.
Proof. intros x y. unfold str_le. apply _. Defined.

(** [xs.sort()] on a list of strings.  Equal strings are indistinguishable,
    so every correct sorting algorithm computes this same list. *)
Definition sort_strings (xs : list string) : list string := merge_sort str_le xs.

(** ** models.py *)

Inductive ServiceStatus := RUNNING | STOPPED | ERROR | STARTING | STOPPING.
Inductive OverallStatus := HEALTHY | DEGRADED | UNHEALTHY.
Inductive IssueSeverity := CRITICAL | WARNING | INFO.

Global Instance ServiceStatus_eq_dec : EqDecision ServiceStatus.
Proof. solve_decision. Defined.
Global Instance OverallStatus_eq_dec : EqDecision OverallStatus.
Proof. solve_decision. Defined.
Global Instance IssueSeverity_eq_dec : EqDecision IssueSeverity.
Proof. solve_decision. Defined.

(** [datetime] values are counted in microseconds since the epoch and
    [timedelta] values in microseconds, which is the resolution Python keeps;
    [time.time()] readings and resource samples are kept as the integers the
    platform reports. *)
Definition datetime := Z.
Definition timedelta := Z.

Record ServiceHealth := {
  sh_name : string;
  sh_status : ServiceStatus;
  sh_port : Z;
  sh_url : string;
  sh_response_time : option Z;
  sh_last_check : option datetime;
  sh_error_message : option string;
  sh_process_id : option Z;
  sh_resource_usage : option (list (string * Z));
  sh_uptime : option timedelta
}.

Record Issue := {
  severity : IssueSeverity;
  component : string;
  message : string;
  suggested_action : string
}.

Record DependencyStatus := {
  python_deps_ok : bool;
  node_deps_ok : bool;
  api_keys_configured : bool;
  missing_python_deps : list string;
  missing_node_deps : list string;
  missing_api_keys : list string
}.

Record HealthStatus := {
  overall_status : OverallStatus;
  hs_services : gmap string ServiceHealth;
  hs_dependencies : DependencyStatus;
  hs_last_check : datetime;
  hs_issues : list Issue
}.

Record StartupResult := {
  sr_success : bool;
  sr_message : string;
  failed_services : list string;
  started_services : list string
}.

Record ValidationResult := {
  vr_success : bool;
  vr_message : string;
  missing_dependencies : list string;
  installation_commands : list string
}.

Record SystemStatus := {
  health : HealthStatus;
  uptime : option timedelta;
  resource_usage : list (string * Z);
  active_connections : Z
}.

(** *** Keyword construction of a dataclass

    [DependencyStatus(k1=v1, ...)] goes through the [__init__] that
    [@dataclass] generates: every field has a default, and a keyword that is
    not a field is a [TypeError]. *)
Inductive PyVal := VBool (b : bool) | VStrList (l : list string).

Definition DependencyStatus_default : DependencyStatus :=
  {| python_deps_ok := false; node_deps_ok := false; api_keys_configured := false;
     missing_python_deps := []; missing_node_deps := []; missing_api_keys := [] |}.

Definition unexpected_keyword (k : string) : PyExc :=
  TypeError ("__init__() got an unexpected keyword argument '" +:+ k +:+ "'").

Definition DependencyStatus_set (d : DependencyStatus) (k : string) (v : PyVal)
  : outcome DependencyStatus :=
  match v with
  | VBool b =>
      if decide (k = "python_deps_ok") then
        Returned {| python_deps_ok := b; node_deps_ok := node_deps_ok d;
                    api_keys_configured := api_keys_configured d;
                    missing_python_deps := missing_python_deps d;
                    missing_node_deps := missing_node_deps d;
                    missing_api_keys := missing_api_keys d |}
      else if decide (k = "node_deps_ok") then
        Returned {| python_deps_ok := python_deps_ok d; node_deps_ok := b;
                    api_keys_configured := api_keys_configured d;
                    missing_python_deps := missing_python_deps d;
                    missing_node_deps := missing_node_deps d;
                    missing_api_keys := missing_api_keys d |}
      else if decide (k = "api_keys_configured") then
        Returned {| python_deps_ok := python_deps_ok d; node_deps_ok := node_deps_ok d;
                    api_keys_configured := b;
                    missing_python_deps := missing_python_deps d;
                    missing_node_deps := missing_node_deps d;
                    missing_api_keys := missing_api_keys d |}
      else Raised (unexpected_keyword k)
  | VStrList l =>
      if decide (k = "missing_python_deps") then
        Returned {| python_deps_ok := python_deps_ok d; node_deps_ok := node_deps_ok d;
                    api_keys_configured := api_keys_configured d;
                    missing_python_deps := l;
                    missing_node_deps := missing_node_deps d;
                    missing_api_keys := missing_api_keys d |}
      else if decide (k = "missing_node_deps") then
        Returned {| python_deps_ok := python_deps_ok d; node_deps_ok := node_deps_ok d;
                    api_keys_configured := api_keys_configured d;
                    missing_python_deps := missing_python_deps d;
                    missing_node_deps := l;
                    missing_api_keys := missing_api_keys d |}
      else if decide (k = "missing_api_keys") then
        Returned {| python_deps_ok := python_deps_ok d; node_deps_ok := node_deps_ok d;
                    api_keys_configured := api_keys_configured d;
                    missing_python_deps := missing_python_deps d;
                    missing_node_deps := missing_node_deps d;
                    missing_api_keys := l |}
      else Raised (unexpected_keyword k)
  end.

(** Keywords are bound in turn; the first one that is not a field raises.
    (A value of the wrong shape for a field does not occur in the modelled
    code and is rejected in the same way.) *)
Fixpoint DependencyStatus_fill (d : DependencyStatus) (kwargs : list (string * PyVal))
  : outcome DependencyStatus :=
  match kwargs with
  | [] => Returned d
  | (k, v) :: rest =>
      match DependencyStatus_set d k v with
      | Returned d' => DependencyStatus_fill d' rest
      | Raised e => Raised e
      end
  end.

Definition DependencyStatus_init (kwargs : list (string * PyVal))
  : outcome DependencyStatus :=
  DependencyStatus_fill DependencyStatus_default kwargs.

(** ** config.py *)

Record ServiceConfig := {
  name : string;
  port : Z;
  health_endpoint : string;
  startup_command : string;
  startup_args : list string;
  working_directory : string;
  environment_vars : gmap string string;
  dependencies : list string;
  startup_timeout : Z;
  health_check_timeout : Z
}.

Record HealthMonitorConfig := {
  services : gmap string ServiceConfig;
  health_check_interval : Z;
  startup_retry_attempts : Z;
  startup_retry_delay : Z
}.

(** [_get_default_services]; the two directories come from [os.path] and are
    taken as given. *)
Definition _get_default_services (base_dir frontend_dir : string)
  : gmap string ServiceConfig :=
  <["frontend" := {| name := "frontend"; port := 5173; health_endpoint := "/";
                     startup_command := "npm"; startup_args := ["run"; "dev"];
                     working_directory := frontend_dir;
                     environment_vars := {["PORT" := "5173"]};
                     dependencies := ["backend"];
                     startup_timeout := 60; health_check_timeout := 10 |}]>
  (<["backend" := {| name := "backend"; port := 8000; health_endpoint := "/health";
                     startup_command := "uvicorn";
                     startup_args := ["main:app"; "--host"; "0.0.0.0"; "--port";
                                      "8000"; "--reload"];
                     working_directory := base_dir;
                     environment_vars := ∅;
                     dependencies := [];
                     startup_timeout := 45; health_check_timeout := 10 |}]> ∅).

(** [HealthMonitorConfig.__init__] *)
Definition HealthMonitorConfig_init (base_dir frontend_dir : string)
  : HealthMonitorConfig :=
  {| services := _get_default_services base_dir frontend_dir;
     health_check_interval := 30;
     startup_retry_attempts := 3;
     startup_retry_delay := 5 |}.

Definition get_service_config (self : HealthMonitorConfig) (service_name : string)
  : outcome ServiceConfig :=
  match services self !! service_name with
  | None => Raised (ValueError ("Unknown service: " +:+ service_name))
  | Some c => Returned c
  end.

(** [list(self.services.keys())].  Python lists the keys in insertion order,
    which a finite map does not record; the callers below do not depend on
    it. *)
Definition get_all_services (self : HealthMonitorConfig) : list string :=
  elements (dom (services self)).

(** *** Startup order *)

(** [self.services[service].dependencies] for a [service] taken from
    [remaining].  [remaining] only ever holds keys of the table
    ([loop_state_init], [loop_state_round] and [loop_state_configured]
    below), so the lookup cannot fail; the empty list stands in for the
    unreachable [KeyError]. *)
Definition dependencies_of (table : gmap string ServiceConfig) (service : string)
  : list string :=
  match table !! service with
  | Some c => dependencies c
  | None => []
  end.

(** [set(deps).issubset(set(ordered))] *)
Definition deps_met (table : gmap string ServiceConfig) (ordered : list string)
  (service : string) : Prop :=
  (list_to_set (dependencies_of table service) : gset string) ⊆ list_to_set ordered.

Global Instance deps_met_dec table ordered service :
  Decision (deps_met table ordered service).
Proof. unfold deps_met. apply _. Defined.

(** One round of the [while] loop, from the enumeration of [remaining] that
    the [for] statement happens to produce to the sorted [ready] list. *)
Definition select_ready (table : gmap string ServiceConfig) (ordered : list string)
  (enumeration : list string) : list string :=
  let ready := filter (deps_met table ordered) enumeration in
  let ready := match ready with
               | [] => enumeration   (* circular or missing dependency *)
               | _ => ready
               end in
  sort_strings ready.

Lemma sort_strings_perm xs : sort_strings xs ≡ₚ xs.
Proof. apply merge_sort_Permutation. Qed.

Lemma select_ready_subset table ordered l x :
  x ∈ select_ready table ordered l → x ∈ l.
Proof.
  unfold select_ready. rewrite sort_strings_perm.
  destruct (filter _ l) as [|y f] eqn:E; [done|].
  rewrite <- E, list_elem_of_filter. tauto.
Qed.

Lemma select_ready_nonempty table ordered l :
  l ≠ [] → select_ready table ordered l ≠ [].
Proof.
  unfold select_ready. intros Hl H.
  apply (f_equal length) in H. rewrite (Permutation_length (sort_strings_perm _)) in H.
  destruct (filter _ l); destruct l; done.
Qed.

(** The [while remaining:] loop.  Each round removes at least one name from
    [remaining], which is the measure of the recursion. *)
Equations startup_loop (table : gmap string ServiceConfig) (ordered : list string)
  (remaining : gset string) : list string by wf (size remaining) lt :=
startup_loop table ordered remaining with decide (remaining = ∅) := {
  | left _ => ordered
  | right Hne =>
      startup_loop table
        (ordered ++ select_ready table ordered (elements remaining))
        (remaining ∖ list_to_set (select_ready table ordered (elements remaining))) }.
Next Obligation.
  assert (elements remaining ≠ []) as Hl.
  { intros H. apply elements_empty_inv in H. apply Hne. by apply leibniz_equiv. }
  pose proof (select_ready_nonempty table ordered _ Hl) as Hr.
  destruct (select_ready table ordered (elements remaining)) as [|x r] eqn:E; [done|].
  assert (x ∈ remaining).
  { apply elem_of_elements, (select_ready_subset table ordered). rewrite E. left. }
  apply subset_size. split.
  - intros y Hy. apply elem_of_difference in Hy. tauto.
  - intros Hsub. apply Hsub, elem_of_difference in H as [_ Hx].
    apply Hx, elem_of_list_to_set. left.
Qed.

Definition get_startup_order (self : HealthMonitorConfig) : list string :=
  startup_loop (services self) [] (dom (services self)).

(** ** The outside world

    What the package reaches through sockets, subprocesses, [psutil], the
    file system and the clocks.  The mutable attributes of a controller
    ([process], [start_time]) belong to the world as well, since the
    controller's own [start] and [stop] are the only writers. *)

Inductive APIProvider := OPENAI | ANTHROPIC | HUGGINGFACE | COHERE | MISTRAL | GEMINI.

(** [provider.value] *)
Definition provider_value (p : APIProvider) : string :=
  match p with
  | OPENAI => "openai" | ANTHROPIC => "anthropic" | HUGGINGFACE => "huggingface"
  | COHERE => "cohere" | MISTRAL => "mistral" | GEMINI => "gemini"
  end.

Record APIKeyInfo := {
  provider : APIProvider;
  key_hash : string;
  masked_key : string;
  is_valid : bool
}.

Class Platform (World : Type) := {
  (** [PortChecker.is_port_open(port, timeout=...)]; it swallows every
      socket error itself *)
  is_port_open : Z → World → bool * World;
  (** [datetime.now()] and [time.time()] *)
  datetime_now : World → datetime * World;
  time_time : World → Z * World;
  (** [controller.process] (its pid) and [controller.start_time] of the
      controller registered under a service name *)
  process : string → World → option Z;
  start_time : string → World → option datetime;
  (** [self.process.poll()] *)
  poll : string → Eff World (option Z);
  (** [ServiceController.start] and [ServiceController.stop] of the base
      class: spawning with retries, waiting for readiness, terminating *)
  ServiceController_start : ServiceConfig → Eff World StartupResult;
  ServiceController_stop : ServiceConfig → Eff World StartupResult;
  (** [session.get(url)] with a total timeout, giving [response.status] *)
  http_get : string → Z → Eff World Z;
  (** the [psutil] sample of a pid; [None] for [NoSuchProcess] and
      [AccessDenied] *)
  psutil_sample : Z → World → option (list (string * Z)) * World;
  (** [check_python_deps] and [check_node_deps], which catch every
      exception themselves *)
  check_python_deps : World → DependencyStatus * World;
  check_node_deps : World → DependencyStatus * World;
  (** [APIKeyManager().keys], as loaded by a fresh key manager *)
  load_api_keys : World → (APIProvider → option APIKeyInfo) * World
}.

(** ** dependency_validator.py *)

Definition NO_VALID_KEYS : string :=
  "No valid API keys found. Please configure at least one API key in the Health Monitor.".

(** The loop of [check_api_keys] over the four providers. *)
Fixpoint classify_providers (keys : APIProvider → option APIKeyInfo)
  (providers : list APIProvider) (available missing : list string)
  : list string * list string :=
  match providers with
  | [] => (available, missing)
  | p :: rest =>
      match keys p with
      | Some key_info =>
          if is_valid key_info
          then classify_providers keys rest (available ++ [provider_value p]) missing
          else classify_providers keys rest available (missing ++ [provider_value p])
      | None => classify_providers keys rest available (missing ++ [provider_value p])
      end
  end.

Definition check_api_keys_with (keys : APIProvider → option APIKeyInfo)
  : outcome DependencyStatus :=
  let '(available_providers, missing_providers) :=
    classify_providers keys [OPENAI; MISTRAL; GEMINI; ANTHROPIC] [] [] in
  match available_providers with
  | [] =>
      DependencyStatus_init
        [("api_keys_ok", VBool false);
         ("missing_api_keys", VStrList [NO_VALID_KEYS])]
  | _ =>
      DependencyStatus_init
        [("api_keys_ok", VBool true);
         ("missing_api_keys", VStrList []);
         ("api_keys_configured", VBool true)]
  end.

Section Validator.
Context {World : Type} `{Platform World}.

Definition check_api_keys : Eff World DependencyStatus :=
  keys ← eff_lift load_api_keys;
  eff_of_outcome (check_api_keys_with keys).

Definition validate_all_dependencies : Eff World ValidationResult :=
  python_status ← eff_lift check_python_deps;
  node_status ← eff_lift check_node_deps;
  api_keys_status ← check_api_keys;
  let all_success := python_deps_ok python_status && node_deps_ok node_status
                     && api_keys_configured api_keys_status in
  let missing_deps := missing_python_deps python_status
                      ++ missing_node_deps node_status
                      ++ missing_api_keys api_keys_status in
  let installation_commands :=
    (match missing_python_deps python_status with
     | [] => [] | _ => ["pip install -r requirements.txt"] end)
    ++ (match missing_node_deps node_status with
        | [] => [] | _ => ["npm install"] end) in
  let message := if all_success then "All dependencies validated successfully"
                 else "Missing dependencies: " +:+ join ", " missing_deps in
  eff_ret {| vr_success := all_success; vr_message := message;
             missing_dependencies := missing_deps;
             installation_commands := installation_commands |}.
End Validator.

(** ** service_manager.py *)

(** The four controller classes. *)
Inductive ControllerKind :=
  | GenericController | BackendController | FrontendController | DatabaseController.

Record ServiceController := {
  ctl_kind : ControllerKind;
  ctl_config : ServiceConfig
}.

Record ServiceManager := {
  sm_config : HealthMonitorConfig;
  _controllers : gmap string ServiceController
}.

Definition controller_class (service_name : string) : ControllerKind :=
  if decide (service_name = "backend") then BackendController
  else if decide (service_name = "frontend") then FrontendController
  else if decide (service_name = "database") then DatabaseController
  else GenericController.

Definition _initialize_controllers (config : HealthMonitorConfig)
  : gmap string ServiceController :=
  map_imap (λ service_name service_config,
              Some {| ctl_kind := controller_class service_name;
                      ctl_config := service_config |})
           (services config).

(** [ServiceManager.__init__] *)
Definition ServiceManager_init (config : HealthMonitorConfig) : ServiceManager :=
  {| sm_config := config; _controllers := _initialize_controllers config |}.

Definition localhost_url (p : Z) : string := "http://localhost:" +:+ pretty p.

Definition unknown_service_result (service_name : string) : StartupResult :=
  {| sr_success := false;
     sr_message := "Unknown service: " +:+ service_name;
     failed_services := [service_name];
     started_services := [] |}.

Section Manager.
Context {World : Type} `{Platform World}.

(** *** Controllers *)

(** [is_running]: the base class polls its process handle; the database
    controller always answers [True]. *)
Definition is_running (service_name : string) (controller : ServiceController)
  : Eff World bool :=
  match ctl_kind controller with
  | DatabaseController => eff_ret true
  | _ =>
      λ w, match process service_name w with
           | None => (Returned false, w)
           | Some _ =>
               try_except
                 (code ← poll service_name;
                  eff_ret (bool_decide (code = None)))
                 (λ _, eff_ret false) w
           end
  end.

(** [ServiceController._check_health] of the base class *)
Definition base_check_health (config : ServiceConfig) : Eff World bool :=
  try_except
    (status ← http_get (localhost_url (port config) +:+ health_endpoint config)
                        (health_check_timeout config);
     eff_ret (bool_decide (status < 500)))
    (λ _, eff_ret false).

(** [_check_health] with the overrides of the subclasses *)
Definition _check_health (controller : ServiceController) : Eff World bool :=
  let config := ctl_config controller in
  match ctl_kind controller with
  | GenericController => base_check_health config
  | BackendController =>
      try_except
        (status ← http_get (localhost_url (port config) +:+ "/health")
                            (health_check_timeout config);
         eff_ret (bool_decide (status = 200)))
        (λ _, base_check_health config)
  | FrontendController =>
      try_except
        (status ← http_get (localhost_url (port config) +:+ "/")
                            (health_check_timeout config);
         eff_ret (bool_decide (status < 500)))
        (λ _, eff_ret false)
  | DatabaseController => eff_ret true
  end.

Definition controller_start (controller : ServiceController)
  : Eff World StartupResult :=
  match ctl_kind controller with
  | DatabaseController =>
      eff_ret {| sr_success := true;
                 sr_message := "Database connection check completed";
                 failed_services := []; started_services := [] |}
  | _ => ServiceController_start (ctl_config controller)
  end.

Definition controller_stop (controller : ServiceController)
  : Eff World StartupResult :=
  match ctl_kind controller with
  | DatabaseController =>
      eff_ret {| sr_success := true;
                 sr_message := "Database connection closed";
                 failed_services := []; started_services := [] |}
  | _ => ServiceController_stop (ctl_config controller)
  end.

Definition get_process_id (service_name : string) (controller : ServiceController)
  : Eff World (option Z) :=
  λ w, match process service_name w with
       | None => (Returned None, w)
       | Some pid =>
           (running ← is_running service_name controller;
            eff_ret (if running : bool then Some pid else None)) w
       end.

Definition get_resource_usage (service_name : string)
  (controller : ServiceController) : Eff World (option (list (string * Z))) :=
  λ w, match process service_name w with
       | None => (Returned None, w)
       | Some pid =>
           (running ← is_running service_name controller;
            if running : bool then eff_lift (psutil_sample pid) else eff_ret None) w
       end.

Definition get_uptime (service_name : string) : Eff World (option timedelta) :=
  λ w, match start_time service_name w with
       | None => (Returned None, w)
       | Some t0 => (now ← eff_lift datetime_now; eff_ret (Some (now - t0))) w
       end.

(** *** ServiceManager *)

Definition start_service (self : ServiceManager) (service_name : string)
  : Eff World StartupResult :=
  match _controllers self !! service_name with
  | None => eff_ret (unknown_service_result service_name)
  | Some controller => controller_start controller
  end.

Definition stop_service (self : ServiceManager) (service_name : string)
  : Eff World StartupResult :=
  match _controllers self !! service_name with
  | None => eff_ret (unknown_service_result service_name)
  | Some controller => controller_stop controller
  end.

Definition stop_all_services (self : ServiceManager) : Eff World unit :=
  let startup_order := get_startup_order (sm_config self) in
  for_each (reverse startup_order) (λ service_name,
    if decide (is_Some (_controllers self !! service_name)) then
      try_except (_ ← stop_service self service_name; eff_ret tt)
                 (λ _, eff_ret tt)
    else eff_ret tt).

Definition check_service_health (self : ServiceManager) (service_name : string)
  : Eff World ServiceHealth :=
  match _controllers self !! service_name with
  | None =>
      config ← eff_of_outcome (get_service_config (sm_config self) service_name);
      now ← eff_lift datetime_now;
      eff_ret {| sh_name := service_name; sh_status := ERROR;
                 sh_port := port config; sh_url := localhost_url (port config);
                 sh_response_time := None; sh_last_check := Some now;
                 sh_error_message := Some ("Unknown service: " +:+ service_name);
                 sh_process_id := None; sh_resource_usage := None;
                 sh_uptime := None |}
  | Some controller =>
      config ← eff_of_outcome (get_service_config (sm_config self) service_name);
      running ← is_running service_name controller;
      port_open ← eff_lift (is_port_open (port config));
      t_start ← eff_lift time_time;
      '(is_healthy, error_message) ←
        (if port_open : bool then
           try_except
             (is_healthy ← _check_health controller;
              eff_ret (is_healthy,
                       if is_healthy : bool then None
                       else Some "Service not responding to health checks"))
             (λ e, eff_ret (false, Some ("Health check failed: " +:+ exc_str e)))
         else if running : bool then
           eff_ret (false, Some ("Port " +:+ pretty (port config)
                                 +:+ " is not accepting connections"))
         else eff_ret (false, Some "Service process is not running"));
      t_end ← eff_lift time_time;
      let response_time := t_end - t_start in
      let status := if port_open && is_healthy then RUNNING
                    else if port_open && negb is_healthy then ERROR
                    else STOPPED in
      resource_usage ← get_resource_usage service_name controller;
      uptime ← get_uptime service_name;
      now ← eff_lift datetime_now;
      process_id ← get_process_id service_name controller;
      eff_ret {| sh_name := service_name; sh_status := status;
                 sh_port := port config; sh_url := localhost_url (port config);
                 sh_response_time := Some response_time;
                 sh_last_check := Some now;
                 sh_error_message := error_message;
                 sh_process_id := process_id;
                 sh_resource_usage := resource_usage;
                 sh_uptime := uptime |}
  end.
End Manager.

(** ** health_monitor.py *)

(** [timedelta.seconds]: the seconds field of the normalised
    (days, seconds, microseconds) triple, always in [0, 86400). *)
Definition td_seconds (d : timedelta) : Z := (d `mod` 86400000000) `div` 1000000.

(** [timedelta.days] *)
Definition td_days (d : timedelta) : Z := d `div` 86400000000.

(** The monitor.  [dependency_validator] and [api_key_manager] are the
    collaborator objects the monitor holds, seen through the one method it
    calls on each ([validate_all_dependencies], [validate_all_keys]). *)
Record HealthMonitor (World : Type) := {
  config : HealthMonitorConfig;
  service_manager : ServiceManager;
  dependency_validator : Eff World ValidationResult;
  api_key_manager : Eff World (list (APIProvider * bool));
  _last_health_check : option datetime;
  _cached_status : option HealthStatus
}.
Arguments config {World} _.
Arguments service_manager {World} _.
Arguments dependency_validator {World} _.
Arguments api_key_manager {World} _.
Arguments _last_health_check {World} _.
Arguments _cached_status {World} _.

(** [x or 'Unknown error'] for an optional string *)
Definition or_unknown_error (m : option string) : string :=
  match m with
  | None => "Unknown error"
  | Some s => if decide (s = "") then "Unknown error" else s
  end.

(** The issue a single service contributes, if any. *)
Definition service_issue (service_name : string) (h : ServiceHealth) : list Issue :=
  match sh_status h with
  | ERROR =>
      [{| severity := CRITICAL;
          component := "service." +:+ service_name;
          message := "Service " +:+ service_name +:+ " is not running: "
                     +:+ or_unknown_error (sh_error_message h);
          suggested_action := "Check service logs and restart " +:+ service_name |}]
  | STOPPED =>
      [{| severity := WARNING;
          component := "service." +:+ service_name;
          message := "Service " +:+ service_name +:+ " is stopped";
          suggested_action := "Start " +:+ service_name +:+ " service" |}]
  | _ => []
  end.

(** The creation timestamp of an issue is not kept. *)
Definition _collect_issues (service_health : gmap string ServiceHealth)
  (dependency_status : DependencyStatus) : list Issue :=
  concat (map (λ kv, service_issue kv.1 kv.2) (map_to_list service_health))
  ++ (match missing_python_deps dependency_status with
      | [] => []
      | deps =>
          [{| severity := CRITICAL; component := "dependencies.python";
              message := "Missing Python dependencies: " +:+ join ", " deps;
              suggested_action := "Run: pip install -r requirements.txt" |}]
      end)
  ++ (match missing_node_deps dependency_status with
      | [] => []
      | deps =>
          [{| severity := CRITICAL; component := "dependencies.node";
              message := "Missing Node.js dependencies: " +:+ join ", " deps;
              suggested_action := "Run: npm install" |}]
      end)
  ++ (match missing_api_keys dependency_status with
      | [] => []
      | ks =>
          [{| severity := WARNING; component := "configuration.api_keys";
              message := "Missing API keys: " +:+ join ", " ks;
              suggested_action :=
                "Configure API keys in environment variables or .env file" |}]
      end).

Definition _determine_overall_status (service_health : gmap string ServiceHealth)
  (dependency_status : DependencyStatus) (issues : list Issue) : OverallStatus :=
  let critical_issues := filter (λ i, severity i = CRITICAL) issues in
  match critical_issues with
  | _ :: _ => UNHEALTHY
  | [] =>
      let running_services :=
        length (filter (λ kv, sh_status kv.2 = RUNNING) (map_to_list service_health)) in
      let total_services := size service_health in
      if decide (running_services = 0%nat) then UNHEALTHY
      else if decide (running_services < total_services)%nat then DEGRADED
      else
        let warning_issues := filter (λ i, severity i = WARNING) issues in
        match warning_issues with
        | _ :: _ => DEGRADED
        | [] => HEALTHY
        end
  end.

(** What one iteration of the startup loop leaves behind. *)
Inductive LoopExit := Continue | Break.

Section Monitor.
Context {World : Type} `{Platform World}.

Definition _stop_started_services (self : HealthMonitor World)
  (started_services : list string) : Eff World unit :=
  for_each (reverse started_services) (λ service_name,
    try_except (_ ← stop_service (service_manager self) service_name; eff_ret tt)
               (λ _, eff_ret tt)).

(** The health entry written when a check raised. *)
Definition error_health (service_name : string) (c : ServiceConfig) (e : PyExc)
  (now : datetime) : ServiceHealth :=
  {| sh_name := service_name; sh_status := ERROR;
     sh_port := port c; sh_url := localhost_url (port c);
     sh_response_time := None; sh_last_check := Some now;
     sh_error_message := Some (exc_str e);
     sh_process_id := None; sh_resource_usage := None; sh_uptime := None |}.

(** The body of the [for] loop of [_check_all_services]. *)
Definition check_one (self : HealthMonitor World) (service_name : string)
  : Eff World ServiceHealth :=
  try_except
    (check_service_health (service_manager self) service_name)
    (λ e,
       c ← eff_of_outcome (get_service_config (config self) service_name);
       now ← eff_lift datetime_now;
       eff_ret (error_health service_name c e now)).

Fixpoint check_services (self : HealthMonitor World) (names : list string)
  (service_health : gmap string ServiceHealth)
  : Eff World (gmap string ServiceHealth) :=
  match names with
  | [] => eff_ret service_health
  | service_name :: rest =>
      h ← check_one self service_name;
      check_services self rest (<[service_name := h]> service_health)
  end.

Definition _check_all_services (self : HealthMonitor World)
  : Eff World (gmap string ServiceHealth) :=
  check_services self (get_all_services (config self)) ∅.

(** Returns the snapshot together with the monitor whose cache it
    replaced. *)
Definition check_system_health (self : HealthMonitor World)
  : Eff World (HealthStatus * HealthMonitor World) :=
  service_health ← _check_all_services self;
  validation_result ← dependency_validator self;
  api_key_status ← api_key_manager self;
  let api_keys_configured := existsb snd api_key_status in
  let missing := if vr_success validation_result then []
                 else missing_dependencies validation_result in
  let dependency_status :=
    {| python_deps_ok := vr_success validation_result;
       node_deps_ok := vr_success validation_result;
       api_keys_configured := api_keys_configured;
       missing_python_deps := missing;
       missing_node_deps := missing;
       missing_api_keys :=
         map (λ kv, provider_value kv.1)
             (filter (λ kv, kv.2 = false) api_key_status) |} in
  let issues := _collect_issues service_health dependency_status in
  let overall := _determine_overall_status service_health dependency_status issues in
  last_check ← eff_lift datetime_now;
  let health_status :=
    {| overall_status := overall; hs_services := service_health;
       hs_dependencies := dependency_status; hs_last_check := last_check;
       hs_issues := issues |} in
  now ← eff_lift datetime_now;
  eff_ret (health_status,
           {| config := config self; service_manager := service_manager self;
              dependency_validator := dependency_validator self;
              api_key_manager := api_key_manager self;
              _last_health_check := Some now;
              _cached_status := Some health_status |}).

(** One iteration of the startup loop: the new [started_services] and
    [failed_services], and whether the loop goes on.  The rollback of the
    [else] branch runs inside the [try], so the handler would see the
    failed name already appended. *)
Definition start_one (self : HealthMonitor World) (service_name : string)
  (started_services failed_services : list string)
  : Eff World (list string * list string * LoopExit) :=
  λ w,
    match start_service (service_manager self) service_name w with
    | (Returned result, w1) =>
        if sr_success result then
          (Returned (started_services ++ [service_name], failed_services, Continue), w1)
        else
          try_except
            (_ ← _stop_started_services self started_services;
             eff_ret (started_services, failed_services ++ [service_name], Break))
            (λ _,
               _ ← _stop_started_services self started_services;
               eff_ret (started_services,
                        (failed_services ++ [service_name]) ++ [service_name],
                        Break)) w1
    | (Raised _, w1) =>
        (_ ← _stop_started_services self started_services;
         eff_ret (started_services, failed_services ++ [service_name], Break)) w1
    end.

Fixpoint start_loop (self : HealthMonitor World) (startup_order : list string)
  (started_services failed_services : list string)
  : Eff World (list string * list string) :=
  match startup_order with
  | [] => eff_ret (started_services, failed_services)
  | service_name :: rest =>
      '(started, failed, exit) ←
        start_one self service_name started_services failed_services;
      match exit with
      | Continue => start_loop self rest started failed
      | Break => eff_ret (started, failed)
      end
  end.

Definition start_services (self : HealthMonitor World) : Eff World StartupResult :=
  validation_result ← dependency_validator self;
  if negb (vr_success validation_result) then
    eff_ret {| sr_success := false;
               sr_message := "Dependency validation failed: "
                             +:+ vr_message validation_result;
               failed_services := get_all_services (config self);
               started_services := [] |}
  else
    let startup_order := get_startup_order (config self) in
    '(started_services, failed_services) ← start_loop self startup_order [] [];
    let success := bool_decide (length failed_services = 0%nat) in
    let message := if success then "All services started successfully"
                   else "Failed to start: " +:+ join ", " failed_services in
    eff_ret {| sr_success := success; sr_message := message;
               failed_services := failed_services;
               started_services := started_services |}.

(** Returns the status together with the monitor after the call. *)
Definition get_system_status (self : HealthMonitor World)
  : Eff World (SystemStatus * HealthMonitor World) :=
  '(health_status, self') ←
    (match _cached_status self, _last_health_check self with
     | Some cached, Some last =>
         now ← eff_lift datetime_now;
         if decide (td_seconds (now - last) > 60) then check_system_health self
         else eff_ret (cached, self)
     | _, _ => check_system_health self
     end);
  uptime ← (match _last_health_check self' with
            | Some last => now ← eff_lift datetime_now; eff_ret (Some (now - last))
            | None => eff_ret None
            end);
  eff_ret ({| health := health_status; uptime := uptime;
              resource_usage := [("cpu_percent", 0); ("memory_percent", 0);
                                 ("disk_percent", 0)];
              active_connections := 0 |}, self').
End Monitor.

(** ** A scripted platform

    A small deterministic world on which the definitions above can be run:
    which ports answer, what every HTTP probe returns, which services can be
    spawned, which processes the controllers own, a frozen clock, and a log of
    the spawn and terminate requests. *)

Record SimWorld := {
  sim_clock : datetime;
  sim_open_ports : list Z;
  sim_http : outcome Z;
  sim_spawnable : list string;
  sim_owned : list string;
  sim_log : list string
}.

Definition sim_result (ok : bool) (msg : string) (failed : list string)
  : StartupResult :=
  {| sr_success := ok; sr_message := msg; failed_services := failed;
     started_services := [] |}.

Definition sim_start (c : ServiceConfig) : Eff SimWorld StartupResult :=
  λ w,
    let log := sim_log w ++ ["start " +:+ name c] in
    if bool_decide (name c ∈ sim_spawnable w) then
      (Returned (sim_result true ("Service " +:+ name c +:+ " started successfully") []),
       {| sim_clock := sim_clock w; sim_open_ports := port c :: sim_open_ports w;
          sim_http := sim_http w; sim_spawnable := sim_spawnable w;
          sim_owned := name c :: sim_owned w; sim_log := log |})
    else
      (Returned (sim_result false
                   ("Service " +:+ name c +:+ " failed to become ready after 3 attempts")
                   [name c]),
       {| sim_clock := sim_clock w; sim_open_ports := sim_open_ports w;
          sim_http := sim_http w; sim_spawnable := sim_spawnable w;
          sim_owned := sim_owned w; sim_log := log |}).

Definition sim_stop (c : ServiceConfig) : Eff SimWorld StartupResult :=
  λ w,
    (Returned (sim_result true ("Service " +:+ name c +:+ " stopped successfully") []),
     {| sim_clock := sim_clock w;
        sim_open_ports := filter (λ p, p ≠ port c) (sim_open_ports w);
        sim_http := sim_http w; sim_spawnable := sim_spawnable w;
        sim_owned := filter (λ n, n ≠ name c) (sim_owned w);
        sim_log := sim_log w ++ ["stop " +:+ name c] |}).

Global Instance sim_platform : Platform SimWorld := {|
  is_port_open p w := (bool_decide (p ∈ sim_open_ports w), w);
  datetime_now w := (sim_clock w, w);
  time_time w := (sim_clock w, w);
  process service_name w :=
    if bool_decide (service_name ∈ sim_owned w) then Some 4242 else None;
  start_time service_name w :=
    if bool_decide (service_name ∈ sim_owned w) then Some (sim_clock w) else None;
  poll _ := eff_ret None;
  ServiceController_start := sim_start;
  ServiceController_stop := sim_stop;
  http_get _ _ := λ w, (sim_http w, w);
  psutil_sample _ w := (None, w);
  check_python_deps w := (DependencyStatus_default, w);
  check_node_deps w := (DependencyStatus_default, w);
  load_api_keys w := (λ _, None, w)
|}.

Definition sim_world (clock : datetime) (open_ports : list Z) (http : outcome Z)
  (spawnable : list string) : SimWorld :=
  {| sim_clock := clock; sim_open_ports := open_ports; sim_http := http;
     sim_spawnable := spawnable; sim_owned := []; sim_log := [] |}.

Definition validation_ok : ValidationResult :=
  {| vr_success := true; vr_message := "All dependencies validated successfully";
     missing_dependencies := []; installation_commands := [] |}.

(** The configuration a monitor starts with. *)
Definition default_config : HealthMonitorConfig :=
  HealthMonitorConfig_init "/srv/backend-ai" "/srv/offline-ai-frontend".

(** A monitor over the default service table whose validator and key
    manager answer as given. *)
Definition sim_monitor (validation : outcome ValidationResult)
  (last : option datetime) (cached : option HealthStatus) : HealthMonitor SimWorld :=
  {| config := default_config;
     service_manager := ServiceManager_init default_config;
     dependency_validator := eff_of_outcome validation;
     api_key_manager := eff_ret [(OPENAI, true)];
     _last_health_check := last;
     _cached_status := cached |}.

(** ** Notions used to state the properties *)

(** [s] declares [d] as a dependency. *)
Definition depends_on (table : gmap string ServiceConfig) (s d : string) : Prop :=
  d ∈ dependencies_of table s.

(** Every declared dependency is a configured service. *)
Definition deps_closed (table : gmap string ServiceConfig) : Prop :=
  ∀ s d, depends_on table s d → d ∈ dom table.

(** No service reaches itself along declared dependencies. *)
Definition acyclic (table : gmap string ServiceConfig) : Prop :=
  ∀ s, ¬ tc (depends_on table) s s.

(** [x] comes before [y] in [l]. *)
Definition before (x y : string) (l : list string) : Prop :=
  ∃ l1 l2 l3, l = l1 ++ x :: l2 ++ y :: l3.

(** The configured names are split between [ordered] and [remaining]. *)
Definition loop_state (table : gmap string ServiceConfig) (ordered : list string)
  (remaining : gset string) : Prop :=
  ∀ s, s ∈ dom table ↔ s ∈ ordered ∨ s ∈ remaining.

Section StartupNotions.
Context {World : Type} `{Platform World}.

(** The world after stopping the given services one after the other, last
    started first. *)
Definition stop_reversed (mgr : ServiceManager) (started : list string) (w : World)
  : World :=
  foldl (λ w service_name, (stop_service mgr service_name w).2) w (reverse started).

Definition start_succeeds (mgr : ServiceManager) (service_name : string)
  (w w' : World) : Prop :=
  ∃ r, start_service mgr service_name w = (Returned r, w') ∧ sr_success r = true.

Definition start_fails (mgr : ServiceManager) (service_name : string)
  (w w' : World) : Prop :=
  ∃ o, start_service mgr service_name w = (o, w') ∧
       match o with
       | Returned r => sr_success r = false
       | Raised _ => True
       end.

(** Starting the given services in turn succeeds for each of them. *)
Inductive starts_all (mgr : ServiceManager) : list string → World → World → Prop :=
  | starts_all_nil w : starts_all mgr [] w w
  | starts_all_cons service_name rest w w1 w2 :
      start_succeeds mgr service_name w w1 →
      starts_all mgr rest w1 w2 →
      starts_all mgr (service_name :: rest) w w2.

Definition startup_succeeded (order : list string) : StartupResult :=
  {| sr_success := true; sr_message := "All services started successfully";
     failed_services := []; started_services := order |}.

Definition startup_failed (started : list string) (f : string) : StartupResult :=
  {| sr_success := false; sr_message := "Failed to start: " +:+ f;
     failed_services := [f]; started_services := started |}.
End StartupNotions.

Definition any_issue (sev : IssueSeverity) (issues : list Issue) : Prop :=
  ∃ i, i ∈ issues ∧ severity i = sev.

Definition none_running (service_health : gmap string ServiceHealth) : Prop :=
  ∀ service_name h, service_health !! service_name = Some h → sh_status h ≠ RUNNING.

Definition all_running (service_health : gmap string ServiceHealth) : Prop :=
  ∀ service_name h, service_health !! service_name = Some h → sh_status h = RUNNING.

Section SweepNotions.
Context {World : Type} `{Platform World}.

(** The world in which the check of a service starts: after the checks of
    the services before it. *)
Definition after_checks (self : HealthMonitor World) (names : list string)
  (w : World) : World :=
  foldl (λ w service_name, (check_one self service_name w).2) w names.
End SweepNotions.

(** A service entry that only declares dependencies, and two tables that are
    not well formed: a cycle between [a] and [b] next to an independent [c];
    a dependency on a service nobody configures. *)
Definition bare_service (service_name : string) (deps : list string) : ServiceConfig :=
  {| name := service_name; port := 9000; health_endpoint := "/";
     startup_command := "true"; startup_args := []; working_directory := ".";
     environment_vars := ∅; dependencies := deps;
     startup_timeout := 30; health_check_timeout := 5 |}.

Definition with_services (table : gmap string ServiceConfig) : HealthMonitorConfig :=
  {| services := table; health_check_interval := 30;
     startup_retry_attempts := 3; startup_retry_delay := 5 |}.

Definition cyclic_table : gmap string ServiceConfig :=
  <["a" := bare_service "a" ["b"]]>
  (<["b" := bare_service "b" ["a"]]>
  (<["c" := bare_service "c" []]> ∅)).

Definition dangling_table : gmap string ServiceConfig :=
  <["web" := bare_service "web" ["ghost"]]>
  (<["api" := bare_service "api" []]> ∅).

(** A health entry with the given status. *)
Definition entry (service_name : string) (status : ServiceStatus) : ServiceHealth :=
  {| sh_name := service_name; sh_status := status; sh_port := 9000;
     sh_url := localhost_url 9000; sh_response_time := None;
     sh_last_check := None; sh_error_message := None; sh_process_id := None;
     sh_resource_usage := None; sh_uptime := None |}.

Definition two_entries (s1 s2 : ServiceStatus) : gmap string ServiceHealth :=
  <["backend" := entry "backend" s1]> (<["frontend" := entry "frontend" s2]> ∅).

(** A key store in which only the OpenAI key is present and valid. *)
Definition only_openai_valid (p : APIProvider) : option APIKeyInfo :=
  match p with
  | OPENAI => Some {| provider := OPENAI; key_hash := "9f86d081884c7d65";
                      masked_key := "****abcd"; is_valid := true |}
  | _ => None
  end.

(** A snapshot to be found in the cache. *)
Definition stale_snapshot : HealthStatus :=
  {| overall_status := HEALTHY; hs_services := ∅;
     hs_dependencies := DependencyStatus_default; hs_last_check := 0;
     hs_issues := [] |}.

(** * Further parts of the package *)

(** ** health_monitor.py: construction and validation *)

(** [HealthMonitor.__init__]: the validator is the one of the package; the key
    manager is seen through its [validate_all_keys]. *)
Definition HealthMonitor_init {World : Type} `{Platform World}
  (base_dir frontend_dir : string)
  (validate_all_keys : Eff World (list (APIProvider * bool))) : HealthMonitor World :=
  let cfg := HealthMonitorConfig_init base_dir frontend_dir in
  {| config := cfg;
     service_manager := ServiceManager_init cfg;
     dependency_validator := validate_all_dependencies;
     api_key_manager := validate_all_keys;
     _last_health_check := None;
     _cached_status := None |}.

(** [HealthMonitor.validate_dependencies] *)
Definition validate_dependencies {World : Type} `{Platform World}
  (self : HealthMonitor World) : Eff World ValidationResult :=
  dependency_validator self.

Definition validation_failed (missing : list string) : ValidationResult :=
  {| vr_success := false;
     vr_message := "Missing dependencies: " +:+ join ", " missing;
     missing_dependencies := missing; installation_commands := [] |}.

(** Some service has the given status. *)
Definition some_service_is (status : ServiceStatus)
  (service_health : gmap string ServiceHealth) : Prop :=
  ∃ service_name h, service_health !! service_name = Some h ∧ sh_status h = status.

(** ** service_manager.py: the services that are running *)

Section RunningServices.
Context {World : Type} `{Platform World}.

(** The loop of [get_running_services] over [self._controllers.items()]. *)
Fixpoint running_among (items : list (string * ServiceController))
  (running : list string) : Eff World (list string) :=
  match items with
  | [] => eff_ret running
  | (service_name, controller) :: rest =>
      r ← is_running service_name controller;
      running_among rest (if r : bool then running ++ [service_name] else running)
  end.

Definition get_running_services (self : ServiceManager) : Eff World (list string) :=
  running_among (map_to_list (_controllers self)) [].

End RunningServices.

(** ** port_checker.py *)

Inductive AddressFamily := AF_INET | AF_INET6.

(** What [PortChecker] asks of the socket layer: open a TCP socket of the
    family, set its timeout (in seconds), [connect_ex] to the address and
    close the socket.  The call gives the code [connect_ex] returned, or
    raises. *)
Class Sockets (World : Type) := {
  connect_ex : AddressFamily → string → Z → Z → Eff World Z
}.

Module PortChecker.
Section PortChecker.
Context {World : Type} `{Sockets World}.

Definition is_port_available (port : Z) (host : string) : Eff World bool :=
  try_except
    (result ← connect_ex AF_INET host port 1;
     eff_ret (bool_decide (result ≠ 0)))
    (λ _, eff_ret false).

Definition is_port_open (port : Z) (host : string) (timeout : Z) : Eff World bool :=
  v4 ← try_except
          (result ← connect_ex AF_INET host port timeout;
           eff_ret (bool_decide (result = 0)))
          (λ _, eff_ret false);
  if v4 : bool then eff_ret true
  else
    v6 ← try_except
            (result ← connect_ex AF_INET6 "::1" port timeout;
             eff_ret (bool_decide (result = 0)))
            (λ _, eff_ret false);
    if v6 : bool then eff_ret true else eff_ret false.

(** The [for] loop of [find_available_port]. *)
Fixpoint first_available (ports : list Z) (host : string) : Eff World (option Z) :=
  match ports with
  | [] => eff_ret None
  | port :: rest =>
      available ← is_port_available port host;
      if available : bool then eff_ret (Some port) else first_available rest host
  end.

(** [range(start_port, end_port + 1)] *)
Definition find_available_port (start_port end_port : Z) (host : string)
  : Eff World (option Z) :=
  first_available (seqZ start_port (end_port + 1 - start_port)) host.

Definition get_port_info (port : Z) (host : string) : Eff World (bool * string) :=
  try_except
    (is_open ← is_port_open port host 2;
     if is_open : bool then eff_ret (true, "Port is open and accepting connections")
     else eff_ret (false, "Port is not accepting connections"))
    (λ e, eff_ret (false, "Error checking port: " +:+ exc_str e)).

(** The connection attempt was answered: [connect_ex] returned 0. *)
Definition connected (attempt : outcome Z) : bool :=
  match attempt with
  | Returned code => bool_decide (code = 0)
  | Raised _ => false
  end.

(** The world after probing the given ports in turn. *)
Definition probes_before (host : string) (ports : list Z) (w : World) : World :=
  foldl (λ w port, (is_port_available port host w).2) w ports.
End PortChecker.
End PortChecker.

(** ** dependency_validator.py: the commands and the two dependency checks *)

(** Keyword arguments of [ValidationResult(...)]. *)
Inductive KwVal := KBool (b : bool) | KStr (s : string) | KStrList (l : list string).

(** The arguments bound so far by the [__init__] of [ValidationResult]:
    [success] and [message] have no default. *)
Record ValidationResultArgs := {
  arg_success : option bool;
  arg_message : option string;
  arg_missing_dependencies : list string;
  arg_installation_commands : list string
}.

Definition ValidationResult_bind (a : ValidationResultArgs) (k : string) (v : KwVal)
  : outcome ValidationResultArgs :=
  match v with
  | KBool b =>
      if decide (k = "success") then
        Returned {| arg_success := Some b; arg_message := arg_message a;
                    arg_missing_dependencies := arg_missing_dependencies a;
                    arg_installation_commands := arg_installation_commands a |}
      else Raised (unexpected_keyword k)
  | KStr s =>
      if decide (k = "message") then
        Returned {| arg_success := arg_success a; arg_message := Some s;
                    arg_missing_dependencies := arg_missing_dependencies a;
                    arg_installation_commands := arg_installation_commands a |}
      else Raised (unexpected_keyword k)
  | KStrList l =>
      if decide (k = "missing_dependencies") then
        Returned {| arg_success := arg_success a; arg_message := arg_message a;
                    arg_missing_dependencies := l;
                    arg_installation_commands := arg_installation_commands a |}
      else if decide (k = "installation_commands") then
        Returned {| arg_success := arg_success a; arg_message := arg_message a;
                    arg_missing_dependencies := arg_missing_dependencies a;
                    arg_installation_commands := l |}
      else Raised (unexpected_keyword k)
  end.

Fixpoint ValidationResult_fill (a : ValidationResultArgs)
  (kwargs : list (string * KwVal)) : outcome ValidationResultArgs :=
  match kwargs with
  | [] => Returned a
  | (k, v) :: rest =>
      match ValidationResult_bind a k v with
      | Returned a' => ValidationResult_fill a' rest
      | Raised e => Raised e
      end
  end.

(** [ValidationResult(k1=v1, ...)]: a keyword that is not a field, or a
    missing [success] or [message], is a [TypeError]. *)
Definition ValidationResult_init (kwargs : list (string * KwVal))
  : outcome ValidationResult :=
  match ValidationResult_fill
          {| arg_success := None; arg_message := None;
             arg_missing_dependencies := []; arg_installation_commands := [] |}
          kwargs with
  | Raised e => Raised e
  | Returned a =>
      match arg_success a, arg_message a with
      | Some b, Some m =>
          Returned {| vr_success := b; vr_message := m;
                      missing_dependencies := arg_missing_dependencies a;
                      installation_commands := arg_installation_commands a |}
      | _, _ => Raised (TypeError "__init__() missing required positional arguments")
      end
  end.

(** What the validator asks of the system: whether an entry of a directory
    exists ([Path.exists]), running a command to completion
    ([create_subprocess_exec] and [communicate], giving the return code and
    the bytes written to the two streams), and [bytes.decode]. *)
Class Toolchain (World : Type) := {
  path_exists : string → string → Eff World bool;
  run_subprocess : list string → option string → Eff World (Z * string * string);
  decode : string → outcome string
}.

Record DependencyValidator := {
  base_dir : string;
  frontend_dir : string
}.

Module Validator.
Section Validator.
Context {World : Type} `{Toolchain World}.

Definition _run_command (cmd : list string) (cwd : option string)
  : Eff World ValidationResult :=
  try_except
    ('(returncode, stdout, stderr) ← run_subprocess cmd cwd;
     message ← (if decide (returncode ≠ 0) then eff_of_outcome (decode stderr)
                else eff_ret "Command executed successfully");
     output ← eff_of_outcome (decode stdout);
     eff_of_outcome
       (ValidationResult_init
          [("success", KBool (bool_decide (returncode = 0)));
           ("message", KStr message);
           ("output", KStr output)]))
    (λ e,
       eff_of_outcome
         (ValidationResult_init
            [("success", KBool false);
             ("message", KStr ("Command failed: " +:+ exc_str e))])).

(** An expression that reads [result.output]: a [ValidationResult] has no
    such attribute, so evaluating it raises whatever is done with the value.
    The [AttributeError] is carried by [RuntimeError]; its handlers only read
    its text. *)
Definition result_output {A : Type} (result : ValidationResult) : outcome A :=
  Raised (RuntimeError "'ValidationResult' object has no attribute 'output'").

Definition check_python_deps (self : DependencyValidator)
  : Eff World DependencyStatus :=
  try_except
    (found ← path_exists (base_dir self) "requirements.txt";
     if negb found then
       eff_of_outcome
         (DependencyStatus_init
            [("python_deps_ok", VBool false);
             ("missing_python_deps", VStrList ["requirements.txt not found"])])
     else
       result ← _run_command ["pip"; "list"; "--format=json"] None;
       if negb (vr_success result) then
         eff_of_outcome
           (DependencyStatus_init
              [("python_deps_ok", VBool false);
               ("missing_python_deps",
                VStrList ["Failed to get installed packages"])])
       else
         (* [json.loads(result.output)]: the attribute lookup raises before
            the packages are compared with the requirements *)
         eff_of_outcome (result_output result))
    (λ e,
       eff_of_outcome
         (DependencyStatus_init
            [("python_deps_ok", VBool false);
             ("missing_python_deps",
              VStrList ["Error checking dependencies: " +:+ exc_str e])])).

Definition check_node_deps (self : DependencyValidator)
  : Eff World DependencyStatus :=
  try_except
    (package_json ← path_exists (frontend_dir self) "package.json";
     if negb package_json then
       eff_of_outcome
         (DependencyStatus_init
            [("node_deps_ok", VBool false);
             ("missing_node_deps", VStrList ["package.json not found"])])
     else
       node_modules ← path_exists (frontend_dir self) "node_modules";
       if negb node_modules then
         eff_of_outcome
           (DependencyStatus_init
              [("node_deps_ok", VBool false);
               ("missing_node_deps",
                VStrList ["node_modules not found - run npm install"])])
       else
         result ← _run_command ["npm"; "--version"] None;
         if negb (vr_success result) then
           eff_of_outcome
             (DependencyStatus_init
                [("node_deps_ok", VBool false);
                 ("missing_node_deps", VStrList ["npm not available"])])
         else
           result ← _run_command ["npm"; "list"; "--depth=0"; "--json"]
                                 (Some (frontend_dir self));
           if negb (vr_success result) then
             eff_of_outcome
               (DependencyStatus_init
                  [("node_deps_ok", VBool false);
                   ("missing_node_deps",
                    VStrList ["Failed to check npm dependencies"])])
           else
             eff_of_outcome (DependencyStatus_init [("node_deps_ok", VBool true)]))
    (λ e,
       eff_of_outcome
         (DependencyStatus_init
            [("node_deps_ok", VBool false);
             ("missing_node_deps",
              VStrList ["Error checking dependencies: " +:+ exc_str e])])).
End Validator.
End Validator.

(** ** api_key_manager.py: storing and looking up keys *)

Global Instance APIProvider_eq_dec : EqDecision APIProvider.
Proof. solve_decision. Defined.

(** [f"{provider.value.upper()}_API_KEY"], which is also the entry of
    [key_mappings] for the provider. *)
Definition env_var (p : APIProvider) : string :=
  match p with
  | OPENAI => "OPENAI_API_KEY" | ANTHROPIC => "ANTHROPIC_API_KEY"
  | HUGGINGFACE => "HUGGINGFACE_API_KEY" | COHERE => "COHERE_API_KEY"
  | MISTRAL => "MISTRAL_API_KEY" | GEMINI => "GEMINI_API_KEY"
  end.

(** The providers in the order of [key_mappings]. *)
Definition key_mappings : list APIProvider :=
  [OPENAI; ANTHROPIC; HUGGINGFACE; COHERE; MISTRAL; GEMINI].

(** The key manager, together with [os.environ] of the process it runs in,
    which [_store_key] writes and [get_key] reads.  An absent
    [_actual_keys] attribute is the dictionary without entries.  Keys are
    byte strings; the lengths and slices below are those of Python for keys
    written in ASCII. *)
Record APIKeyManager := {
  keys : APIProvider → option APIKeyInfo;
  _actual_keys : APIProvider → option string;
  environ : gmap string string
}.

(** What the key manager asks of the system: the SHA-256 digest in
    hexadecimal, the (provider, value) pairs of the lines of [keys.txt] that
    the loading loop reaches (none when the file is absent), and
    [_save_key_to_file], which catches its own exceptions. *)
Class KeyFile (World : Type) := {
  sha256_hexdigest : string → string;
  read_keys_file : World → list (APIProvider * string) * World;
  _save_key_to_file : APIProvider → string → World → World
}.

(** ["*" * n] *)
Fixpoint stars (n : nat) : string :=
  match n with
  | O => ""
  | S n' => String "*" (stars n')
  end.

Definition _mask_key (key : string) : string :=
  if decide (String.length key ≤ 4)%nat then stars (String.length key)
  else stars (String.length key - 4)
       +:+ substring (String.length key - 4) 4 key.

(** [os.environ[name] = value] raises [ValueError] for a value that holds a
    NUL character. *)
Fixpoint has_nul (s : string) : bool :=
  match s with
  | "" => false
  | String c s' => Ascii.eqb c "000"%char || has_nul s'
  end.

Module KeyManager.
Section KeyManager.
Context {World : Type} `{KeyFile World}.

Definition _hash_key (key : string) : string := sha256_hexdigest key.

(** The [APIKeyInfo] that [_store_key] builds. *)
Definition new_key_info (p : APIProvider) (key : string) : APIKeyInfo :=
  {| provider := p; key_hash := _hash_key key;
     masked_key := _mask_key key; is_valid := false |}.

(** [_store_key]: the entry of [self.keys] is written first, then the
    environment, which may refuse the value, then [_actual_keys] and the
    file. *)
Definition _store_key (self : APIKeyManager) (p : APIProvider) (key : string)
  (w : World) : outcome unit * (APIKeyManager * World) :=
  let keys' := λ q, if decide (q = p) then Some (new_key_info p key)
                    else keys self q in
  if has_nul key
  then (Raised (ValueError "embedded null byte"),
        ({| keys := keys'; _actual_keys := _actual_keys self;
            environ := environ self |}, w))
  else (Returned tt,
        ({| keys := keys';
            _actual_keys := λ q, if decide (q = p) then Some key
                                 else _actual_keys self q;
            environ := <[env_var p := key]> (environ self) |},
         _save_key_to_file p key w)).

(** [set_key], called with a member of [APIProvider]. *)
Definition set_key (self : APIKeyManager) (p : APIProvider) (key : string)
  (w : World) : bool * (APIKeyManager * World) :=
  match _store_key self p key w with
  | (Returned _, s) => (true, s)
  | (Raised _, s) => (false, s)
  end.

(** [get_key_info], called with a member of [APIProvider]. *)
Definition get_key_info (self : APIKeyManager) (p : APIProvider)
  : option APIKeyInfo := keys self p.

Definition get_masked_key (self : APIKeyManager) (p : APIProvider)
  : option string :=
  masked_key <$> get_key_info self p.

(** [get_key], called with a member of [APIProvider]: the environment
    first, when the value there is not empty, then the keys kept in
    memory. *)
Definition get_key (self : APIKeyManager) (p : APIProvider) : option string :=
  match environ self !! env_var p with
  | Some env_key =>
      if decide (env_key = "") then _actual_keys self p else Some env_key
  | None => _actual_keys self p
  end.

Definition remove_key (self : APIKeyManager) (p : APIProvider)
  : bool * APIKeyManager :=
  (true,
   {| keys := λ q, if decide (q = p) then None else keys self q;
      _actual_keys := _actual_keys self;
      environ := delete (env_var p) (environ self) |}).

(** The first loop of [_load_keys_from_env], over the pairs found in the
    file; an exception ends it and is logged. *)
Fixpoint load_from_file (self : APIKeyManager)
  (found : list (APIProvider * string)) (w : World) : APIKeyManager * World :=
  match found with
  | [] => (self, w)
  | (p, value) :: rest =>
      match _store_key self p value w with
      | (Returned _, (self', w')) => load_from_file self' rest w'
      | (Raised _, s) => s
      end
  end.

(** The second loop, over the environment variables. *)
Fixpoint load_from_environ (self : APIKeyManager) (providers : list APIProvider)
  (w : World) : outcome unit * (APIKeyManager * World) :=
  match providers with
  | [] => (Returned tt, (self, w))
  | p :: rest =>
      match environ self !! env_var p with
      | Some key_value =>
          if decide (key_value = "") then load_from_environ self rest w
          else match _store_key self p key_value w with
               | (Returned _, (self', w')) => load_from_environ self' rest w'
               | (Raised e, s) => (Raised e, s)
               end
      | None => load_from_environ self rest w
      end
  end.

(** [APIKeyManager.__init__] in a process with the given environment. *)
Definition APIKeyManager_init (env : gmap string string) (w : World)
  : outcome unit * (APIKeyManager * World) :=
  let self := {| keys := λ _, None; _actual_keys := λ _, None;
                 environ := env |} in
  let '(found, w1) := read_keys_file w in
  let '(self1, w2) := load_from_file self found w1 in
  load_from_environ self1 key_mappings w2.
End KeyManager.
End KeyManager.

(** The value that the last line of the file for a provider gives it. *)
Fixpoint file_value (p : APIProvider) (found : list (APIProvider * string))
  : option string :=
  match found with
  | [] => None
  | (q, v) :: rest =>
      match file_value p rest with
      | Some v' => Some v'
      | None => if decide (q = p) then Some v else None
      end
  end.

(** [os.getenv(name)] when it is not empty. *)
Definition env_value (env : gmap string string) (p : APIProvider)
  : option string :=
  match env !! env_var p with
  | Some v => if decide (v = "") then None else Some v
  | None => None
  end.

(** The key a provider ends up with: the file before the environment. *)
Definition loaded_key (env : gmap string string)
  (found : list (APIProvider * string)) (p : APIProvider) : option string :=
  match file_value p found with
  | Some v => Some v
  | None => env_value env p
  end.

(** No value of the environment holds a NUL character, as in every
    process. *)
Definition clean_env (env : gmap string string) : Prop :=
  ∀ k v, env !! k = Some v → has_nul v = false.

Definition clean_file (found : list (APIProvider * string)) : Prop :=
  Forall (λ pv, has_nul pv.2 = false) found.

(** A scripted key file: the world is the list of pairs the file holds. *)
Fixpoint sim_save (p : APIProvider) (key : string)
  (w : list (APIProvider * string)) : list (APIProvider * string) :=
  match w with
  | [] => [(p, key)]
  | (q, v) :: rest =>
      if decide (q = p) then (p, key) :: rest else (q, v) :: sim_save p key rest
  end.

Global Instance sim_key_file : KeyFile (list (APIProvider * string)) := {
  sha256_hexdigest key := "sha256:" +:+ key;
  read_keys_file w := (w, w);
  _save_key_to_file := sim_save
}.

(** Every stored key is marked as not valid. *)
Definition all_invalid (self : APIKeyManager) : Prop :=
  ∀ p info, keys self p = Some info → is_valid info = false.

(** A manager without keys, in a process with an empty environment. *)
Definition no_keys : APIKeyManager :=
  {| keys := λ _, None; _actual_keys := λ _, None; environ := ∅ |}.

(** ** service_manager.py: the base controller, from its source *)

(** What a controller asks of the operating system.  A process is known by
    its [Popen] object, here its pid.  [Popen_wait] gives [true] when the
    process ended and [false] for [TimeoutExpired]; it raises for any other
    exception.  [_wait_for_ready] polls the port and the health endpoint of
    the process just spawned until a deadline. *)
Class Processes (World : Type) := {
  os_name_is_nt : bool;
  Popen : ServiceConfig → Eff World Z;
  Popen_poll : Z → Eff World (option Z);
  Popen_terminate : Z → Eff World unit;
  Popen_send_signal : Z → Eff World unit;
  Popen_wait : Z → option Z → Eff World bool;
  Popen_kill : Z → Eff World unit;
  _wait_for_ready : ServiceConfig → Z → Eff World bool;
  asyncio_sleep : Z → World → World
}.

Module Controller.

(** The attributes of a [ServiceController] that change. *)
Record State := {
  process : option Z;
  start_time : option datetime;
  retry_count : Z;
  max_retries : Z
}.

(** [ServiceController.__init__] *)
Definition init : State :=
  {| process := None; start_time := None; retry_count := 0; max_retries := 3 |}.

Definition result (success : bool) (message : string)
  (failed started : list string) : StartupResult :=
  {| sr_success := success; sr_message := message;
     failed_services := failed; started_services := started |}.

Section Controller.
Context {World : Type} `{Sockets World} `{Platform World} `{Processes World}.

(** A method runs on the controller and the world. *)
Definition Method (A : Type) : Type := Eff (State * World) A.

Definition sys {A} (m : Eff World A) : Method A :=
  λ sw, let '(o, w') := m sw.2 in (o, (sw.1, w')).

Definition get_self : Method State := λ sw, (Returned sw.1, sw).

Definition set_self (f : State → State) : Method unit :=
  λ sw, (Returned tt, (f sw.1, sw.2)).

Definition is_running : Method bool :=
  self ← get_self;
  match process self with
  | None => eff_ret false
  | Some p =>
      try_except
        (code ← sys (Popen_poll p); eff_ret (bool_decide (code = None)))
        (λ _, eff_ret false)
  end.

Definition stop (config : ServiceConfig) : Method StartupResult :=
  running ← is_running;
  if negb running then
    eff_ret (result true ("Service " +:+ name config +:+ " is not running") [] [])
  else
    try_except
      (self ← get_self;
       _ ← match process self with
           | Some p =>
               _ ← (if os_name_is_nt then sys (Popen_send_signal p)
                    else sys (Popen_terminate p));
               ended ← sys (Popen_wait p (Some 10));
               _ ← (if ended : bool then eff_ret tt
                    else _ ← sys (Popen_kill p);
                         _ ← sys (Popen_wait p None);
                         eff_ret tt);
               set_self (λ s, {| process := None; start_time := None;
                                 retry_count := retry_count s;
                                 max_retries := max_retries s |})
           | None => eff_ret tt
           end;
       eff_ret (result true
                  ("Service " +:+ name config +:+ " stopped successfully") [] []))
      (λ e,
         eff_ret (result false
                    ("Failed to stop " +:+ name config +:+ ": " +:+ exc_str e)
                    [] [])).

(** What follows a failed attempt: [continue] after a pause, or the given
    failure. *)
Definition retry_or (attempt : Z) (failure : State → StartupResult)
  : Method (option StartupResult) :=
  self ← get_self;
  if decide (attempt < max_retries self - 1)
  then _ ← sys (eff_lift (λ w, (tt, asyncio_sleep 5 w))); eff_ret None
  else eff_ret (Some (failure self)).

(** One pass through the body of the retry loop: [Some] is a [return],
    [None] is a [continue]. *)
Definition attempt_once (config : ServiceConfig) (attempt : Z)
  : Method (option StartupResult) :=
  try_except
    (p ← sys (Popen config);
     _ ← set_self (λ s, {| process := Some p; start_time := start_time s;
                           retry_count := retry_count s;
                           max_retries := max_retries s |});
     t ← sys (eff_lift datetime_now);
     _ ← set_self (λ s, {| process := process s; start_time := Some t;
                           retry_count := retry_count s;
                           max_retries := max_retries s |});
     ready ← sys (_wait_for_ready config p);
     if ready : bool then
       _ ← set_self (λ s, {| process := process s; start_time := start_time s;
                             retry_count := 0; max_retries := max_retries s |});
       eff_ret (Some (result true
                        ("Service " +:+ name config +:+ " started successfully")
                        [] [name config]))
     else
       _ ← stop config;
       retry_or attempt
         (λ self, result false
                    ("Service " +:+ name config
                     +:+ " failed to become ready after "
                     +:+ pretty (max_retries self) +:+ " attempts")
                    [name config] []))
    (λ e,
       _ ← stop config;
       retry_or attempt
         (λ self, result false
                    ("Failed to start " +:+ name config +:+ " after "
                     +:+ pretty (max_retries self) +:+ " attempts: "
                     +:+ exc_str e)
                    [name config] [])).

(** [for attempt in range(self.max_retries)], and the [return] after it. *)
Fixpoint attempts (config : ServiceConfig) (todo : list Z)
  : Method StartupResult :=
  match todo with
  | [] =>
      self ← get_self;
      eff_ret (result false
                 ("Service " +:+ name config +:+ " failed to start after "
                  +:+ pretty (max_retries self) +:+ " attempts")
                 [name config] [])
  | attempt :: rest =>
      r ← attempt_once config attempt;
      match r with
      | Some r => eff_ret r
      | None => attempts config rest
      end
  end.

Definition start (config : ServiceConfig) : Method StartupResult :=
  running ← is_running;
  if running : bool then
    eff_ret (result true
               ("Service " +:+ name config +:+ " is already running") [] [])
  else
    port_open ← sys (PortChecker.is_port_open (port config) "localhost" 5);
    if port_open : bool then
      eff_ret (result true
                 ("Service " +:+ name config +:+ " is already running on port "
                  +:+ pretty (port config)) [] [])
    else
      self ← get_self;
      attempts config (seqZ 0 (max_retries self)).
End Controller.
End Controller.

(** The controller after a call of [stop] that found [self]. *)
Definition stopped_from (self self' : Controller.State) (r : StartupResult)
  : Prop :=
  Controller.max_retries self' = Controller.max_retries self
  ∧ Controller.retry_count self' = Controller.retry_count self
  ∧ (self' = self
     ∨ (sr_success r = true ∧ Controller.process self' = None
        ∧ Controller.start_time self' = None)).

(** What an attempt that returns can return. *)
Definition started_result (config : ServiceConfig) : StartupResult :=
  Controller.result true
    ("Service " +:+ name config +:+ " started successfully") [] [name config].

Definition not_ready_result (config : ServiceConfig) (self : Controller.State)
  : StartupResult :=
  Controller.result false
    ("Service " +:+ name config +:+ " failed to become ready after "
     +:+ pretty (Controller.max_retries self) +:+ " attempts")
    [name config] [].

Definition start_error_result (config : ServiceConfig) (self : Controller.State)
  (e : PyExc) : StartupResult :=
  Controller.result false
    ("Failed to start " +:+ name config +:+ " after "
     +:+ pretty (Controller.max_retries self) +:+ " attempts: " +:+ exc_str e)
    [name config] [].

(** The outcome of one attempt, which found [self] and left [self']. *)
Definition attempt_outcome (config : ServiceConfig) (attempt : Z)
  (self self' : Controller.State) (o : option StartupResult) : Prop :=
  Controller.max_retries self' = Controller.max_retries self
  ∧ match o with
    | None => attempt < Controller.max_retries self - 1
    | Some r =>
        (r = started_result config
         ∧ is_Some (Controller.process self')
         ∧ is_Some (Controller.start_time self')
         ∧ Controller.retry_count self' = 0)
        ∨ (¬ attempt < Controller.max_retries self - 1
           ∧ (r = not_ready_result config self
              ∨ ∃ e, r = start_error_result config self e))
    end.

(** A result produced inside the retry loop. *)
Definition loop_result (config : ServiceConfig) (self self' : Controller.State)
  (r : StartupResult) : Prop :=
  (r = started_result config
   ∧ is_Some (Controller.process self')
   ∧ is_Some (Controller.start_time self')
   ∧ Controller.retry_count self' = 0)
  ∨ r = not_ready_result config self
  ∨ ∃ e, r = start_error_result config self e.

(** The sockets and processes of the scripted platform: a port answers when
    it is listed as open; a command can be spawned when its service is listed
    as spawnable, and the service is then ready at once. *)
Global Instance sim_sockets : Sockets SimWorld := {
  connect_ex _ _ port _ :=
    λ w, (Returned (if bool_decide (port ∈ sim_open_ports w) then 0 else 111), w)
}.

Definition sim_spawn (c : ServiceConfig) : Eff SimWorld Z :=
  λ w,
    let w' := {| sim_clock := sim_clock w; sim_open_ports := sim_open_ports w;
                 sim_http := sim_http w; sim_spawnable := sim_spawnable w;
                 sim_owned := sim_owned w;
                 sim_log := sim_log w ++ ["spawn " +:+ name c] |} in
    if bool_decide (name c ∈ sim_spawnable w) then (Returned 4242, w')
    else (Raised (OSError "[Errno 2] No such file or directory"), w').

Global Instance sim_processes : Processes SimWorld := {
  os_name_is_nt := false;
  Popen := sim_spawn;
  Popen_poll _ := eff_ret None;
  Popen_terminate _ := eff_ret tt;
  Popen_send_signal _ := eff_ret tt;
  Popen_wait _ _ := eff_ret true;
  Popen_kill _ := eff_ret tt;
  _wait_for_ready _ _ := eff_ret true;
  asyncio_sleep _ w := w
}.

(** * Properties *)

#[local] Set Warnings "-clear-no-such-hyp".

(** Unfolds the monadic combinators. *)
Ltac eff_unfold :=
  unfold mbind, mret, eff_mbind, eff_mret, eff_bind, eff_ret, eff_raise,
    try_except, eff_lift, eff_of_outcome in *.

(** ** The order on strings *)

Lemma string_compare_trans c x : ∀ y z,
  String.compare x y = c → String.compare y z = c → String.compare x z = c.
Proof.
  induction x as [|a x IH]; intros [|b y] [|d z]; simpl; try congruence.
  unfold Ascii.compare.
  destruct (N.compare_spec (N_of_ascii a) (N_of_ascii b)) as [E1|L1|G1];
  destruct (N.compare_spec (N_of_ascii b) (N_of_ascii d)) as [E2|L2|G2];
  destruct (N.compare_spec (N_of_ascii a) (N_of_ascii d)) as [E3|L3|G3];
  try congruence; try lia; eauto.
Qed.

Global Instance str_le_total : Total str_le.
Proof. intros x y. apply String.leb_total. Qed.

Global Instance str_le_antisymm : AntiSymm (=) str_le.
Proof. intros x y. apply String.leb_antisym. Qed.

Global Instance str_le_trans : Transitive str_le.
Proof.
  intros x y z. unfold str_le, String.leb.
  destruct (String.compare x y) eqn:E1; [ | |done];
  destruct (String.compare y z) eqn:E2; try done; intros _ _.
  - by rewrite (string_compare_trans Eq x y z).
  - apply String.compare_eq_iff in E1 as ->. by rewrite E2.
  - apply String.compare_eq_iff in E2 as <-. by rewrite E1.
  - by rewrite (string_compare_trans Lt x y z).
Qed.

Lemma sort_strings_sorted xs : StronglySorted str_le (sort_strings xs).
Proof. apply StronglySorted_merge_sort; apply _. Qed.

Lemma sort_strings_elem_of xs x : x ∈ sort_strings xs ↔ x ∈ xs.
Proof. by rewrite sort_strings_perm. Qed.

(** Sorting forgets the order in which the elements were enumerated. *)
Lemma sort_strings_enumeration xs ys : xs ≡ₚ ys → sort_strings xs = sort_strings ys.
Proof.
  intros Hp. apply (StronglySorted_unique str_le); try apply sort_strings_sorted.
  by rewrite !sort_strings_perm.
Qed.

(** ** One round of the startup loop *)

Lemma select_ready_enumeration table ordered l1 l2 :
  l1 ≡ₚ l2 → select_ready table ordered l1 = select_ready table ordered l2.
Proof.
  intros Hp. unfold select_ready. apply sort_strings_enumeration.
  assert (filter (deps_met table ordered) l1 ≡ₚ filter (deps_met table ordered) l2) as Hf
    by by rewrite Hp.
  destruct (filter _ l1) as [|x f1] eqn:E1, (filter _ l2) as [|y f2] eqn:E2; try done.
  - by apply Permutation_nil_l in Hf.
  - by apply Permutation_nil_r in Hf.
Qed.

Lemma select_ready_sorted table ordered l :
  StronglySorted str_le (select_ready table ordered l).
Proof. apply sort_strings_sorted. Qed.

Lemma select_ready_NoDup table ordered l : NoDup l → NoDup (select_ready table ordered l).
Proof.
  intros Hl. unfold select_ready. rewrite sort_strings_perm.
  destruct (filter _ l) as [|x f] eqn:E; [done|].
  rewrite <- E. by apply NoDup_filter.
Qed.

(** When some enumerated service has all its dependencies ordered, the round
    takes exactly the services that do. *)
Lemma select_ready_some table ordered l s0 :
  s0 ∈ l → deps_met table ordered s0 →
  ∀ s, s ∈ select_ready table ordered l ↔ s ∈ l ∧ deps_met table ordered s.
Proof.
  intros Hin Hmet s. unfold select_ready. rewrite sort_strings_elem_of.
  destruct (filter _ l) as [|x f] eqn:E.
  - assert (s0 ∈ filter (deps_met table ordered) l) as Hs0
      by by apply list_elem_of_filter.
    rewrite E in Hs0. by apply elem_of_nil in Hs0.
  - rewrite <- E. rewrite list_elem_of_filter. tauto.
Qed.

(** When none has, the round takes everything that was enumerated. *)
Lemma select_ready_none table ordered l :
  (∀ s, s ∈ l → ¬ deps_met table ordered s) →
  select_ready table ordered l = sort_strings l.
Proof.
  intros Hnone. unfold select_ready.
  destruct (filter _ l) as [|x f] eqn:E; [done|].
  assert (x ∈ filter (deps_met table ordered) l) as Hx by (rewrite E; left).
  apply list_elem_of_filter in Hx as [Hmet Hx]. by destruct (Hnone x).
Qed.

(** ** The startup loop *)

Lemma startup_loop_step table ordered remaining :
  startup_loop table ordered remaining =
  if decide (remaining = ∅) then ordered
  else startup_loop table
         (ordered ++ select_ready table ordered (elements remaining))
         (remaining ∖ list_to_set (select_ready table ordered (elements remaining))).
Proof. rewrite startup_loop_equation_1. by destruct (decide (remaining = ∅)). Qed.

Lemma startup_loop_done table ordered : startup_loop table ordered ∅ = ordered.
Proof. rewrite startup_loop_step. by rewrite decide_True. Qed.

(** Taking a duplicate-free part out of a set and listing it first is a
    rearrangement of the set. *)
Lemma elements_split (X : gset string) (b : list string) :
  NoDup b → (∀ x, x ∈ b → x ∈ X) →
  b ++ elements (X ∖ list_to_set b) ≡ₚ elements X.
Proof.
  intros Hnd Hsub. apply NoDup_Permutation.
  - apply NoDup_app. split; [done|]. split; [|apply NoDup_elements].
    intros x Hx. rewrite elem_of_elements, elem_of_difference, elem_of_list_to_set.
    tauto.
  - apply NoDup_elements.
  - intros x. rewrite elem_of_app, !elem_of_elements, elem_of_difference,
      elem_of_list_to_set.
    split; [intros [?|[? _]]; auto|].
    intros Hx. destruct (decide (x ∈ b)); auto.
Qed.

Lemma select_ready_elements_NoDup table ordered (remaining : gset string) :
  NoDup (select_ready table ordered (elements remaining)).
Proof. apply select_ready_NoDup, NoDup_elements. Qed.

Lemma select_ready_elements_subset table ordered (remaining : gset string) x :
  x ∈ select_ready table ordered (elements remaining) → x ∈ remaining.
Proof. intros Hx. by apply elem_of_elements, (select_ready_subset table ordered). Qed.

(** Every round orders at least one more service. *)
Lemma startup_loop_progress table ordered (remaining : gset string) :
  remaining ≠ ∅ →
  (size (remaining ∖ list_to_set (select_ready table ordered (elements remaining)))
   < size remaining)%nat.
Proof.
  intros Hne.
  assert (elements remaining ≠ []) as Hl.
  { intros Hnil. apply elements_empty_inv in Hnil. apply Hne. by apply leibniz_equiv. }
  pose proof (select_ready_nonempty table ordered _ Hl) as Hr.
  destruct (select_ready table ordered (elements remaining)) as [|x r] eqn:E; [done|].
  assert (x ∈ remaining) as Hx.
  { apply (select_ready_elements_subset table ordered). rewrite E. left. }
  apply subset_size. split.
  - intros y Hy. apply elem_of_difference in Hy. tauto.
  - intros Hsub. apply Hsub, elem_of_difference in Hx as [_ Hx].
    apply Hx, elem_of_list_to_set. left.
Qed.

(** Well-founded induction on the number of services still to be ordered,
    following the rounds of the loop. *)
Lemma startup_loop_rounds (table : gmap string ServiceConfig)
  (P : list string → gset string → Prop) :
  (∀ ordered, P ordered ∅) →
  (∀ ordered remaining,
     remaining ≠ ∅ →
     P (ordered ++ select_ready table ordered (elements remaining))
       (remaining ∖ list_to_set (select_ready table ordered (elements remaining))) →
     P ordered remaining) →
  ∀ ordered remaining, P ordered remaining.
Proof.
  intros Hdone Hround ordered remaining.
  remember (size remaining) as n eqn:Hn.
  revert ordered remaining Hn.
  induction (lt_wf n) as [n _ IH]. intros ordered remaining ->.
  destruct (decide (remaining = ∅)) as [->|Hne]; [apply Hdone|].
  apply Hround; [done|].
  eapply IH; [|done]. by apply startup_loop_progress.
Qed.

(** The loop returns what was ordered so far followed by a rearrangement of
    what remained. *)
Lemma startup_loop_perm table ordered remaining :
  startup_loop table ordered remaining ≡ₚ ordered ++ elements remaining.
Proof.
  revert ordered remaining.
  apply (startup_loop_rounds table (λ ordered remaining,
           startup_loop table ordered remaining ≡ₚ ordered ++ elements remaining)).
  - intros ordered. rewrite startup_loop_done, elements_empty. by rewrite app_nil_r.
  - intros ordered remaining Hne IH.
    rewrite startup_loop_step, decide_False by done.
    rewrite IH, <- app_assoc. apply Permutation_app_head, elements_split.
    + apply select_ready_elements_NoDup.
    + apply select_ready_elements_subset.
Qed.

Lemma get_startup_order_perm cfg :
  get_startup_order cfg ≡ₚ elements (dom (services cfg)).
Proof. unfold get_startup_order. by rewrite startup_loop_perm. Qed.

Lemma get_startup_order_NoDup cfg : NoDup (get_startup_order cfg).
Proof. rewrite get_startup_order_perm. apply NoDup_elements. Qed.

Lemma get_startup_order_elem_of cfg s :
  s ∈ get_startup_order cfg ↔ s ∈ dom (services cfg).
Proof. by rewrite get_startup_order_perm, elem_of_elements. Qed.

(** When no remaining service has its dependencies ordered, the loop ends
    after appending all of them in lexicographic order. *)
Lemma startup_loop_fallback table ordered remaining :
  (∀ s, s ∈ remaining → ¬ deps_met table ordered s) →
  startup_loop table ordered remaining = ordered ++ sort_strings (elements remaining).
Proof.
  intros Hnone. rewrite startup_loop_step.
  destruct (decide (remaining = ∅)) as [->|Hne].
  - rewrite elements_empty. by rewrite app_nil_r.
  - rewrite select_ready_none
      by (intros s Hs; apply Hnone; by apply elem_of_elements).
    replace (remaining ∖ list_to_set (sort_strings (elements remaining)))
      with (∅ : gset string); [by rewrite startup_loop_done|].
    apply leibniz_equiv. intros x.
    rewrite elem_of_difference, elem_of_list_to_set, sort_strings_elem_of,
      elem_of_elements.
    split; [by intros ?%elem_of_empty|tauto].
Qed.

(** The rounds of the loop on any table: the result is the concatenation of
    the batches selected round after round, each of them not empty and the
    selection made from what the batches before it left. *)
Lemma startup_loop_rounds_any table ordered remaining :
  ∃ batches,
    startup_loop table ordered remaining = ordered ++ concat batches ∧
    ∀ pre b post, batches = pre ++ b :: post →
      b ≠ [] ∧
      b = select_ready table (ordered ++ concat pre)
            (elements (remaining ∖ list_to_set (concat pre))).
Proof.
  revert ordered remaining.
  apply (startup_loop_rounds table (λ ordered remaining,
    ∃ batches,
      startup_loop table ordered remaining = ordered ++ concat batches ∧
      ∀ pre b post, batches = pre ++ b :: post →
        b ≠ [] ∧
        b = select_ready table (ordered ++ concat pre)
              (elements (remaining ∖ list_to_set (concat pre))))).
  - intros ordered. exists []. rewrite startup_loop_done. split.
    + by rewrite app_nil_r.
    + intros pre b post Heq. by destruct pre.
  - intros ordered remaining Hne (batches & Heq & Hb).
    set (b0 := select_ready table ordered (elements remaining)) in *.
    exists (b0 :: batches). split.
    + rewrite startup_loop_step, decide_False by done. fold b0.
      rewrite Heq. simpl. by rewrite <- app_assoc.
    + intros pre b post Hsplit. destruct pre as [|b1 pre]; simplify_eq/=.
      * rewrite app_nil_r, difference_empty_L. split; [|done].
        apply select_ready_nonempty. intros Hnil.
        apply elements_empty_inv in Hnil. apply Hne. by apply leibniz_equiv.
      * destruct (Hb pre b post eq_refl) as [Hnonempty Hsel].
        split; [done|].
        rewrite list_to_set_app_L, <- difference_difference_l_L, app_assoc.
        exact Hsel.
Qed.

Lemma concat_length_ge (batches : list (list string)) :
  Forall (λ b, b ≠ []) batches → (length batches ≤ length (concat batches))%nat.
Proof.
  induction 1 as [|b batches Hb _ IH]; simpl; [done|].
  rewrite length_app. destruct b; [done|]. simpl. lia.
Qed.

Lemma loop_state_init table : loop_state table [] (dom table).
Proof. intros s. rewrite elem_of_nil. tauto. Qed.

Lemma loop_state_round table ordered remaining :
  loop_state table ordered remaining →
  loop_state table
    (ordered ++ select_ready table ordered (elements remaining))
    (remaining ∖ list_to_set (select_ready table ordered (elements remaining))).
Proof.
  intros Hst s. rewrite (Hst s), elem_of_app, elem_of_difference, elem_of_list_to_set.
  split.
  - intros [?|?]; [tauto|].
    destruct (decide (s ∈ select_ready table ordered (elements remaining))); tauto.
  - intros [[?|Hs]|[? _]]; [tauto| |tauto].
    right. by apply (select_ready_elements_subset table ordered).
Qed.

(** The names in [remaining] are looked up in the table: they are all
    configured. *)
Lemma loop_state_configured table ordered remaining s :
  loop_state table ordered remaining → s ∈ remaining → is_Some (table !! s).
Proof. intros Hst Hs. apply elem_of_dom, Hst. by right. Qed.

Lemma deps_met_iff table ordered s :
  deps_met table ordered s ↔ ∀ d, depends_on table s d → d ∈ ordered.
Proof.
  unfold deps_met, depends_on. split.
  - intros Hsub d Hd. specialize (Hsub d). rewrite !elem_of_list_to_set in Hsub. auto.
  - intros Hall d. rewrite !elem_of_list_to_set. apply Hall.
Qed.

Lemma not_deps_met table ordered s :
  ¬ deps_met table ordered s → ∃ d, depends_on table s d ∧ d ∉ ordered.
Proof.
  intros Hn.
  assert (¬ Forall (λ d, d ∈ ordered) (dependencies_of table s)) as HnF.
  { intros HF. apply Hn, deps_met_iff. intros d Hd.
    rewrite Forall_forall in HF. by apply HF. }
  apply not_Forall_Exists in HnF; [|apply _].
  apply Exists_exists in HnF as (d & Hd & Hnd). by exists d.
Qed.

Section Acyclic.
Variable table : gmap string ServiceConfig.
Hypothesis Hclosed : deps_closed table.
Hypothesis Hacyclic : acyclic table.

Lemma depends_on_terminates x : sn (depends_on table) x.
Proof.
  apply tc_finite_sn.
  - intros s. apply Hacyclic.
  - exists (elements (dom table)). intros y Hy. apply elem_of_elements.
    induction Hy as [x y Hxy|x y z Hxy _ IH]; [by apply (Hclosed x)|done].
Qed.

(** As long as services remain, one of them has all its dependencies
    ordered: the fallback of the loop is never taken. *)
Lemma some_service_ready ordered remaining :
  loop_state table ordered remaining → remaining ≠ ∅ →
  ∃ s, s ∈ remaining ∧ deps_met table ordered s.
Proof.
  intros Hst Hne. apply set_choose_L in Hne as [x Hx].
  revert Hx. induction (depends_on_terminates x) as [x _ IH]. intros Hx.
  destruct (decide (deps_met table ordered x)) as [|Hn]; [by exists x|].
  apply not_deps_met in Hn as (d & Hd & Hnd).
  apply (IH d); [done|].
  apply Hclosed, Hst in Hd as [?|?]; done.
Qed.

(** The rounds of the loop: the result is the concatenation of the batches
    selected round after round; every batch is sorted and holds exactly the
    services, not selected before, whose dependencies all were. *)
Lemma startup_loop_batches ordered remaining :
  loop_state table ordered remaining →
  ∃ batches,
    startup_loop table ordered remaining = ordered ++ concat batches ∧
    ∀ pre b post, batches = pre ++ b :: post →
      StronglySorted str_le b ∧
      ∀ s, s ∈ b ↔ s ∈ remaining ∧ (s ∉ concat pre)
                   ∧ deps_met table (ordered ++ concat pre) s.
Proof.
  revert ordered remaining.
  apply (startup_loop_rounds table (λ ordered remaining,
    loop_state table ordered remaining →
    ∃ batches,
      startup_loop table ordered remaining = ordered ++ concat batches ∧
      ∀ pre b post, batches = pre ++ b :: post →
        StronglySorted str_le b ∧
        ∀ s, s ∈ b ↔ s ∈ remaining ∧ (s ∉ concat pre)
                     ∧ deps_met table (ordered ++ concat pre) s)).
  - intros ordered _. exists []. rewrite startup_loop_done. split.
    + by rewrite app_nil_r.
    + intros pre b post Heq. by destruct pre.
  - intros ordered remaining Hne IH Hst.
    destruct (IH (loop_state_round _ _ _ Hst)) as (batches & Heq & Hb).
    set (b0 := select_ready table ordered (elements remaining)) in *.
    destruct (some_service_ready ordered remaining Hst Hne) as (s0 & Hs0 & Hmet0).
    assert (∀ s, s ∈ b0 ↔ s ∈ remaining ∧ deps_met table ordered s) as Hb0.
    { intros s. unfold b0.
      rewrite (select_ready_some table ordered _ s0), elem_of_elements; [done| |done].
      by apply elem_of_elements. }
    exists (b0 :: batches). split.
    + rewrite startup_loop_step, decide_False by done. fold b0.
      rewrite Heq. simpl. by rewrite <- app_assoc.
    + intros pre b post Hsplit. destruct pre as [|b1 pre]; simplify_eq/=.
      * split; [apply select_ready_sorted|]. intros s.
        rewrite app_nil_r, Hb0, elem_of_nil. tauto.
      * destruct (Hb pre b post eq_refl) as [Hsorted Hmem].
        split; [done|]. intros s.
        rewrite Hmem, elem_of_difference, elem_of_list_to_set, elem_of_app.
        rewrite <- app_assoc. tauto.
Qed.

(** Every service comes after each of its declared dependencies. *)
Lemma startup_order_dependencies_first s d :
  s ∈ dom table → depends_on table s d →
  before d s (startup_loop table [] (dom table)).
Proof.
  intros Hs Hd.
  destruct (startup_loop_batches [] (dom table) (loop_state_init table))
    as (batches & Heq & Hb).
  simpl in Heq.
  assert (s ∈ concat batches) as Hin.
  { rewrite <- Heq, startup_loop_perm. simpl. by apply elem_of_elements. }
  apply list_elem_of_In, in_concat in Hin as (b & Hbin & Hsb).
  apply list_elem_of_In in Hbin. apply list_elem_of_In in Hsb.
  apply list_elem_of_split in Hbin as (pre & post & ->).
  destruct (Hb pre b post eq_refl) as [_ Hmem].
  apply Hmem in Hsb as Hs'. destruct Hs' as (_ & _ & Hmet).
  rewrite deps_met_iff in Hmet. specialize (Hmet d Hd). simpl in Hmet.
  apply list_elem_of_split in Hmet as (l1 & l2 & Hpre).
  apply list_elem_of_split in Hsb as (m1 & m2 & ->).
  exists l1, (l2 ++ m1), (m2 ++ concat post).
  rewrite Heq, concat_app, Hpre. simpl. by rewrite <- !app_assoc.
Qed.
End Acyclic.

(** ** Coordinated startup *)

Section Startup.
Context {World : Type} `{Platform World}.

Lemma for_each_fold {A} (body : A → Eff World unit) (step : A → World → World) l :
  (∀ x w, x ∈ l → body x w = (Returned tt, step x w)) →
  ∀ w, for_each l body w = (Returned tt, foldl (λ w x, step x w) w l).
Proof.
  induction l as [|x l IH]; intros Hbody w; simpl; [done|].
  unfold eff_bind. rewrite Hbody by left. apply IH.
  intros y w' Hy. apply Hbody. by right.
Qed.

Lemma guarded_stop mgr service_name w :
  try_except (_ ← stop_service mgr service_name; eff_ret tt) (λ _, eff_ret tt) w
  = (Returned tt, (stop_service mgr service_name w).2).
Proof. eff_unfold. by destruct (stop_service mgr service_name w) as [[r|e] w']. Qed.

(** The rollback never raises, whatever the individual stops do. *)
Lemma _stop_started_services_spec (self : HealthMonitor World) started w :
  _stop_started_services self started w
  = (Returned tt, stop_reversed (service_manager self) started w).
Proof.
  unfold _stop_started_services, stop_reversed.
  apply (for_each_fold _ (λ n w, (stop_service (service_manager self) n w).2)).
  intros n w' _. apply guarded_stop.
Qed.

Lemma _initialize_controllers_lookup cfg service_name :
  is_Some (_initialize_controllers cfg !! service_name)
  ↔ service_name ∈ dom (services cfg).
Proof.
  unfold _initialize_controllers. rewrite map_lookup_imap, elem_of_dom.
  destruct (services cfg !! service_name); simpl; split; intros [? ?]; eauto; done.
Qed.

(** Shutdown stops every service, in the reverse of the startup order. *)
Lemma stop_all_services_spec cfg w :
  stop_all_services (ServiceManager_init cfg) w
  = (Returned tt,
     stop_reversed (ServiceManager_init cfg) (get_startup_order cfg) w).
Proof.
  unfold stop_all_services, stop_reversed. simpl.
  apply (for_each_fold _ (λ n w, (stop_service (ServiceManager_init cfg) n w).2)).
  intros n w' Hn. rewrite decide_True; [apply guarded_stop|].
  apply _initialize_controllers_lookup, get_startup_order_elem_of.
  by rewrite elem_of_reverse in Hn.
Qed.

Lemma start_one_success (self : HealthMonitor World) n started failed w w1 :
  start_succeeds (service_manager self) n w w1 →
  start_one self n started failed w = (Returned (started ++ [n], failed, Continue), w1).
Proof. intros (r & Hr & Hok). unfold start_one. by rewrite Hr, Hok. Qed.

Lemma start_one_failure (self : HealthMonitor World) n started failed w w1 :
  start_fails (service_manager self) n w w1 →
  start_one self n started failed w
  = (Returned (started, failed ++ [n], Break),
     stop_reversed (service_manager self) started w1).
Proof.
  intros (o & Ho & Hfail). unfold start_one. rewrite Ho.
  destruct o as [r|e].
  - rewrite Hfail. eff_unfold. by rewrite _stop_started_services_spec.
  - eff_unfold. by rewrite _stop_started_services_spec.
Qed.

Lemma start_succeeds_or_fails mgr n w :
  (∃ w1, start_succeeds mgr n w w1) ∨ (∃ w1, start_fails mgr n w w1).
Proof.
  destruct (start_service mgr n w) as [[r|e] w1] eqn:E.
  - destruct (sr_success r) eqn:Hr.
    + left. exists w1, r. done.
    + right. exists w1, (Returned r). done.
  - right. exists w1, (Raised e). done.
Qed.

(** The startup loop either starts everything, or stops at the first
    failure after rolling back what it had started. *)
Lemma start_loop_spec (self : HealthMonitor World) order : ∀ started w,
  let mgr := service_manager self in
  (∃ w', starts_all mgr order w w' ∧
         start_loop self order started [] w = (Returned (started ++ order, []), w'))
  ∨ (∃ pre f post w1 w2,
       order = pre ++ f :: post ∧ starts_all mgr pre w w1 ∧ start_fails mgr f w1 w2 ∧
       start_loop self order started [] w
       = (Returned (started ++ pre, [f]), stop_reversed mgr (started ++ pre) w2)).
Proof.
  induction order as [|n rest IH]; intros started w mgr.
  - left. exists w. split; [constructor|]. simpl. by rewrite app_nil_r.
  - destruct (start_succeeds_or_fails mgr n w) as [[w1 Hok]|[w1 Hfail]].
    + assert (start_loop self (n :: rest) started [] w
              = start_loop self rest (started ++ [n]) [] w1) as Hstep.
      { simpl. eff_unfold. by rewrite (start_one_success self n started [] w w1). }
      rewrite Hstep.
      destruct (IH (started ++ [n]) w1) as [(w' & Hall & Heq)|
        (pre & f & post & w2 & w3 & -> & Hall & Hf & Heq)].
      * left. exists w'. split; [by econstructor|].
        rewrite Heq. by rewrite <- app_assoc.
      * right. exists (n :: pre), f, post, w2, w3.
        split; [done|]. split; [by econstructor|]. split; [done|].
        rewrite Heq. by rewrite <- !app_assoc.
    + right. exists [], n, rest, w, w1.
      split; [done|]. split; [constructor|]. split; [done|].
      simpl. eff_unfold. rewrite (start_one_failure self n started [] w w1) by done.
      by rewrite app_nil_r.
Qed.

Lemma start_services_spec (self : HealthMonitor World) w0 vr w1 :
  dependency_validator self w0 = (Returned vr, w1) → vr_success vr = true →
  let mgr := service_manager self in
  let order := get_startup_order (config self) in
  (∃ w2, starts_all mgr order w1 w2 ∧
         start_services self w0 = (Returned (startup_succeeded order), w2))
  ∨ (∃ pre f post w2 w3,
       order = pre ++ f :: post ∧ starts_all mgr pre w1 w2 ∧ start_fails mgr f w2 w3 ∧
       start_services self w0
       = (Returned (startup_failed pre f), stop_reversed mgr pre w3)).
Proof.
  intros Hval Hok mgr order.
  unfold start_services. eff_unfold. rewrite Hval, Hok. simpl.
  destruct (start_loop_spec self order [] w1) as [(w' & Hall & Heq)|
    (pre & f & post & w2 & w3 & Hsplit & Hall & Hf & Heq)].
  - left. exists w'. split; [done|]. fold order. by rewrite Heq.
  - right. exists pre, f, post, w2, w3. repeat (split; [done|]).
    fold order. by rewrite Heq.
Qed.
End Startup.

(** *** A service and one dependent *)

Section TwoServices.
Variables (A B : string) (cA cB : ServiceConfig).
Hypothesis HAB : A ≠ B.
Hypothesis HdepsA : dependencies cA = [].
Hypothesis HdepsB : dependencies cB = [A].

Let table : gmap string ServiceConfig := <[B := cB]> {[A := cA]}.

Lemma two_services_depends_on s d : depends_on table s d ↔ s = B ∧ d = A.
Proof.
  unfold depends_on, dependencies_of, table.
  destruct (decide (s = B)) as [->|HsB].
  - rewrite lookup_insert_eq, HdepsB, list_elem_of_singleton. tauto.
  - rewrite lookup_insert_ne by done.
    destruct (decide (s = A)) as [->|HsA].
    + rewrite lookup_singleton_eq, HdepsA, elem_of_nil. tauto.
    + rewrite lookup_singleton_ne by done. rewrite elem_of_nil. tauto.
Qed.

Lemma two_services_dom s : s ∈ dom table ↔ s = A ∨ s = B.
Proof.
  unfold table. rewrite dom_insert_L, dom_singleton_L, elem_of_union,
    !elem_of_singleton. tauto.
Qed.

Lemma two_services_closed : deps_closed table.
Proof. intros s d [_ ->]%two_services_depends_on. apply two_services_dom. by left. Qed.

Lemma two_services_acyclic : acyclic table.
Proof.
  intros s Hs.
  assert (∀ x y, tc (depends_on table) x y → y = A) as Hend.
  { intros x y Hxy. induction Hxy as [x y Hxy|x y z _ _ IH]; [|done].
    by apply two_services_depends_on in Hxy as [_ ->]. }
  pose proof (Hend _ _ Hs) as ->.
  inversion Hs as [x y Hxy|x y z Hxy _]; subst;
    apply two_services_depends_on in Hxy as [? _]; by apply HAB.
Qed.

Lemma two_services_order cfg :
  services cfg = table → get_startup_order cfg = [A; B].
Proof.
  intros Hcfg.
  pose proof (get_startup_order_NoDup cfg) as Hnd.
  pose proof (get_startup_order_elem_of cfg) as Hin.
  assert (before A B (get_startup_order cfg)) as (l1 & l2 & l3 & Heq).
  { unfold get_startup_order. rewrite Hcfg.
    apply startup_order_dependencies_first.
    - apply two_services_closed.
    - apply two_services_acyclic.
    - apply two_services_dom. by right.
    - by apply two_services_depends_on. }
  rewrite Hcfg in Hin. rewrite Heq in Hnd, Hin. rewrite Heq.
  assert (∀ x, x ∈ l1 ++ l2 ++ l3 → False) as Hnone.
  { intros x Hx.
    assert (x = A ∨ x = B) as Hx'.
    { apply two_services_dom, Hin. set_solver. }
    apply NoDup_app in Hnd as (_ & H1 & Hnd).
    apply NoDup_cons in Hnd as (HA & Hnd).
    apply NoDup_app in Hnd as (_ & H2 & Hnd).
    apply NoDup_cons in Hnd as (HB & _).
    set_solver. }
  destruct l1 as [|x ?]; [|destruct (Hnone x); set_solver].
  destruct l2 as [|x ?]; [|destruct (Hnone x); set_solver].
  destruct l3 as [|x ?]; [|destruct (Hnone x); set_solver].
  done.
Qed.
End TwoServices.

Section StartupRollback.
Context {World : Type} `{Platform World}.

Lemma start_service_succeeds_not_fails mgr n (w w1 w2 : World) :
  start_succeeds mgr n w w1 → start_fails mgr n w w2 → False.
Proof.
  intros (r & Hr & Hok) (o & Ho & Hfail). rewrite Hr in Ho.
  injection Ho as <- <-. congruence.
Qed.

Lemma two_services_rollback (self : HealthMonitor World) A B cA cB w0 vr w1 w2 w3 :
  dependency_validator self w0 = (Returned vr, w1) → vr_success vr = true →
  A ≠ B → dependencies cA = [] → dependencies cB = [A] →
  services (config self) = <[B := cB]> {[A := cA]} →
  start_succeeds (service_manager self) A w1 w2 →
  start_fails (service_manager self) B w2 w3 →
  start_services self w0
  = (Returned (startup_failed [A] B), (stop_service (service_manager self) A w3).2).
Proof.
  intros Hval Hok HAB HdA HdB Hcfg HA HB.
  unfold start_services. eff_unfold. rewrite Hval, Hok. simpl.
  rewrite (two_services_order A B cA cB) by done. simpl. eff_unfold.
  rewrite (start_one_success self A [] [] w1 w2) by done. simpl.
  rewrite (start_one_failure self B [A] [] w2 w3) by done. done.
Qed.
End StartupRollback.

(** ** The startup order, as the callers see it *)

(** C3.  When every declared dependency is a configured service and the
    dependency graph has no cycle, [get_startup_order] lists every configured
    service exactly once, every service after each of its dependencies; the
    list is made of successive batches, each sorted in lexicographic order and
    holding exactly the services not yet listed whose dependencies all are;
    and [stop_all_services] stops the services in the exact reverse of that
    list. *)
Theorem startup_order_topological {World : Type} `{Platform World}
  (cfg : HealthMonitorConfig) :
  deps_closed (services cfg) → acyclic (services cfg) →
  let table := services cfg in
  let order := get_startup_order cfg in
  NoDup order
  ∧ (∀ s, s ∈ order ↔ s ∈ dom table)
  ∧ (∀ s d, s ∈ dom table → depends_on table s d → before d s order)
  ∧ (∃ batches,
       order = concat batches ∧
       ∀ pre b post, batches = pre ++ b :: post →
         StronglySorted str_le b ∧
         ∀ s, s ∈ b ↔ s ∈ dom table ∧ (s ∉ concat pre)
                      ∧ deps_met table (concat pre) s)
  ∧ (∀ w : World,
       stop_all_services (ServiceManager_init cfg) w
       = (Returned tt,
          foldl (λ w service_name,
                   (stop_service (ServiceManager_init cfg) service_name w).2)
                w (reverse order))).
Proof.
  intros Hclosed Hacyclic table order.
  split; [apply get_startup_order_NoDup|].
  split; [apply get_startup_order_elem_of|].
  split; [intros s d; by apply startup_order_dependencies_first|].
  split; [|intros w; apply stop_all_services_spec].
  destruct (startup_loop_batches table Hclosed Hacyclic [] (dom table)
              (loop_state_init table)) as (batches & Heq & Hb).
  exists batches. split; [done|]. apply Hb.
Qed.

(** C4.  For every service table, cyclic or with missing dependencies or
    not, [get_startup_order] is a total function, and its result is a
    rearrangement of the configured names, each exactly once.  The result is
    the concatenation of the batches of the rounds of its loop, of which
    there are at most as many as services.  Every batch is not empty, is
    sorted in lexicographic order, and is what a round selects from the
    names that the batches before it left, however that set is enumerated.
    When one of the names left has all its dependencies listed before the
    batch, the batch holds exactly the names left that do; when none has, the
    batch is all the names left in lexicographic order, and it is the last
    one.  The same holds of the loop in any state: every round orders at
    least one more service, selects the same batch however the remaining
    names are enumerated, and ends the loop by appending all of them in
    lexicographic order when none has its dependencies ordered. *)
Theorem startup_order_total (cfg : HealthMonitorConfig) :
  let table := services cfg in
  let order := get_startup_order cfg in
  order ≡ₚ elements (dom table)
  ∧ NoDup order
  ∧ (∀ s, s ∈ order ↔ s ∈ dom table)
  ∧ (∃ batches,
       order = concat batches
       ∧ (length batches ≤ size (dom table))%nat
       ∧ ∀ pre b post, batches = pre ++ b :: post →
           b ≠ [] ∧ StronglySorted str_le b
           ∧ (∀ enumeration,
                enumeration ≡ₚ elements (dom table ∖ list_to_set (concat pre)) →
                b = select_ready table (concat pre) enumeration)
           ∧ ((∃ s0, s0 ∈ dom table ∧ (s0 ∉ concat pre)
                     ∧ deps_met table (concat pre) s0) →
              ∀ s, s ∈ b ↔ s ∈ dom table ∧ (s ∉ concat pre)
                           ∧ deps_met table (concat pre) s)
           ∧ ((∀ s, s ∈ dom table → s ∉ concat pre →
                    ¬ deps_met table (concat pre) s) →
              b = sort_strings (elements (dom table ∖ list_to_set (concat pre)))
              ∧ (∀ s, s ∈ b ↔ s ∈ dom table ∧ s ∉ concat pre)
              ∧ post = []))
  ∧ (∀ ordered (remaining : gset string),
       remaining ≠ ∅ →
       (size (remaining
              ∖ list_to_set (select_ready table ordered (elements remaining)))
        < size remaining)%nat)
  ∧ (∀ ordered (remaining : gset string) enumeration,
       enumeration ≡ₚ elements remaining →
       select_ready table ordered enumeration
       = select_ready table ordered (elements remaining))
  ∧ (∀ ordered (remaining : gset string),
       (∀ s, s ∈ remaining → ¬ deps_met table ordered s) →
       startup_loop table ordered remaining
       = ordered ++ sort_strings (elements remaining)
       ∧ StronglySorted str_le (sort_strings (elements remaining))
       ∧ sort_strings (elements remaining) ≡ₚ elements remaining).
Proof.
  intros table order.
  split; [apply get_startup_order_perm|].
  split; [apply get_startup_order_NoDup|].
  split; [apply get_startup_order_elem_of|].
  split.
  { destruct (startup_loop_rounds_any table [] (dom table))
      as (batches & Heq & Hb).
    simpl in Heq. exists batches. split; [exact Heq|]. split.
    - assert (length (concat batches) = size (dom table)) as <-.
      { rewrite <- Heq, startup_loop_perm. reflexivity. }
      apply concat_length_ge, Forall_forall. intros b Hin.
      apply list_elem_of_split in Hin as (pre & post & ->).
      by destruct (Hb pre b post eq_refl).
    - intros pre b post Hsplit.
      destruct (Hb pre b post Hsplit) as [Hnonempty Hsel]. simpl in Hsel.
      set (rest := dom table ∖ list_to_set (concat pre)) in *.
      assert (∀ s, s ∈ elements rest ↔ s ∈ dom table ∧ s ∉ concat pre) as Hrest.
      { intros s. unfold rest.
        by rewrite elem_of_elements, elem_of_difference, elem_of_list_to_set. }
      split; [done|]. split; [rewrite Hsel; apply select_ready_sorted|].
      split; [|split].
      + intros enumeration Hperm. rewrite Hsel. symmetry.
        by apply select_ready_enumeration.
      + intros (s0 & Hdom & Hnew & Hmet) s.
        rewrite Hsel, (select_ready_some table (concat pre) _ s0), Hrest;
          [tauto| |done].
        by apply Hrest.
      + intros Hnone.
        assert (b = sort_strings (elements rest)) as Hall.
        { rewrite Hsel. apply select_ready_none. intros s Hs.
          apply Hrest in Hs as [Hdom Hnew]. by apply Hnone. }
        split; [done|].
        split; [intros s; by rewrite Hall, sort_strings_elem_of, Hrest|].
        destruct post as [|b' post]; [done|]. exfalso.
        destruct (Hb (pre ++ [b]) b' post) as [Hnonempty' Hsel'].
        { by rewrite <- app_assoc. }
        apply Hnonempty'. destruct b' as [|x b']; [done|]. exfalso.
        assert (x ∈ select_ready table ([] ++ concat (pre ++ [b]))
                      (elements (dom table ∖ list_to_set (concat (pre ++ [b])))))
          as Hx by (rewrite <- Hsel'; left).
        apply select_ready_elements_subset in Hx.
        rewrite concat_app in Hx. simpl in Hx. rewrite app_nil_r in Hx.
        apply elem_of_difference in Hx as [Hdom Hx].
        apply Hx. rewrite elem_of_list_to_set, elem_of_app.
        destruct (decide (x ∈ concat pre)) as [|Hnew]; [by left|right].
        rewrite Hall, sort_strings_elem_of. by apply Hrest. }
  split; [intros ordered remaining; apply startup_loop_progress|].
  split; [intros ordered remaining enumeration; apply select_ready_enumeration|].
  intros ordered remaining Hnone.
  split; [by apply startup_loop_fallback|].
  split; [apply sort_strings_sorted|apply sort_strings_perm].
Qed.

(** ** The result of the coordinated startup *)

(** C1.  When dependency validation succeeds, [start_services] starts the
    services in [get_startup_order] order.  Either every start succeeds and
    the result is a success listing them all; or there is a first service
    whose start fails (by a failure result or by an exception), the services
    started before it are stopped in reverse order before the call returns,
    and the result is a failure naming those as started and that one as
    failed.  In particular, with a service [A] without dependencies and a
    service [B] depending on [A], when [A] starts and [B] fails the result
    names [A] as started and [B] as failed, and the call ends by stopping
    [A]. *)
Theorem start_services_rolls_back {World : Type} `{Platform World}
  (self : HealthMonitor World) (w0 w1 : World) (vr : ValidationResult) :
  dependency_validator self w0 = (Returned vr, w1) → vr_success vr = true →
  let mgr := service_manager self in
  let order := get_startup_order (config self) in
  ((∃ w2, starts_all mgr order w1 w2 ∧
          start_services self w0
          = (Returned {| sr_success := true;
                         sr_message := "All services started successfully";
                         failed_services := []; started_services := order |}, w2))
   ∨ (∃ pre f post w2 w3,
        order = pre ++ f :: post ∧ starts_all mgr pre w1 w2 ∧ start_fails mgr f w2 w3 ∧
        start_services self w0
        = (Returned {| sr_success := false;
                       sr_message := "Failed to start: " +:+ f;
                       failed_services := [f]; started_services := pre |},
           foldl (λ w service_name, (stop_service mgr service_name w).2) w3
                 (reverse pre))))
  ∧ (∀ A B cA cB w2 w3,
       A ≠ B → dependencies cA = [] → dependencies cB = [A] →
       services (config self) = <[B := cB]> {[A := cA]} →
       start_succeeds mgr A w1 w2 → start_fails mgr B w2 w3 →
       start_services self w0
       = (Returned {| sr_success := false;
                      sr_message := "Failed to start: " +:+ B;
                      failed_services := [B]; started_services := [A] |},
          (stop_service mgr A w3).2)).
Proof.
  intros Hval Hok mgr order. split.
  - apply (start_services_spec self w0 vr w1 Hval Hok).
  - intros A B cA cB w2 w3 HAB HdA HdB Hcfg HA HB.
    by apply (two_services_rollback self A B cA cB w0 vr w1 w2 w3).
Qed.

(** C10.  When dependency validation succeeds, [start_services] returns a
    result in which the started names followed by the failed names are a
    prefix of the startup order, no name is both started and failed, at most
    one name is failed, and the success flag is set exactly when no name is
    failed. *)
Theorem start_services_result_shape {World : Type} `{Platform World}
  (self : HealthMonitor World) (w0 w1 : World) (vr : ValidationResult) :
  dependency_validator self w0 = (Returned vr, w1) → vr_success vr = true →
  ∃ r w', start_services self w0 = (Returned r, w')
    ∧ (started_services r ++ failed_services r)
        `prefix_of` get_startup_order (config self)
    ∧ (∀ s, s ∈ started_services r → s ∉ failed_services r)
    ∧ (length (failed_services r) ≤ 1)%nat
    ∧ (sr_success r = true ↔ failed_services r = []).
Proof.
  intros Hval Hok.
  destruct (start_services_spec self w0 vr w1 Hval Hok) as [(w2 & _ & Heq)|
    (pre & f & post & w2 & w3 & Hsplit & _ & _ & Heq)].
  - eexists _, _. split; [exact Heq|]. simpl. rewrite app_nil_r.
    split; [done|]. split; [intros s _; apply not_elem_of_nil|]. split; [lia|done].
  - eexists _, _. split; [exact Heq|]. simpl.
    split; [rewrite Hsplit; apply prefix_app; by exists post|].
    split; [|split; [lia|done]].
    intros s Hs ->%list_elem_of_singleton.
    pose proof (get_startup_order_NoDup (config self)) as Hnd.
    rewrite Hsplit in Hnd. apply NoDup_app in Hnd as (_ & Hnd & _).
    apply (Hnd f Hs). left.
Qed.

(** ** Overall status *)

Lemma filter_nil_iff {A} (P : A → Prop) `{∀ x, Decision (P x)} (l : list A) :
  filter P l = [] ↔ ∀ x, x ∈ l → ¬ P x.
Proof.
  split.
  - intros Hnil x Hx HP.
    assert (x ∈ filter P l) as Hin by by apply list_elem_of_filter.
    rewrite Hnil in Hin. by apply elem_of_nil in Hin.
  - intros Hall. destruct (filter P l) as [|x f] eqn:E; [done|].
    assert (x ∈ filter P l) as Hin by (rewrite E; left).
    apply list_elem_of_filter in Hin as [HP Hx]. by destruct (Hall x).
Qed.

Lemma filter_length_lt_iff {A} (P : A → Prop) `{∀ x, Decision (P x)} (l : list A) :
  (length (filter P l) < length l)%nat ↔ ∃ x, x ∈ l ∧ ¬ P x.
Proof.
  induction l as [|a l IH].
  - simpl. split; [lia|]. intros (x & Hx & _). by apply elem_of_nil in Hx.
  - pose proof (length_filter P l) as Hle.
    rewrite filter_cons. destruct (decide (P a)) as [HP|HP]; simpl.
    + rewrite <- Nat.succ_lt_mono, IH. split.
      * intros (x & Hx & Hn). exists x. split; [by right|done].
      * intros (x & [->|Hx]%elem_of_cons & Hn); [done|]. by exists x.
    + split; [|lia]. intros _. exists a. split; [left|done].
Qed.

Lemma any_issue_filter_nil sev issues :
  filter (λ i, severity i = sev) issues = [] → ¬ any_issue sev issues.
Proof.
  rewrite filter_nil_iff. intros Hall (i & Hi & Hs). by apply (Hall i).
Qed.

Lemma any_issue_filter_cons sev issues x xs :
  filter (λ i, severity i = sev) issues = x :: xs → any_issue sev issues.
Proof.
  intros E. exists x.
  assert (x ∈ filter (λ i, severity i = sev) issues) as Hx by (rewrite E; left).
  apply list_elem_of_filter in Hx. tauto.
Qed.

Lemma none_running_filter (service_health : gmap string ServiceHealth) :
  length (filter (λ kv : string * ServiceHealth, sh_status kv.2 = RUNNING)
                 (map_to_list service_health)) = 0%nat
  ↔ none_running service_health.
Proof.
  rewrite length_zero_iff_nil, filter_nil_iff. unfold none_running. split.
  - intros Hall n h Hl. apply (Hall (n, h)). by apply elem_of_map_to_list.
  - intros Hnone [n h] Hin. apply (Hnone n h). by apply elem_of_map_to_list.
Qed.

Lemma all_running_filter (service_health : gmap string ServiceHealth) :
  ¬ (length (filter (λ kv : string * ServiceHealth, sh_status kv.2 = RUNNING)
                    (map_to_list service_health)) < size service_health)%nat
  ↔ all_running service_health.
Proof.
  rewrite <- length_map_to_list, filter_length_lt_iff. unfold all_running. split.
  - intros Hn n h Hl. destruct (decide (sh_status h = RUNNING)) as [|Hne]; [done|].
    destruct Hn. exists (n, h). split; [by apply elem_of_map_to_list|done].
  - intros Hall ([n h] & Hin & Hne). apply Hne, (Hall n h).
    by apply elem_of_map_to_list.
Qed.

(** C2.  The overall status follows a strict precedence: a critical issue
    gives [UNHEALTHY]; otherwise no running service gives [UNHEALTHY];
    otherwise a service that is not running gives [DEGRADED]; otherwise a
    warning gives [DEGRADED]; otherwise the status is [HEALTHY]. *)
Theorem overall_status_precedence (service_health : gmap string ServiceHealth)
  (dependency_status : DependencyStatus) (issues : list Issue) :
  let status := _determine_overall_status service_health dependency_status issues in
  (any_issue CRITICAL issues → status = UNHEALTHY)
  ∧ (¬ any_issue CRITICAL issues → none_running service_health →
     status = UNHEALTHY)
  ∧ (¬ any_issue CRITICAL issues → ¬ none_running service_health →
     ¬ all_running service_health → status = DEGRADED)
  ∧ (¬ any_issue CRITICAL issues → ¬ none_running service_health →
     all_running service_health → any_issue WARNING issues → status = DEGRADED)
  ∧ (¬ any_issue CRITICAL issues → ¬ none_running service_health →
     all_running service_health → ¬ any_issue WARNING issues → status = HEALTHY).
Proof.
  intros status. subst status. unfold _determine_overall_status.
  pose proof (none_running_filter service_health) as Hnone.
  pose proof (all_running_filter service_health) as Hall.
  destruct (filter (λ i, severity i = CRITICAL) issues) as [|c cs] eqn:Ec.
  - apply any_issue_filter_nil in Ec.
    destruct (decide (_ = 0%nat)) as [H0|H0].
    + apply Hnone in H0. repeat split; try done; intros; tauto.
    + assert (¬ none_running service_health) as Hsome
        by (intros Hn; by apply Hnone in Hn).
      destruct (decide (_ < _)%nat) as [Hlt|Hlt].
      * assert (¬ all_running service_health) as Hnall
          by (intros Ha; by apply Hall in Ha).
        repeat split; try done; intros; tauto.
      * apply Hall in Hlt.
        destruct (filter (λ i, severity i = WARNING) issues) as [|x xs] eqn:Ew.
        -- apply any_issue_filter_nil in Ew. repeat split; try done; intros; tauto.
        -- apply any_issue_filter_cons in Ew. repeat split; try done; intros; tauto.
  - apply any_issue_filter_cons in Ec. repeat split; try done; intros; tauto.
Qed.

(** ** The credential check *)

Lemma check_api_keys_with_raises (keys : APIProvider → option APIKeyInfo) :
  check_api_keys_with keys = Raised (unexpected_keyword "api_keys_ok").
Proof.
  unfold check_api_keys_with.
  destruct (classify_providers keys _ [] []) as [available missing].
  by destruct available.
Qed.

(** With the validator of the package, validation never returns. *)
Lemma validate_all_dependencies_raises {World : Type} `{Platform World} (w : World) :
  ∃ w', validate_all_dependencies w = (Raised (unexpected_keyword "api_keys_ok"), w').
Proof.
  unfold validate_all_dependencies, check_api_keys. eff_unfold.
  destruct (check_python_deps w) as [p w1], (check_node_deps w1) as [n w2],
    (load_api_keys w2) as [keys w3].
  rewrite check_api_keys_with_raises. by eexists.
Qed.

(** C7.  With a valid OpenAI key and no other key, and in fact whatever keys
    are stored, [check_api_keys] ends in the [TypeError] of a
    [DependencyStatus] constructed with the keyword [api_keys_ok], which is
    not one of its fields: no status is returned, with or without a valid
    key. *)
Theorem check_api_keys_raises :
  check_api_keys_with only_openai_valid
  = Raised (TypeError "__init__() got an unexpected keyword argument 'api_keys_ok'")
  ∧ ∀ keys : APIProvider → option APIKeyInfo,
      check_api_keys_with keys
      = Raised (TypeError "__init__() got an unexpected keyword argument 'api_keys_ok'").
Proof. split; [|intros keys]; apply check_api_keys_with_raises. Qed.

(** ** Unregistered services *)

Section Unregistered.
Context {World : Type} `{Platform World}.

Lemma start_service_unknown mgr service_name (w : World) :
  _controllers mgr !! service_name = None →
  start_service mgr service_name w
  = (Returned (unknown_service_result service_name), w).
Proof. intros Hn. unfold start_service. by rewrite Hn. Qed.

Lemma stop_service_unknown mgr service_name (w : World) :
  _controllers mgr !! service_name = None →
  stop_service mgr service_name w
  = (Returned (unknown_service_result service_name), w).
Proof. intros Hn. unfold stop_service. by rewrite Hn. Qed.

(** A name that is configured nowhere: the lookup of its configuration
    raises before the error entry is built. *)
Lemma check_service_health_unknown mgr service_name (w : World) :
  _controllers mgr !! service_name = None →
  services (sm_config mgr) !! service_name = None →
  check_service_health mgr service_name w
  = (Raised (ValueError ("Unknown service: " +:+ service_name)), w).
Proof.
  intros Hn Hc. unfold check_service_health, get_service_config.
  rewrite Hn, Hc. done.
Qed.
End Unregistered.

(** C5.  For the name [database], which the default table does not
    configure, [start_service] and [stop_service] return the failure result
    naming it, but [check_service_health] raises [ValueError] instead of
    returning an [ERROR] entry. *)
Theorem unknown_service_health_check_raises {World : Type} `{Platform World}
  (base_dir frontend_dir : string) (w : World) :
  let mgr := ServiceManager_init (HealthMonitorConfig_init base_dir frontend_dir) in
  _controllers mgr !! "database" = None
  ∧ start_service mgr "database" w
    = (Returned {| sr_success := false; sr_message := "Unknown service: database";
                   failed_services := ["database"]; started_services := [] |}, w)
  ∧ stop_service mgr "database" w
    = (Returned {| sr_success := false; sr_message := "Unknown service: database";
                   failed_services := ["database"]; started_services := [] |}, w)
  ∧ check_service_health mgr "database" w
    = (Raised (ValueError "Unknown service: database"), w).
Proof.
  intros mgr.
  assert (_controllers mgr !! "database" = None) as Hn by reflexivity.
  split; [done|].
  split; [by apply start_service_unknown|].
  split; [by apply stop_service_unknown|].
  by apply check_service_health_unknown.
Qed.

(** ** Health of a registered service *)

Section ServiceHealth.
Context {World : Type} `{Platform World}.

Lemma _initialize_controllers_Some cfg service_name c :
  services cfg !! service_name = Some c →
  _initialize_controllers cfg !! service_name
  = Some {| ctl_kind := controller_class service_name; ctl_config := c |}.
Proof.
  intros Hc. unfold _initialize_controllers. by rewrite map_lookup_imap, Hc.
Qed.

Lemma is_running_returns service_name controller (w : World) :
  ∃ b w', is_running service_name controller w = (Returned b, w').
Proof.
  unfold is_running.
  destruct (ctl_kind controller); try (by eexists _, _);
    (destruct (process service_name w); [|by eexists _, _]);
    eff_unfold; destruct (poll service_name w) as [[code|e] w']; by eexists _, _.
Qed.

Lemma get_resource_usage_returns service_name controller (w : World) :
  ∃ u w', get_resource_usage service_name controller w = (Returned u, w').
Proof.
  unfold get_resource_usage. destruct (process service_name w); [|by eexists _, _].
  eff_unfold.
  destruct (is_running_returns service_name controller w) as (b & w' & ->).
  destruct b; [|by eexists _, _].
  destruct (psutil_sample z w'). by eexists _, _.
Qed.

Lemma get_uptime_returns service_name (w : World) :
  ∃ u w', get_uptime service_name w = (Returned u, w').
Proof.
  unfold get_uptime. destruct (start_time service_name w); [|by eexists _, _].
  eff_unfold. destruct (datetime_now w). by eexists _, _.
Qed.

Lemma get_process_id_returns service_name controller (w : World) :
  ∃ p w', get_process_id service_name controller w = (Returned p, w').
Proof.
  unfold get_process_id. destruct (process service_name w); [|by eexists _, _].
  eff_unfold.
  destruct (is_running_returns service_name controller w) as (b & w' & ->).
  by eexists _, _.
Qed.

(** Runs the calls that follow the probes in [check_service_health]. *)
Ltac health_tail :=
  match goal with
  | |- context [time_time ?w] => destruct (time_time w) as [? ?]
  end;
  match goal with
  | |- context [get_resource_usage ?n ?c ?w] =>
      destruct (get_resource_usage_returns n c w) as (? & ? & ->)
  end;
  match goal with
  | |- context [get_uptime ?n ?w] =>
      destruct (get_uptime_returns n w) as (? & ? & ->)
  end;
  match goal with
  | |- context [datetime_now ?w] => destruct (datetime_now w) as [? ?]
  end;
  match goal with
  | |- context [get_process_id ?n ?c ?w] =>
      destruct (get_process_id_returns n c w) as (? & ? & ->)
  end.

(** The entry computed for a registered service, and where its status
    comes from. *)
Lemma check_service_health_registered mgr service_name controller c
  (w w1 w2 w3 : World) running port_open t :
  _controllers mgr !! service_name = Some controller →
  services (sm_config mgr) !! service_name = Some c →
  is_running service_name controller w = (Returned running, w1) →
  is_port_open (port c) w1 = (port_open, w2) →
  time_time w2 = (t, w3) →
  ∃ h w', check_service_health mgr service_name w = (Returned h, w') ∧
    sh_name h = service_name ∧
    (sh_status h = RUNNING
     ↔ port_open = true ∧ (_check_health controller w3).1 = Returned true).
Proof.
  intros Hctl Hcfg Hrun Hport Htime.
  unfold check_service_health, get_service_config. rewrite Hctl, Hcfg.
  eff_unfold. rewrite Hrun, Hport, Htime.
  destruct port_open.
  - destruct (_check_health controller w3) as [[healthy|e] w4] eqn:Ehealth; simpl.
    + health_tail. eexists _, _. split; [done|]. split; [done|]. simpl.
      destruct healthy; simpl; split; try done; intros [_ ?]; done.
    + health_tail. eexists _, _. split; [done|]. split; [done|]. simpl.
      split; [done|]. intros [_ ?]; done.
  - destruct running.
    + health_tail. eexists _, _. split; [done|]. split; [done|]. simpl.
      split; [done|]. intros [? _]; done.
    + health_tail. eexists _, _. split; [done|]. split; [done|]. simpl.
      split; [done|]. intros [? _]; done.
Qed.
End ServiceHealth.

(** C9.  For a service of the table the manager was built from, the entry
    computed by [check_service_health] has status [RUNNING] exactly when the
    port probe succeeds and the readiness probe returns true, whatever
    [is_running] answered: a service whose controller owns no process is
    reported as running when both probes succeed. *)
Theorem health_running_iff_probes {World : Type} `{Platform World}
  (cfg : HealthMonitorConfig) (service_name : string) (c : ServiceConfig)
  (w w1 w2 w3 : World) (running port_open : bool) (t : Z) :
  services cfg !! service_name = Some c →
  let mgr := ServiceManager_init cfg in
  let controller := {| ctl_kind := controller_class service_name; ctl_config := c |} in
  is_running service_name controller w = (Returned running, w1) →
  is_port_open (port c) w1 = (port_open, w2) →
  time_time w2 = (t, w3) →
  _controllers mgr !! service_name = Some controller
  ∧ ∃ h w', check_service_health mgr service_name w = (Returned h, w')
      ∧ (sh_status h = RUNNING
         ↔ port_open = true ∧ (_check_health controller w3).1 = Returned true).
Proof.
  intros Hc mgr controller Hrun Hport Htime.
  pose proof (_initialize_controllers_Some cfg service_name c Hc) as Hctl.
  split; [done|].
  destruct (check_service_health_registered mgr service_name controller c
              w w1 w2 w3 running port_open t Hctl Hc Hrun Hport Htime)
    as (h & w' & Heq & _ & Hstatus).
  by exists h, w'.
Qed.

(** ** The health sweep *)

Section Sweep.
Context {World : Type} `{Platform World}.

(** A check that raises is turned into an [ERROR] entry; one that returns
    is passed on unchanged. *)
Lemma check_one_returns (self : HealthMonitor World) service_name c (w : World) :
  services (config self) !! service_name = Some c →
  ∃ h w', check_one self service_name w = (Returned h, w') ∧
    match check_service_health (service_manager self) service_name w with
    | (Returned h0, _) => h = h0
    | (Raised e, w1) => h = error_health service_name c e (datetime_now w1).1
    end.
Proof.
  intros Hc. unfold check_one, get_service_config. eff_unfold. rewrite Hc.
  destruct (check_service_health (service_manager self) service_name w)
    as [[h0|e] w1]; [by eexists _, _|].
  destruct (datetime_now w1) as [now w2]. by eexists _, _.
Qed.

Lemma check_services_cons (self : HealthMonitor World) n names acc (w : World) :
  check_services self (n :: names) acc w
  = match check_one self n w with
    | (Returned h, w') => check_services self names (<[n := h]> acc) w'
    | (Raised e, w') => (Raised e, w')
    end.
Proof. reflexivity. Qed.

Lemma check_services_spec (self : HealthMonitor World) names : ∀ acc (w : World),
  NoDup names →
  (∀ n, n ∈ names → n ∈ dom (services (config self))) →
  ∃ m, check_services self names acc w = (Returned m, after_checks self names w)
    ∧ (∀ n, n ∉ names → m !! n = acc !! n)
    ∧ (∀ pre X post, names = pre ++ X :: post →
         ∃ h w', check_one self X (after_checks self pre w) = (Returned h, w')
                 ∧ m !! X = Some h).
Proof.
  induction names as [|n names IH]; intros acc w Hnd Hdom.
  - exists acc. split; [done|]. split; [done|]. intros pre X post Heq.
    by destruct pre.
  - apply NoDup_cons in Hnd as [Hn Hnd].
    assert (n ∈ dom (services (config self))) as [c Hc]%elem_of_dom
      by (apply Hdom; left).
    destruct (check_one_returns self n c w Hc) as (h & w' & Hone & _).
    destruct (IH (<[n := h]> acc) w' Hnd) as (m & Heq & Hout & Hin).
    { intros n' Hn'. apply Hdom. by right. }
    exists m. split; [|split].
    + rewrite check_services_cons, Hone, Heq. unfold after_checks. cbn [foldl]. by rewrite Hone.
    + intros n' Hn'. apply not_elem_of_cons in Hn' as [Hne Hn'].
      rewrite Hout by done. by rewrite lookup_insert_ne.
    + intros pre X post Hsplit. destruct pre as [|p pre]; simplify_eq/=.
      * exists h, w'. split; [done|]. rewrite Hout by done.
        by rewrite lookup_insert_eq.
      * destruct (Hin pre X post eq_refl) as (hX & wX & HX & Hm).
        exists hX, wX. split; [|done]. unfold after_checks in *. cbn [foldl]. by rewrite Hone.
Qed.
End Sweep.

(** C8.  [_check_all_services] never raises and returns an entry for every
    configured service.  The entry of a service is what its own health check
    returned in the world in which it ran; when that check raised, the entry
    is an [ERROR] entry carrying the message of the exception.  The snapshot
    of [check_system_health] holds exactly these entries. *)
Theorem sweep_isolation {World : Type} `{Platform World}
  (self : HealthMonitor World) (w : World) :
  ∃ m w', _check_all_services self w = (Returned m, w')
    ∧ dom m = dom (services (config self))
    ∧ (∀ X, X ∈ dom (services (config self)) →
         ∃ pre post,
           get_all_services (config self) = pre ++ X :: post ∧
           match check_service_health (service_manager self) X
                   (after_checks self pre w) with
           | (Returned h, _) => m !! X = Some h
           | (Raised e, w1) =>
               ∃ c h, services (config self) !! X = Some c ∧ m !! X = Some h
                      ∧ sh_name h = X ∧ sh_status h = ERROR
                      ∧ sh_error_message h = Some (exc_str e)
                      ∧ h = error_health X c e (datetime_now w1).1
           end)
    ∧ (∀ vr keys w1 w2,
         dependency_validator self w' = (Returned vr, w1) →
         api_key_manager self w1 = (Returned keys, w2) →
         ∃ snapshot self' w3,
           check_system_health self w = (Returned (snapshot, self'), w3)
           ∧ hs_services snapshot = m
           ∧ _cached_status self' = Some snapshot).
Proof.
  destruct (check_services_spec self (get_all_services (config self)) ∅ w)
    as (m & Heq & Hout & Hin).
  { unfold get_all_services. apply NoDup_elements. }
  { unfold get_all_services. intros n Hn. by apply elem_of_elements in Hn. }
  exists m, (after_checks self (get_all_services (config self)) w).
  split; [exact Heq|].
  assert (∀ X, X ∈ dom (services (config self)) →
            ∃ pre post, get_all_services (config self) = pre ++ X :: post) as Hsplit.
  { intros X HX. apply list_elem_of_split. unfold get_all_services.
    by apply elem_of_elements. }
  split; [|split].
  - apply leibniz_equiv. intros X. rewrite !elem_of_dom. split.
    + intros HmX. destruct (decide (X ∈ get_all_services (config self))) as [Hx|Hx].
      * apply elem_of_dom. unfold get_all_services in Hx.
        by apply elem_of_elements in Hx.
      * rewrite Hout in HmX by done. rewrite lookup_empty in HmX.
        by destruct HmX.
    + intros HX%elem_of_dom. destruct (Hsplit X HX) as (pre & post & Hpp).
      destruct (Hin pre X post Hpp) as (h & wX & _ & Hm). by exists h.
  - intros X HX. destruct (Hsplit X HX) as (pre & post & Hpp).
    exists pre, post. split; [done|].
    destruct (Hin pre X post Hpp) as (h & wX & Hone & Hm).
    apply elem_of_dom in HX as [c Hc].
    destruct (check_one_returns self X c (after_checks self pre w) Hc)
      as (h' & w'' & Hone' & Hmatch).
    rewrite Hone in Hone'. injection Hone' as <- <-.
    destruct (check_service_health (service_manager self) X
                (after_checks self pre w)) as [[h0|e] w1].
    + by subst.
    + exists c, h. by subst.
  - intros vr keys w1 w2 Hval Hkeys.
    unfold check_system_health, _check_all_services. eff_unfold.
    rewrite Heq, Hval, Hkeys.
    destruct (datetime_now w2) as [t1 w3], (datetime_now w3) as [t2 w4].
    by eexists _, _, _.
Qed.

(** ** The cached snapshot *)

Section Cache.
Context {World : Type} `{Platform World}.

(** The cache is served whenever the seconds field of the age is at most
    60, whatever its days field. *)
Lemma get_system_status_cached (self : HealthMonitor World) cached last now
  (w w1 : World) :
  _cached_status self = Some cached →
  _last_health_check self = Some last →
  datetime_now w = (now, w1) →
  td_seconds (now - last) ≤ 60 →
  ∃ status w2, get_system_status self w = (Returned (status, self), w2)
               ∧ health status = cached.
Proof.
  intros Hc Hl Hnow Hage. unfold get_system_status. rewrite Hc, Hl.
  eff_unfold. rewrite Hnow. rewrite decide_False by lia. rewrite Hl.
  destruct (datetime_now w1) as [now' w2]. by eexists _, _.
Qed.
End Cache.

(** C6.  A snapshot taken one day and ten seconds ago is returned from the
    cache: [get_system_status] compares the seconds field of the age, which
    is 10, and not the age, which is 86410 seconds. *)
Theorem stale_snapshot_served :
  let last := 0 in
  let now := 86410 * 1000000 in
  let self := sim_monitor (Returned validation_ok) (Some last) (Some stale_snapshot) in
  let w := sim_world now [] (Returned 200) [] in
  now - last > 60 * 1000000
  ∧ td_days (now - last) = 1 ∧ td_seconds (now - last) = 10
  ∧ ∃ status w', get_system_status self w = (Returned (status, self), w')
                 ∧ health status = stale_snapshot
                 ∧ hs_last_check (health status) = last.
Proof.
  intros last now self w.
  split; [reflexivity|]. split; [by vm_compute|]. split; [by vm_compute|].
  destruct (get_system_status_cached self stale_snapshot last now w w)
    as (status & w' & Heq & Hhealth);
    [reflexivity | reflexivity | reflexivity | by vm_compute |].
  exists status, w'. split; [exact Heq|]. split; [exact Hhealth|].
  rewrite Hhealth. reflexivity.
Qed.

(** ** Scenarios on the scripted platform *)

(** The default table: [frontend] depends on [backend], which depends on
    nothing. *)
Lemma default_table_well_formed :
  deps_closed (services default_config) ∧ acyclic (services default_config).
Proof.
  split.
  - eapply (two_services_closed "backend" "frontend"); [done|reflexivity..].
  - eapply (two_services_acyclic "backend" "frontend"); [done|reflexivity..].
Qed.

Lemma startup_order_topological_witness :
  deps_closed (services default_config)
  ∧ acyclic (services default_config)
  ∧ before "backend" "frontend" (get_startup_order default_config).
Proof.
  destruct default_table_well_formed as [Hclosed Hacyclic].
  split; [exact Hclosed|]. split; [exact Hacyclic|].
  destruct (startup_order_topological (World := SimWorld) default_config
              Hclosed Hacyclic) as (_ & _ & Hdeps & _).
  apply Hdeps.
  - vm_compute. reflexivity.
  - unfold depends_on. vm_compute. left.
Defined.

Lemma start_services_rolls_back_witness :
  let self := sim_monitor (Returned validation_ok) None None in
  let w0 := sim_world 0 [] (Returned 200) ["backend"] in
  dependency_validator self w0 = (Returned validation_ok, w0)
  ∧ vr_success validation_ok = true
  ∧ ∃ w', start_services self w0
          = (Returned {| sr_success := false;
                         sr_message := "Failed to start: frontend";
                         failed_services := ["frontend"];
                         started_services := ["backend"] |}, w')
          ∧ sim_owned w' = []
          ∧ sim_log w' = ["start backend"; "start frontend"; "stop backend"].
Proof.
  intros self w0. split; [reflexivity|]. split; [reflexivity|].
  destruct (start_services_rolls_back self w0 w0 validation_ok eq_refl eq_refl)
    as [_ Hparticular].
  eexists. split.
  - eapply (Hparticular "backend" "frontend"); cycle 3.
    + reflexivity.
    + eexists. split; reflexivity.
    + eexists. split; reflexivity.
    + done.
    + reflexivity.
    + reflexivity.
  - split; reflexivity.
Defined.

Lemma start_services_result_shape_witness :
  let self := sim_monitor (Returned validation_ok) None None in
  let w0 := sim_world 0 [] (Returned 200) ["backend"] in
  dependency_validator self w0 = (Returned validation_ok, w0)
  ∧ vr_success validation_ok = true
  ∧ ∃ r w', start_services self w0 = (Returned r, w')
      ∧ (started_services r ++ failed_services r)
          `prefix_of` get_startup_order (config self)
      ∧ (∀ s, s ∈ started_services r → s ∉ failed_services r)
      ∧ (length (failed_services r) ≤ 1)%nat
      ∧ (sr_success r = true ↔ failed_services r = []).
Proof.
  intros self w0. split; [reflexivity|]. split; [reflexivity|].
  exact (start_services_result_shape self w0 w0 validation_ok eq_refl eq_refl).
Defined.

(** The cycle is ordered after the independent service, in lexicographic
    order; the dangling dependency does not prevent an order. *)
Example cyclic_table_order :
  get_startup_order (with_services cyclic_table) = ["c"; "a"; "b"].
Proof. by vm_compute. Qed.

Example dangling_table_order :
  get_startup_order (with_services dangling_table) = ["api"; "web"].
Proof. by vm_compute. Qed.

(** The truth table of the overall status on two services. *)
Example overall_status_truth_table :
  let status sh := _determine_overall_status sh DependencyStatus_default
                     (_collect_issues sh DependencyStatus_default) in
  status (two_entries RUNNING RUNNING) = HEALTHY
  ∧ status (two_entries RUNNING STOPPED) = DEGRADED
  ∧ status (two_entries STOPPED STOPPED) = UNHEALTHY
  ∧ status (two_entries RUNNING ERROR) = UNHEALTHY
  ∧ status (two_entries RUNNING STARTING) = DEGRADED.
Proof. by vm_compute. Qed.

(** A sweep in which nothing answers: both services are listed as stopped. *)
Example sweep_of_stopped_services :
  ∃ m w', _check_all_services (sim_monitor (Returned validation_ok) None None)
            (sim_world 0 [] (Returned 200) []) = (Returned m, w')
          ∧ sh_status <$> m !! "backend" = Some STOPPED
          ∧ sh_status <$> m !! "frontend" = Some STOPPED.
Proof. eexists _, _. split; [by vm_compute|]. by vm_compute. Qed.

(** The backend answers on its port and to the probe, but was started by
    someone else: the controller owns no process. *)
Lemma health_running_iff_probes_witness :
  let w := sim_world 0 [8000] (Returned 200) [] in
  let c := {| name := "backend"; port := 8000; health_endpoint := "/health";
              startup_command := "uvicorn";
              startup_args := ["main:app"; "--host"; "0.0.0.0"; "--port";
                               "8000"; "--reload"];
              working_directory := "/srv/backend-ai";
              environment_vars := ∅; dependencies := [];
              startup_timeout := 45; health_check_timeout := 10 |} in
  let controller := {| ctl_kind := BackendController; ctl_config := c |} in
  services default_config !! "backend" = Some c
  ∧ is_running "backend" controller w = (Returned false, w)
  ∧ is_port_open (port c) w = (true, w)
  ∧ time_time w = (0, w)
  ∧ ∃ h w', check_service_health (ServiceManager_init default_config) "backend" w
            = (Returned h, w')
            ∧ sh_status h = RUNNING ∧ sh_process_id h = None.
Proof.
  intros w c controller.
  assert (services default_config !! "backend" = Some c) as Hc by reflexivity.
  assert (is_running "backend" controller w = (Returned false, w)) as Hrun
    by reflexivity.
  assert (is_port_open (port c) w = (true, w)) as Hport by reflexivity.
  assert (time_time w = (0, w)) as Htime by reflexivity.
  repeat (split; [assumption|]).
  destruct (health_running_iff_probes default_config "backend" c w w w w
              false true 0 Hc Hrun Hport Htime) as (_ & h & w' & Heq & Hiff).
  exists h, w'. split; [exact Heq|]. split.
  - apply Hiff. split; reflexivity.
  - vm_compute in Heq. by injection Heq as <- _.
Defined.

(** * Further properties *)

(** ** Where issues come from *)

Lemma any_issue_app sev l1 l2 :
  any_issue sev (l1 ++ l2) ↔ any_issue sev l1 ∨ any_issue sev l2.
Proof.
  unfold any_issue. split.
  - intros (i & [Hi|Hi]%elem_of_app & Hs); [left|right]; by exists i.
  - intros [(i & Hi & Hs)|(i & Hi & Hs)]; exists i; rewrite elem_of_app; tauto.
Qed.

Lemma any_issue_nil sev : ¬ any_issue sev [].
Proof. intros (i & Hi & _). by apply elem_of_nil in Hi. Qed.

Lemma any_issue_singleton sev i : any_issue sev [i] ↔ severity i = sev.
Proof.
  unfold any_issue. split.
  - by intros (j & ->%list_elem_of_singleton & Hs).
  - intros Hs. exists i. split; [left|done].
Qed.

Lemma service_issue_severity sev service_name h :
  any_issue sev (service_issue service_name h)
  ↔ (sev = CRITICAL ∧ sh_status h = ERROR) ∨ (sev = WARNING ∧ sh_status h = STOPPED).
Proof.
  unfold service_issue. destruct (sh_status h); rewrite ?any_issue_singleton; simpl;
    try (split; [by intros ?%any_issue_nil|intros [[_ ?]|[_ ?]]; done]).
  - split; [intros <-; by right|intros [[_ ?]|[? _]]; done].
  - split; [intros <-; by left|intros [[? _]|[_ ?]]; done].
Qed.

Lemma service_issues_severity sev (service_health : gmap string ServiceHealth) :
  any_issue sev
    (concat (map (λ kv, service_issue kv.1 kv.2) (map_to_list service_health)))
  ↔ (sev = CRITICAL ∧ some_service_is ERROR service_health)
    ∨ (sev = WARNING ∧ some_service_is STOPPED service_health).
Proof.
  unfold some_service_is. split.
  - intros (i & Hi & Hs).
    apply list_elem_of_In, in_concat in Hi as (l & Hl & Hi).
    apply in_map_iff in Hl as ([n h] & <- & Hnh).
    apply list_elem_of_In, elem_of_map_to_list in Hnh.
    assert (any_issue sev (service_issue n h)) as Hany.
    { exists i. split; [by apply list_elem_of_In|done]. }
    apply service_issue_severity in Hany as [[-> ?]|[-> ?]]; [left|right];
      (split; [done|by exists n, h]).
  - intros Hcase.
    assert (∃ n h, service_health !! n = Some h ∧ any_issue sev (service_issue n h))
      as (n & h & Hl & i & Hi & Hs).
    { destruct Hcase as [[-> (n & h & Hl & Hst)]|[-> (n & h & Hl & Hst)]];
        exists n, h; (split; [done|]); apply service_issue_severity; tauto. }
    exists i. split; [|done].
    apply list_elem_of_In, in_concat. exists (service_issue n h). split.
    + apply in_map_iff. exists (n, h). split; [done|].
      by apply list_elem_of_In, elem_of_map_to_list.
    + by apply list_elem_of_In.
Qed.

Lemma collect_issues_sources (service_health : gmap string ServiceHealth)
  (dependency_status : DependencyStatus) :
  let issues := _collect_issues service_health dependency_status in
  (any_issue CRITICAL issues
   ↔ some_service_is ERROR service_health
     ∨ missing_python_deps dependency_status ≠ []
     ∨ missing_node_deps dependency_status ≠ [])
  ∧ (any_issue WARNING issues
     ↔ some_service_is STOPPED service_health
       ∨ missing_api_keys dependency_status ≠ [])
  ∧ ¬ any_issue INFO issues.
Proof.
  intros issues. subst issues. unfold _collect_issues.
  rewrite !any_issue_app, !service_issues_severity.
  destruct (missing_python_deps dependency_status) as [|p ps],
    (missing_node_deps dependency_status) as [|n ns],
    (missing_api_keys dependency_status) as [|k ks];
    rewrite ?any_issue_singleton; simpl;
    pose proof (any_issue_nil CRITICAL); pose proof (any_issue_nil WARNING);
    pose proof (any_issue_nil INFO);
    repeat split; intros; intuition (try done; try congruence).
Qed.

(** X1.  [_collect_issues] reports a critical issue exactly when some service
    is in [ERROR] or Python or Node dependencies are missing, a warning
    exactly when some service is [STOPPED] or API keys are missing, and never
    an informational issue. *)
Theorem collect_issues_severities (service_health : gmap string ServiceHealth)
  (dependency_status : DependencyStatus) :
  let issues := _collect_issues service_health dependency_status in
  (any_issue CRITICAL issues
   ↔ some_service_is ERROR service_health
     ∨ missing_python_deps dependency_status ≠ []
     ∨ missing_node_deps dependency_status ≠ [])
  ∧ (any_issue WARNING issues
     ↔ some_service_is STOPPED service_health
       ∨ missing_api_keys dependency_status ≠ [])
  ∧ ¬ any_issue INFO issues.
Proof. apply collect_issues_sources. Qed.

(** ** The status of a sweep *)

Lemma any_issue_decide sev issues : any_issue sev issues ∨ ¬ any_issue sev issues.
Proof.
  destruct (filter (λ i, severity i = sev) issues) as [|x xs] eqn:E.
  - right. by apply any_issue_filter_nil.
  - left. by apply (any_issue_filter_cons sev issues x xs).
Qed.

Lemma none_running_decide service_health :
  none_running service_health ∨ ¬ none_running service_health.
Proof.
  pose proof (none_running_filter service_health) as Hnone.
  destruct (decide (length (filter (λ kv : string * ServiceHealth,
                                      sh_status kv.2 = RUNNING)
                                   (map_to_list service_health)) = 0%nat)) as [H0|H0].
  - left. by apply Hnone.
  - right. intros Hn. by apply Hnone in Hn.
Qed.

Lemma all_running_decide service_health :
  all_running service_health ∨ ¬ all_running service_health.
Proof.
  pose proof (all_running_filter service_health) as Hall.
  destruct (decide (length (filter (λ kv : string * ServiceHealth,
                                      sh_status kv.2 = RUNNING)
                                   (map_to_list service_health))
                    < size service_health)%nat) as [Hlt|Hlt].
  - right. intros Ha. by apply Hall in Ha.
  - left. by apply Hall.
Qed.

(** The cascade of [_determine_overall_status], case by case. *)
Lemma overall_status_cases service_health dependency_status issues :
  let status := _determine_overall_status service_health dependency_status issues in
  (any_issue CRITICAL issues ∧ status = UNHEALTHY)
  ∨ (¬ any_issue CRITICAL issues ∧ none_running service_health ∧ status = UNHEALTHY)
  ∨ (¬ any_issue CRITICAL issues ∧ ¬ none_running service_health
     ∧ ¬ all_running service_health ∧ status = DEGRADED)
  ∨ (¬ any_issue CRITICAL issues ∧ ¬ none_running service_health
     ∧ all_running service_health ∧ any_issue WARNING issues ∧ status = DEGRADED)
  ∨ (¬ any_issue CRITICAL issues ∧ ¬ none_running service_health
     ∧ all_running service_health ∧ ¬ any_issue WARNING issues ∧ status = HEALTHY).
Proof.
  intros status. subst status. unfold _determine_overall_status.
  pose proof (none_running_filter service_health) as Hnone.
  pose proof (all_running_filter service_health) as Hall.
  destruct (filter (λ i, severity i = CRITICAL) issues) as [|c cs] eqn:Ec.
  - apply any_issue_filter_nil in Ec. right.
    destruct (decide (_ = 0%nat)) as [H0|H0].
    + apply Hnone in H0. by left.
    + assert (¬ none_running service_health) as Hsome
        by (intros Hn; by apply Hnone in Hn).
      right. destruct (decide (_ < _)%nat) as [Hlt|Hlt].
      * left. repeat split; try done. intros Ha. by apply Hall in Ha.
      * right. apply Hall in Hlt.
        destruct (filter (λ i, severity i = WARNING) issues) as [|x xs] eqn:Ew.
        -- right. apply any_issue_filter_nil in Ew. done.
        -- left. apply any_issue_filter_cons in Ew. done.
  - left. apply any_issue_filter_cons in Ec. done.
Qed.

Lemma all_running_no_other status service_health :
  status ≠ RUNNING → all_running service_health → ¬ some_service_is status service_health.
Proof. intros Hne Hall (n & h & Hl & Hst). apply Hall in Hl. congruence. Qed.

Lemma sweep_status_both (service_health : gmap string ServiceHealth)
  (dependency_status : DependencyStatus) :
  let status := _determine_overall_status service_health dependency_status
                  (_collect_issues service_health dependency_status) in
  (status = HEALTHY
   ↔ ¬ none_running service_health ∧ all_running service_health
     ∧ missing_python_deps dependency_status = []
     ∧ missing_node_deps dependency_status = []
     ∧ missing_api_keys dependency_status = [])
  ∧ (status = UNHEALTHY
     ↔ some_service_is ERROR service_health
       ∨ missing_python_deps dependency_status ≠ []
       ∨ missing_node_deps dependency_status ≠ []
       ∨ none_running service_health).
Proof.
  intros status.
  destruct (collect_issues_sources service_health dependency_status)
    as (Hcrit & Hwarn & _).
  pose proof (all_running_no_other ERROR service_health) as HnoE.
  pose proof (all_running_no_other STOPPED service_health) as HnoS.
  assert (∀ l : list string, l = [] ∨ l ≠ []) as Hl by (intros []; auto).
  destruct (Hl (missing_python_deps dependency_status)),
    (Hl (missing_node_deps dependency_status)),
    (Hl (missing_api_keys dependency_status)),
    (overall_status_cases service_health dependency_status
       (_collect_issues service_health dependency_status))
    as [(Hc & Hs)|[(Hc & Hn & Hs)|[(Hc & Hn & Ha & Hs)|[(Hc & Hn & Ha & Hw & Hs)|
        (Hc & Hn & Ha & Hw & Hs)]]]];
    fold status in Hs; rewrite Hs; clear Hs status;
    (split; split; try done; try (intros; exfalso; intuition congruence);
     intuition (try done; try congruence)).
Qed.

Lemma sweep_status_unhealthy (service_health : gmap string ServiceHealth)
  (dependency_status : DependencyStatus) :
  some_service_is ERROR service_health
  ∨ missing_python_deps dependency_status ≠ []
  ∨ missing_node_deps dependency_status ≠ []
  ∨ none_running service_health →
  _determine_overall_status service_health dependency_status
    (_collect_issues service_health dependency_status) = UNHEALTHY.
Proof. apply sweep_status_both. Qed.

(** X2.  The status computed from a sweep is [HEALTHY] exactly when at least
    one service is configured, all are [RUNNING], and no dependency or API
    key is missing; it is [UNHEALTHY] exactly when some service is in
    [ERROR], Python or Node dependencies are missing, or no service is
    running. *)
Theorem sweep_status (service_health : gmap string ServiceHealth)
  (dependency_status : DependencyStatus) :
  let status := _determine_overall_status service_health dependency_status
                  (_collect_issues service_health dependency_status) in
  (status = HEALTHY
   ↔ ¬ none_running service_health ∧ all_running service_health
     ∧ missing_python_deps dependency_status = []
     ∧ missing_node_deps dependency_status = []
     ∧ missing_api_keys dependency_status = [])
  ∧ (status = UNHEALTHY
     ↔ some_service_is ERROR service_health
       ∨ missing_python_deps dependency_status ≠ []
       ∨ missing_node_deps dependency_status ≠ []
       ∨ none_running service_health).
Proof. apply sweep_status_both. Qed.

(** ** Readiness probes and health entries *)

Section Probes.
Context {World : Type} `{Platform World}.

Lemma base_check_health_returns c (w : World) :
  ∃ b w', base_check_health c w = (Returned b, w').
Proof.
  unfold base_check_health. eff_unfold.
  destruct (http_get _ _ w) as [[status|e] w']; by eexists _, _.
Qed.

Lemma check_health_returns (controller : ServiceController) (w : World) :
  ∃ b w', _check_health controller w = (Returned b, w').
Proof.
  unfold _check_health. destruct (ctl_kind controller).
  - apply base_check_health_returns.
  - eff_unfold. destruct (http_get _ _ w) as [[status|e] w']; [by eexists _, _|].
    apply base_check_health_returns.
  - eff_unfold. destruct (http_get _ _ w) as [[status|e] w']; by eexists _, _.
  - by eexists _, _.
Qed.

(** X3.  The readiness probe of every controller class returns a boolean and
    never raises, whatever the HTTP request does; the probe of the database
    controller is always true. *)
Theorem check_health_never_raises (controller : ServiceController) (w : World) :
  (∃ b w', _check_health controller w = (Returned b, w'))
  ∧ (ctl_kind controller = DatabaseController →
     _check_health controller w = (Returned true, w)).
Proof.
  split; [apply check_health_returns|].
  intros Hk. unfold _check_health. by rewrite Hk.
Qed.

(** Runs the calls that follow the probes in [check_service_health]. *)
Ltac entry_tail :=
  match goal with
  | |- context [time_time ?w] => destruct (time_time w) as [? ?]
  end;
  match goal with
  | |- context [get_resource_usage ?n ?c ?w] =>
      destruct (get_resource_usage_returns n c w) as (? & ? & ->)
  end;
  match goal with
  | |- context [get_uptime ?n ?w] =>
      destruct (get_uptime_returns n w) as (? & ? & ->)
  end;
  match goal with
  | |- context [datetime_now ?w] => destruct (datetime_now w) as [? ?]
  end;
  match goal with
  | |- context [get_process_id ?n ?c ?w] =>
      destruct (get_process_id_returns n c w) as (? & ? & ->)
  end.

(** X4.  For a service of the table the manager was built from,
    [check_service_health] returns an entry carrying the name, port and URL
    of the configuration.  Its status is [STOPPED] when the port probe
    fails, and otherwise [RUNNING] or [ERROR] as the readiness probe says;
    the error message is absent exactly for [RUNNING], and is one of three
    fixed texts otherwise, the one for a closed port depending on whether
    the controller's process is alive. *)
Theorem check_service_health_entry (cfg : HealthMonitorConfig)
  (service_name : string) (c : ServiceConfig)
  (w w1 w2 w3 : World) (running port_open : bool) (t : Z) :
  services cfg !! service_name = Some c →
  let controller := {| ctl_kind := controller_class service_name; ctl_config := c |} in
  is_running service_name controller w = (Returned running, w1) →
  is_port_open (port c) w1 = (port_open, w2) →
  time_time w2 = (t, w3) →
  ∃ h w', check_service_health (ServiceManager_init cfg) service_name w
          = (Returned h, w')
    ∧ sh_name h = service_name ∧ sh_port h = port c
    ∧ sh_url h = "http://localhost:" +:+ pretty (port c)
    ∧ sh_status h
      = (if port_open
         then match (_check_health controller w3).1 with
              | Returned true => RUNNING
              | _ => ERROR
              end
         else STOPPED)
    ∧ sh_error_message h
      = match sh_status h with
        | RUNNING => None
        | ERROR => Some "Service not responding to health checks"
        | _ => if running
               then Some ("Port " +:+ pretty (port c)
                          +:+ " is not accepting connections")
               else Some "Service process is not running"
        end.
Proof.
  intros Hc controller Hrun Hport Htime.
  pose proof (_initialize_controllers_Some cfg service_name c Hc) as Hctl.
  unfold check_service_health, get_service_config. simpl.
  rewrite Hctl, Hc. fold controller.
  eff_unfold. rewrite Hrun, Hport, Htime.
  destruct port_open.
  - destruct (check_health_returns controller w3) as (healthy & w4 & Hh).
    rewrite Hh. simpl. entry_tail. eexists _, _. split; [done|].
    simpl. by destruct healthy.
  - destruct running; entry_tail; eexists _, _; (split; [done|]); done.
Qed.
End Probes.

(** ** The monitor as its constructor builds it *)

Section MonitorFacts.
Context {World : Type} `{Platform World}.

Lemma _check_all_services_returns (self : HealthMonitor World) (w : World) :
  ∃ m, _check_all_services self w
       = (Returned m, after_checks self (get_all_services (config self)) w).
Proof.
  destruct (check_services_spec self (get_all_services (config self)) ∅ w)
    as (m & Heq & _).
  - unfold get_all_services. apply NoDup_elements.
  - unfold get_all_services. intros n Hn. by apply elem_of_elements in Hn.
  - by exists m.
Qed.

(** What [check_system_health] returns when its collaborators return. *)
Lemma check_system_health_returns (self : HealthMonitor World) (w w1 w2 w3 : World)
  m vr keys :
  _check_all_services self w = (Returned m, w1) →
  dependency_validator self w1 = (Returned vr, w2) →
  api_key_manager self w2 = (Returned keys, w3) →
  ∃ snapshot self' last now w4 w5,
    datetime_now w3 = (last, w4) ∧ datetime_now w4 = (now, w5)
    ∧ check_system_health self w = (Returned (snapshot, self'), w5)
    ∧ hs_services snapshot = m
    ∧ hs_dependencies snapshot
      = {| python_deps_ok := vr_success vr; node_deps_ok := vr_success vr;
           api_keys_configured := existsb snd keys;
           missing_python_deps :=
             if vr_success vr then [] else missing_dependencies vr;
           missing_node_deps :=
             if vr_success vr then [] else missing_dependencies vr;
           missing_api_keys :=
             map (λ kv, provider_value kv.1) (filter (λ kv, kv.2 = false) keys) |}
    ∧ hs_issues snapshot = _collect_issues m (hs_dependencies snapshot)
    ∧ overall_status snapshot
      = _determine_overall_status m (hs_dependencies snapshot) (hs_issues snapshot)
    ∧ hs_last_check snapshot = last
    ∧ _cached_status self' = Some snapshot
    ∧ _last_health_check self' = Some now
    ∧ config self' = config self
    ∧ service_manager self' = service_manager self
    ∧ dependency_validator self' = dependency_validator self
    ∧ api_key_manager self' = api_key_manager self.
Proof.
  intros Hm Hv Hk. unfold check_system_health. eff_unfold.
  rewrite Hm, Hv, Hk.
  destruct (datetime_now w3) as [last w4] eqn:E1.
  destruct (datetime_now w4) as [now w5] eqn:E2.
  eexists _, _, last, now, w4, w5. repeat split; done.
Qed.

(** X5.  When validation fails with a non-empty list of missing items, the
    snapshot of [check_system_health] is [UNHEALTHY] whatever the services
    report: the list is recorded both as missing Python and as missing Node
    dependencies, and each gives a critical issue. *)
Theorem failed_validation_is_unhealthy (self : HealthMonitor World)
  (w w2 w3 : World) (vr : ValidationResult) (keys : list (APIProvider * bool)) :
  dependency_validator self (_check_all_services self w).2 = (Returned vr, w2) →
  api_key_manager self w2 = (Returned keys, w3) →
  vr_success vr = false → missing_dependencies vr ≠ [] →
  ∃ snapshot self' w',
    check_system_health self w = (Returned (snapshot, self'), w')
    ∧ overall_status snapshot = UNHEALTHY
    ∧ missing_python_deps (hs_dependencies snapshot) = missing_dependencies vr
    ∧ missing_node_deps (hs_dependencies snapshot) = missing_dependencies vr
    ∧ (∃ i, i ∈ hs_issues snapshot ∧ component i = "dependencies.python"
            ∧ severity i = CRITICAL)
    ∧ (∃ i, i ∈ hs_issues snapshot ∧ component i = "dependencies.node"
            ∧ severity i = CRITICAL)
    ∧ _cached_status self' = Some snapshot.
Proof.
  intros Hv Hk Hfail Hmiss.
  destruct (_check_all_services_returns self w) as (m & Hm).
  rewrite Hm in Hv. simpl in Hv.
  destruct (check_system_health_returns self w _ w2 w3 m vr keys Hm Hv Hk)
    as (snapshot & self' & last & now & w4 & w5 & _ & _ & Heq & Hs & Hd & Hi & Ho
        & _ & Hc & _).
  exists snapshot, self', w5. split; [done|].
  rewrite Hfail in Hd.
  assert (missing_python_deps (hs_dependencies snapshot) = missing_dependencies vr)
    as Hpy by by rewrite Hd.
  assert (missing_node_deps (hs_dependencies snapshot) = missing_dependencies vr)
    as Hnode by by rewrite Hd.
  split; [|split; [done|split; [done|]]].
  - rewrite Ho, Hi.
    apply (sweep_status_unhealthy m (hs_dependencies snapshot)).
    right. left. by rewrite Hpy.
  - rewrite Hi. unfold _collect_issues. rewrite Hpy, Hnode.
    destruct (missing_dependencies vr) as [|d ds]; [done|].
    split; [|split; [|done]].
    + eexists. split; [rewrite !elem_of_app; right; left; left|].
      split; reflexivity.
    + eexists. split; [rewrite !elem_of_app; right; right; left; left|].
      split; reflexivity.
Qed.
End MonitorFacts.

Section MonitorPaths.
Context {World : Type} `{Platform World}.

(** Whatever [check_system_health] returns is what it cached. *)
Lemma check_system_health_caches (self self' : HealthMonitor World) (w w' : World)
  snapshot :
  check_system_health self w = (Returned (snapshot, self'), w') →
  _cached_status self' = Some snapshot ∧ is_Some (_last_health_check self').
Proof.
  unfold check_system_health. eff_unfold.
  destruct (_check_all_services self w) as [[m|e] w1]; [|done].
  destruct (dependency_validator self w1) as [[vr|e] w2]; [|done].
  destruct (api_key_manager self w2) as [[keys|e] w3]; [|done].
  destruct (datetime_now w3) as [last w4], (datetime_now w4) as [now w5].
  intros Heq. injection Heq as <- <- <-. simpl. eauto.
Qed.

Lemma get_system_status_caches (self self' : HealthMonitor World) (w w' : World)
  status :
  get_system_status self w = (Returned (status, self'), w') →
  _cached_status self' = Some (health status)
  ∧ ∃ last, _last_health_check self' = Some last ∧ is_Some (uptime status).
Proof.
  unfold get_system_status. eff_unfold.
  destruct (_cached_status self) as [cached|] eqn:Hc;
    [destruct (_last_health_check self) as [last|] eqn:Hl|].
  - destruct (datetime_now w) as [now w1].
    destruct (decide (td_seconds (now - last) > 60)).
    + destruct (check_system_health self w1) as [[[snap s]|e] w2] eqn:Hcheck;
        [|done].
      destruct (check_system_health_caches self s w1 w2 snap Hcheck)
        as [Hcache [last' Hlast']].
      rewrite Hlast'. destruct (datetime_now w2) as [now' w3].
      intros Hr. injection Hr as <- <- <-. simpl. eauto.
    + rewrite Hl. destruct (datetime_now w1) as [now' w3].
      intros Hr. injection Hr as <- <- <-. simpl. eauto.
  - destruct (check_system_health self w) as [[[snap s]|e] w2] eqn:Hcheck; [|done].
    destruct (check_system_health_caches self s w w2 snap Hcheck)
      as [Hcache [last' Hlast']].
    rewrite Hlast'. destruct (datetime_now w2) as [now' w3].
    intros Hr. injection Hr as <- <- <-. simpl. eauto.
  - destruct (check_system_health self w) as [[[snap s]|e] w2] eqn:Hcheck; [|done].
    destruct (check_system_health_caches self s w w2 snap Hcheck)
      as [Hcache [last' Hlast']].
    rewrite Hlast'. destruct (datetime_now w2) as [now' w3].
    intros Hr. injection Hr as <- <- <-. simpl. eauto.
Qed.

(** X6.  After a call of [get_system_status] that returned, the monitor holds
    the returned snapshot in its cache, and a further call returns that same
    snapshot, without a new sweep, as long as the seconds field of the time
    since the last check is at most 60. *)
Theorem get_system_status_repeated (self self' : HealthMonitor World)
  (w w1 w2 : World) (status : SystemStatus) (last now : datetime) :
  get_system_status self w = (Returned (status, self'), w1) →
  _last_health_check self' = Some last →
  datetime_now w1 = (now, w2) →
  td_seconds (now - last) ≤ 60 →
  _cached_status self' = Some (health status)
  ∧ ∃ status' w3, get_system_status self' w1 = (Returned (status', self'), w3)
                  ∧ health status' = health status.
Proof.
  intros Hfirst Hlast Hnow Hage.
  destruct (get_system_status_caches self self' w w1 status Hfirst) as [Hcache _].
  split; [done|].
  by apply (get_system_status_cached self' (health status) last now w1 w2).
Qed.

(** X7.  [start_services] starts nothing unless validation succeeds.  When
    the validator returns a failure, the result is a failure naming every
    configured service as failed and none as started, and the world is as
    the validator left it; when the validator raises, so does
    [start_services]. *)
Theorem start_services_needs_validation (self : HealthMonitor World) (w : World) :
  (∀ vr w1,
     dependency_validator self w = (Returned vr, w1) → vr_success vr = false →
     ∃ r, start_services self w = (Returned r, w1)
          ∧ sr_success r = false
          ∧ sr_message r = "Dependency validation failed: " +:+ vr_message vr
          ∧ started_services r = []
          ∧ NoDup (failed_services r)
          ∧ ∀ s, s ∈ failed_services r ↔ s ∈ dom (services (config self)))
  ∧ (∀ e w1,
       dependency_validator self w = (Raised e, w1) →
       start_services self w = (Raised e, w1)).
Proof.
  split.
  - intros vr w1 Hv Hfail. unfold start_services. eff_unfold.
    rewrite Hv, Hfail. simpl. eexists. split; [done|]. simpl.
    repeat split; try done.
    + unfold get_all_services. apply NoDup_elements.
    + unfold get_all_services. by rewrite elem_of_elements.
    + unfold get_all_services. by rewrite elem_of_elements.
  - intros e w1 Hv. unfold start_services. eff_unfold. by rewrite Hv.
Qed.

(** X8.  A monitor built by its constructor never gets past validation: the
    validator of the package raises the [TypeError] of its credential check,
    so [start_services] raises before any service is started, and
    [check_system_health] and [get_system_status] raise after the sweep;
    nothing is ever cached. *)
Theorem constructed_monitor_always_raises (base_dir frontend_dir : string)
  (validate_all_keys : Eff World (list (APIProvider * bool))) (w : World) :
  let self := HealthMonitor_init base_dir frontend_dir validate_all_keys in
  let e := unexpected_keyword "api_keys_ok" in
  start_services self w
  = (Raised e, (load_api_keys (check_node_deps (check_python_deps w).2).2).2)
  ∧ (∃ w', check_system_health self w = (Raised e, w'))
  ∧ (∃ w', get_system_status self w = (Raised e, w')).
Proof.
  intros self e.
  assert (∀ w0, validate_all_dependencies w0
                = (Raised e, (load_api_keys
                                (check_node_deps (check_python_deps w0).2).2).2))
    as Hval.
  { intros w0. unfold validate_all_dependencies, check_api_keys. eff_unfold.
    destruct (check_python_deps w0) as [p w1]; simpl.
    destruct (check_node_deps w1) as [n w2]; simpl.
    destruct (load_api_keys w2) as [keys w3]; simpl.
    rewrite check_api_keys_with_raises. reflexivity. }
  assert (∃ w', check_system_health self w = (Raised e, w')) as Hcheck.
  { unfold check_system_health. eff_unfold.
    destruct (_check_all_services_returns self w) as (m & ->).
    simpl. rewrite Hval. by eexists. }
  split; [|split; [done|]].
  - unfold start_services. eff_unfold. simpl. by rewrite Hval.
  - destruct Hcheck as [w' Hcheck].
    unfold get_system_status. eff_unfold. simpl. rewrite Hcheck. by eexists.
Qed.
End MonitorPaths.

(** ** The services that are running *)

Section RunningServicesFacts.
Context {World : Type} `{Platform World}.

Lemma is_running_database service_name controller (w : World) :
  ctl_kind controller = DatabaseController →
  is_running service_name controller w = (Returned true, w).
Proof. intros Hk. unfold is_running. by rewrite Hk. Qed.

Lemma is_running_no_process service_name controller (w : World) :
  ctl_kind controller ≠ DatabaseController → process service_name w = None →
  is_running service_name controller w = (Returned false, w).
Proof.
  intros Hk Hp. unfold is_running.
  destruct (ctl_kind controller); try done; by rewrite Hp.
Qed.

Lemma running_among_spec items : ∀ running (w : World),
  ∃ found w', running_among items running w = (Returned (running ++ found), w')
    ∧ sublist found items.*1
    ∧ (∀ n c, (n, c) ∈ items → ctl_kind c = DatabaseController → n ∈ found).
Proof.
  induction items as [|[n c] items IH]; intros running w.
  - exists [], w. simpl. rewrite app_nil_r. split; [done|]. split; [done|].
    intros n c Hin. by apply elem_of_nil in Hin.
  - simpl. eff_unfold.
    destruct (is_running_returns n c w) as (b & w1 & Hrun). rewrite Hrun.
    destruct (IH (if b then running ++ [n] else running) w1)
      as (found & w' & Heq & Hsub & Hdb).
    destruct b.
    + exists (n :: found), w'. rewrite Heq, <- app_assoc. split; [done|].
      split; [by apply sublist_skip|].
      intros n' c' [Heq'|Hin]%elem_of_cons Hk; [injection Heq' as -> ->; left|].
      right. by apply (Hdb n' c').
    + exists found, w'. split; [done|]. split; [by apply sublist_cons|].
      intros n' c' [Heq'|Hin]%elem_of_cons Hk; [|by apply (Hdb n' c')].
      injection Heq' as -> ->.
      rewrite (is_running_database n c w Hk) in Hrun. done.
Qed.

(** X9.  [get_running_services] never raises; it lists registered services
    only, each at most once, and always lists a registered database
    controller, whose [is_running] is constantly true. *)
Theorem get_running_services_registered (self : ServiceManager) (w : World) :
  ∃ running w', get_running_services self w = (Returned running, w')
    ∧ NoDup running
    ∧ (∀ n, n ∈ running → is_Some (_controllers self !! n))
    ∧ (∀ n c, _controllers self !! n = Some c →
              ctl_kind c = DatabaseController → n ∈ running).
Proof.
  destruct (running_among_spec (map_to_list (_controllers self)) [] w)
    as (found & w' & Heq & Hsub & Hdb).
  exists found, w'. split; [exact Heq|]. split; [|split].
  - apply (sublist_NoDup _ _ (NoDup_fst_map_to_list (_controllers self)) Hsub).
  - intros n Hn. apply (elem_of_sublist _ _ _ Hn) in Hsub as Hn'.
    apply list_elem_of_fmap in Hn' as ([n' c] & -> & Hin).
    apply elem_of_map_to_list in Hin. by exists c.
  - intros n c Hl Hk. apply (Hdb n c); [|done]. by apply elem_of_map_to_list.
Qed.

(** X10.  [stop_all_services] never raises, even when stopping a service
    does: it goes through the startup order backwards, stops the names that
    are registered and skips the others. *)
Theorem stop_all_services_never_raises (self : ServiceManager) (w : World) :
  stop_all_services self w
  = (Returned tt,
     foldl (λ w service_name,
              if decide (is_Some (_controllers self !! service_name))
              then (stop_service self service_name w).2 else w)
           w (reverse (get_startup_order (sm_config self)))).
Proof.
  unfold stop_all_services.
  apply (for_each_fold _ (λ n w, if decide (is_Some (_controllers self !! n))
                                 then (stop_service self n w).2 else w)).
  intros n w' _. destruct (decide (is_Some (_controllers self !! n))); [|done].
  apply guarded_stop.
Qed.
End RunningServicesFacts.

(** ** The port checker *)

Section PortCheckerFacts.
Context {World : Type} `{Sockets World}.

Lemma is_port_available_returns port host (w : World) :
  ∃ b w', PortChecker.is_port_available port host w = (Returned b, w').
Proof.
  unfold PortChecker.is_port_available. eff_unfold.
  destruct (connect_ex AF_INET host port 1 w) as [[r|e] w']; by eexists _, _.
Qed.

(** X11.  [is_port_open] never raises.  It is true when the IPv4 connection
    returned 0; otherwise, also after an IPv4 error, it is the outcome of a
    second attempt, made on the IPv6 loopback address whatever the host. *)
Theorem is_port_open_two_families (port : Z) (host : string) (timeout : Z)
  (w : World) :
  let '(v4, w1) := connect_ex AF_INET host port timeout w in
  if PortChecker.connected v4
  then PortChecker.is_port_open port host timeout w = (Returned true, w1)
  else
    let '(v6, w2) := connect_ex AF_INET6 "::1" port timeout w1 in
    PortChecker.is_port_open port host timeout w
    = (Returned (PortChecker.connected v6), w2).
Proof.
  unfold PortChecker.is_port_open, PortChecker.connected. eff_unfold.
  destruct (connect_ex AF_INET host port timeout w) as [[r4|e4] w1];
    [destruct (bool_decide (r4 = 0)); [done|]|];
    (destruct (connect_ex AF_INET6 "::1" port timeout w1) as [[r6|e6] w2];
     [by destruct (bool_decide (r6 = 0))|done]).
Qed.

Lemma is_port_open_returns port host timeout (w : World) :
  ∃ b w', PortChecker.is_port_open port host timeout w = (Returned b, w').
Proof.
  unfold PortChecker.is_port_open. eff_unfold.
  destruct (connect_ex AF_INET host port timeout w) as [[r4|e4] w1];
    [destruct (bool_decide (r4 = 0)); [by eexists _, _|]|];
    (destruct (connect_ex AF_INET6 "::1" port timeout w1) as [[r6|e6] w2];
     [destruct (bool_decide (r6 = 0))|]; by eexists _, _).
Qed.

(** X12.  [get_port_info] never raises and never answers with its
    error text: it returns the answer of [is_port_open] with a timeout of two
    seconds, together with the text that goes with it. *)
Theorem get_port_info_answers (port : Z) (host : string) (w : World) :
  ∃ is_open w',
    PortChecker.is_port_open port host 2 w = (Returned is_open, w')
    ∧ PortChecker.get_port_info port host w
      = (Returned (is_open,
                   if is_open then "Port is open and accepting connections"
                   else "Port is not accepting connections"), w').
Proof.
  destruct (is_port_open_returns port host 2 w) as (b & w' & Hopen).
  exists b, w'. split; [done|].
  unfold PortChecker.get_port_info. eff_unfold. rewrite Hopen. by destruct b.
Qed.

Lemma probes_before_cons host port ports (w : World) :
  PortChecker.probes_before host (port :: ports) w
  = PortChecker.probes_before host ports
      (PortChecker.is_port_available port host w).2.
Proof. reflexivity. Qed.

Lemma first_available_range host (n : nat) : ∀ (s : Z) (w : World),
  ∃ r w',
    PortChecker.first_available (seqZ s (Z.of_nat n)) host w = (Returned r, w')
    ∧ match r with
      | Some p =>
          s ≤ p < s + Z.of_nat n
          ∧ PortChecker.is_port_available p host
              (PortChecker.probes_before host (seqZ s (p - s)) w)
            = (Returned true, w')
          ∧ ∀ q, s ≤ q < p →
              (PortChecker.is_port_available q host
                 (PortChecker.probes_before host (seqZ s (q - s)) w)).1
              = Returned false
      | None =>
          w' = PortChecker.probes_before host (seqZ s (Z.of_nat n)) w
          ∧ ∀ q, s ≤ q < s + Z.of_nat n →
              (PortChecker.is_port_available q host
                 (PortChecker.probes_before host (seqZ s (q - s)) w)).1
              = Returned false
      end.
Proof.
  induction n as [|n IH]; intros s w.
  - exists None, w. rewrite seqZ_nil by lia. split; [done|]. split; [done|].
    intros q Hq. lia.
  - rewrite seqZ_cons by lia.
    replace (Z.pred (Z.of_nat (S n))) with (Z.of_nat n) by lia.
    cbn [PortChecker.first_available]. eff_unfold.
    destruct (is_port_available_returns s host w) as (b & w1 & Hs).
    rewrite Hs. destruct b.
    + exists (Some s), w1. split; [done|]. split; [lia|].
      replace (s - s) with 0 by lia. rewrite seqZ_nil by lia.
      split; [done|]. intros q Hq. lia.
    + assert (∀ q, s < q →
                PortChecker.probes_before host (seqZ s (q - s)) w
                = PortChecker.probes_before host (seqZ (Z.succ s) (q - Z.succ s)) w1)
        as Hshift.
      { intros q Hq. rewrite (seqZ_cons s) by lia.
        rewrite probes_before_cons, Hs. simpl. f_equal. f_equal. lia. }
      destruct (IH (Z.succ s) w1) as (r & w' & Heq & Hr).
      exists r, w'. split; [done|].
      destruct r as [p|].
      * destruct Hr as (Hp & Hav & Hbefore).
        split; [lia|]. split; [by rewrite Hshift by lia|].
        intros q Hq. destruct (decide (q = s)) as [->|Hne].
        -- replace (s - s) with 0 by lia. rewrite seqZ_nil by lia.
           simpl. by rewrite Hs.
        -- rewrite Hshift by lia. apply Hbefore. lia.
      * destruct Hr as (Hw & Hall). split.
        -- rewrite probes_before_cons, Hs. done.
        -- intros q Hq. destruct (decide (q = s)) as [->|Hne].
           ++ replace (s - s) with 0 by lia. rewrite seqZ_nil by lia.
              simpl. by rewrite Hs.
           ++ rewrite Hshift by lia. apply Hall. lia.
Qed.

(** X13.  [find_available_port] never raises.  It returns the first port of
    the range, bounds included, that [is_port_available] accepts when its
    turn comes, every port before it having been refused; it returns nothing
    when every port is refused, and probes nothing when the range is
    empty. *)
Theorem find_available_port_first (start_port end_port : Z) (host : string)
  (w : World) :
  ∃ r w',
    PortChecker.find_available_port start_port end_port host w = (Returned r, w')
    ∧ match r with
      | Some p =>
          start_port ≤ p ≤ end_port
          ∧ PortChecker.is_port_available p host
              (PortChecker.probes_before host (seqZ start_port (p - start_port)) w)
            = (Returned true, w')
          ∧ ∀ q, start_port ≤ q < p →
              (PortChecker.is_port_available q host
                 (PortChecker.probes_before host
                    (seqZ start_port (q - start_port)) w)).1
              = Returned false
      | None =>
          (end_port < start_port → w' = w)
          ∧ ∀ q, start_port ≤ q ≤ end_port →
              (PortChecker.is_port_available q host
                 (PortChecker.probes_before host
                    (seqZ start_port (q - start_port)) w)).1
              = Returned false
      end.
Proof.
  unfold PortChecker.find_available_port.
  destruct (decide (end_port < start_port)) as [Hempty|Hrange].
  - exists None, w. rewrite seqZ_nil by lia. split; [done|]. split; [done|].
    intros q Hq. lia.
  - destruct (first_available_range host (Z.to_nat (end_port + 1 - start_port))
                start_port w) as (r & w' & Heq & Hr).
    rewrite Z2Nat.id in Heq, Hr by lia.
    exists r, w'. split; [done|]. destruct r as [p|].
    + destruct Hr as (Hp & Hav & Hbefore). split; [lia|]. split; done.
    + destruct Hr as (_ & Hall). split; [lia|]. intros q Hq. apply Hall. lia.
Qed.
End PortCheckerFacts.

(** ** Commands and dependency checks *)

Section ValidatorFacts.
Context {World : Type} `{Toolchain World}.

Lemma _run_command_fails (cmd : list string) (cwd : option string) (w : World) :
  ∃ e w', Validator._run_command cmd cwd w
          = (Returned {| vr_success := false;
                         vr_message := "Command failed: " +:+ exc_str e;
                         missing_dependencies := [];
                         installation_commands := [] |}, w').
Proof.
  unfold Validator._run_command. eff_unfold.
  destruct (run_subprocess cmd cwd w) as [[[[rc out] err]|e] w']; [|by eexists _, _].
  destruct (decide (rc ≠ 0)).
  - destruct (decode err) as [msg|e]; [|by eexists _, _].
    destruct (decode out) as [o|e]; by eexists _, _.
  - destruct (decode out) as [o|e]; by eexists _, _.
Qed.

(** X14.  [_run_command] never raises and never reports success: building
    its result with the keyword [output], which [ValidationResult] does not
    have, raises inside its own [try], so every command, even one that
    exits with code 0, is reported as "Command failed". *)
Theorem run_command_never_succeeds (cmd : list string) (cwd : option string)
  (w : World) :
  ∃ r w', Validator._run_command cmd cwd w = (Returned r, w')
    ∧ vr_success r = false
    ∧ (∃ e, vr_message r = "Command failed: " +:+ exc_str e)
    ∧ (∀ out err w1,
         run_subprocess cmd cwd w = (Returned (0, out, err), w1) →
         ∀ text, decode out = Returned text →
         vr_message r = "Command failed: " +:+ exc_str (unexpected_keyword "output")
         ∧ w' = w1).
Proof.
  destruct (_run_command_fails cmd cwd w) as (e & w' & Heq).
  eexists _, w'. split; [exact Heq|]. split; [done|]. split; [by exists e|].
  intros out err w1 Hrun text Hdec.
  assert (Validator._run_command cmd cwd w
          = (Returned
               {| vr_success := false;
                  vr_message :=
                    "Command failed: " +:+ exc_str (unexpected_keyword "output");
                  missing_dependencies := []; installation_commands := [] |}, w1))
    as Hcalc.
  { unfold Validator._run_command. eff_unfold. rewrite Hrun. simpl.
    by rewrite Hdec. }
  rewrite Heq in Hcalc. cbn [vr_message]. split.
  - exact (f_equal (λ x, match x.1 with
                         | Returned r => vr_message r
                         | Raised _ => ""
                         end) Hcalc).
  - exact (f_equal snd Hcalc).
Qed.

(** X15.  [check_python_deps] never raises and never finds the Python
    dependencies in order: it reports exactly one missing item, which is
    "Failed to get installed packages" whenever [requirements.txt] is
    there. *)
Theorem check_python_deps_never_ok (self : DependencyValidator) (w : World) :
  ∃ d item w', Validator.check_python_deps self w = (Returned d, w')
    ∧ python_deps_ok d = false
    ∧ missing_python_deps d = [item]
    ∧ missing_node_deps d = [] ∧ missing_api_keys d = []
    ∧ (∀ w1, path_exists (base_dir self) "requirements.txt" w = (Returned true, w1) →
             item = "Failed to get installed packages")
    ∧ (∀ w1, path_exists (base_dir self) "requirements.txt" w = (Returned false, w1) →
             item = "requirements.txt not found" ∧ w' = w1).
Proof.
  unfold Validator.check_python_deps. eff_unfold.
  destruct (path_exists (base_dir self) "requirements.txt" w) as [[found|e] w1].
  - destruct found; simpl.
    + destruct (_run_command_fails ["pip"; "list"; "--format=json"] None w1)
        as (e & w2 & ->). simpl.
      eexists _, _, _. split; [done|]. simpl.
      repeat split; try done; intros; simplify_eq/=; repeat split; (done || congruence).
    + eexists _, _, _. split; [done|]. simpl.
      repeat split; try done; intros; simplify_eq/=; repeat split; (done || congruence).
  - eexists _, _, _. split; [done|]. simpl.
    repeat split; try done; intros; simplify_eq/=; repeat split; (done || congruence).
Qed.

(** X16.  [check_node_deps] never raises and never finds the Node
    dependencies in order: it reports exactly one missing item, which is
    "npm not available" whenever [package.json] and [node_modules] are
    there. *)
Theorem check_node_deps_never_ok (self : DependencyValidator) (w : World) :
  ∃ d item w', Validator.check_node_deps self w = (Returned d, w')
    ∧ node_deps_ok d = false
    ∧ missing_node_deps d = [item]
    ∧ missing_python_deps d = [] ∧ missing_api_keys d = []
    ∧ (∀ w1 w2,
         path_exists (frontend_dir self) "package.json" w = (Returned true, w1) →
         path_exists (frontend_dir self) "node_modules" w1 = (Returned true, w2) →
         item = "npm not available").
Proof.
  unfold Validator.check_node_deps. eff_unfold.
  destruct (path_exists (frontend_dir self) "package.json" w) as [[found|e] w1].
  - destruct found; simpl.
    + destruct (path_exists (frontend_dir self) "node_modules" w1)
        as [[found2|e] w2] eqn:Hmodules.
      * destruct found2; simpl.
        -- destruct (_run_command_fails ["npm"; "--version"] None w2)
             as (e & w3 & ->). simpl.
           eexists _, _, _. split; [done|]. simpl.
           repeat split; try done; intros; simplify_eq/=; repeat split; (done || congruence).
        -- eexists _, _, _. split; [done|]. simpl.
           repeat split; try done; intros; simplify_eq/=; repeat split; (done || congruence).
      * eexists _, _, _. split; [done|]. simpl.
        repeat split; try done; intros; simplify_eq/=; repeat split; (done || congruence).
    + eexists _, _, _. split; [done|]. simpl.
      repeat split; try done; intros; simplify_eq/=; repeat split; (done || congruence).
  - eexists _, _, _. split; [done|]. simpl.
    repeat split; try done; intros; simplify_eq/=; repeat split; (done || congruence).
Qed.
End ValidatorFacts.

(** ** Masked keys *)

Lemma stars_length n : String.length (stars n) = n.
Proof. induction n; simpl; congruence. Qed.

Lemma stars_get n i : (i < n)%nat → String.get i (stars n) = Some "*"%char.
Proof.
  revert i. induction n as [|n IH]; intros i Hi; [lia|].
  destruct i; simpl; [done|]. apply IH. lia.
Qed.

Lemma string_app_length s1 s2 :
  String.length (s1 +:+ s2) = (String.length s1 + String.length s2)%nat.
Proof.
  induction s1 as [|c s1 IH]; [done|].
  change (String c s1 +:+ s2) with (String c (s1 +:+ s2)).
  simpl. by rewrite IH.
Qed.

Lemma substring_length s : ∀ n m,
  (n + m ≤ String.length s)%nat → String.length (substring n m s) = m.
Proof.
  induction s as [|c s IH]; intros n m Hle; simpl in *.
  - by destruct n, m; simpl; try lia.
  - destruct n as [|n].
    + destruct m as [|m]; simpl; [done|]. f_equal. apply IH. lia.
    + apply IH. lia.
Qed.

Lemma string_get_beyond s : ∀ i, (String.length s ≤ i)%nat → String.get i s = None.
Proof.
  induction s as [|c s IH]; intros i Hi; simpl in *; [done|].
  destruct i; [lia|]. apply IH. lia.
Qed.

(** X17.  [_mask_key] keeps the length of the key and shows at most its last
    four characters: every position before them holds a star, a key of four
    characters or fewer is all stars, and the last four characters of a
    longer key are left in place. *)
Theorem mask_key_hides (key : string) :
  String.length (_mask_key key) = String.length key
  ∧ (∀ i, (i + 4 < String.length key)%nat →
          String.get i (_mask_key key) = Some "*"%char)
  ∧ ((String.length key ≤ 4)%nat →
     ∀ i, (i < String.length key)%nat → String.get i (_mask_key key) = Some "*"%char)
  ∧ ((4 < String.length key)%nat →
     ∀ i, (String.length key - 4 ≤ i)%nat →
          String.get i (_mask_key key) = String.get i key).
Proof.
  unfold _mask_key. destruct (decide (String.length key ≤ 4)%nat) as [Hle|Hgt].
  - split; [apply stars_length|]. split; [intros i Hi; lia|].
    split; [intros _ i Hi; by apply stars_get|]. intros Hlt. lia.
  - set (n := (String.length key - 4)%nat).
    assert (String.length (stars n) = n) as Hn by apply stars_length.
    split; [|split; [|split]].
    + rewrite string_app_length, Hn, substring_length by lia. lia.
    + intros i Hi. rewrite <- append_correct1 by (rewrite Hn; lia).
      apply stars_get. lia.
    + intros Hle. lia.
    + intros _ i Hi.
      replace i with ((i - n) + String.length (stars n))%nat at 1 by (rewrite Hn; lia).
      rewrite <- append_correct2.
      destruct (decide (i - n < 4)%nat) as [Hlt|Hge].
      * rewrite substring_correct1 by done. f_equal. lia.
      * rewrite substring_correct2 by lia. symmetry.
        apply string_get_beyond. lia.
Qed.

(** ** The key manager *)

Lemma env_var_inj p q : env_var p = env_var q → p = q.
Proof. by destruct p, q. Qed.

Section KeyManagerFacts.
Context {World : Type} `{KeyFile World}.
Import KeyManager.

Lemma store_key_all_invalid self p key w :
  all_invalid self → all_invalid (_store_key self p key w).2.1.
Proof.
  intros Hinv q info. unfold _store_key.
  destruct (has_nul key); simpl;
    (destruct (decide (q = p)); [by intros [= <-]|apply Hinv]).
Qed.

Lemma load_from_file_all_invalid found : ∀ self w,
  all_invalid self → all_invalid (load_from_file self found w).1.
Proof.
  induction found as [|[p v] found IH]; intros self w Hinv; simpl; [done|].
  pose proof (store_key_all_invalid self p v w Hinv) as Hs.
  destruct (_store_key self p v w) as [[[]|e] [self' w']]; simpl in *; auto.
Qed.

Lemma load_from_environ_all_invalid providers : ∀ self w,
  all_invalid self → all_invalid (load_from_environ self providers w).2.1.
Proof.
  induction providers as [|p providers IH]; intros self w Hinv; simpl; [done|].
  destruct (environ self !! env_var p) as [v|]; [|by apply IH].
  destruct (decide (v = "")); [by apply IH|].
  pose proof (store_key_all_invalid self p v w Hinv) as Hs.
  destruct (_store_key self p v w) as [[[]|e] [self' w']]; simpl in *; auto.
Qed.

Lemma init_all_invalid env w : all_invalid (APIKeyManager_init env w).2.1.
Proof.
  unfold APIKeyManager_init. destruct (read_keys_file w) as [found w1].
  pose proof (load_from_file_all_invalid found
    {| keys := λ _, None; _actual_keys := λ _, None; environ := env |} w1) as Hf.
  destruct (load_from_file _ found w1) as [self1 w2]; simpl in Hf.
  apply load_from_environ_all_invalid, Hf. by intros p info.
Qed.

Lemma classify_all_invalid keys providers : ∀ available missing,
  (∀ p info, keys p = Some info → is_valid info = false) →
  classify_providers keys providers available missing
  = (available, missing ++ map provider_value providers).
Proof.
  induction providers as [|p providers IH]; intros available missing Hinv; simpl.
  - by rewrite app_nil_r.
  - destruct (keys p) as [info|] eqn:Hp.
    + rewrite (Hinv p info Hp), IH by done. by rewrite <- app_assoc.
    + rewrite IH by done. by rewrite <- app_assoc.
Qed.

(** X18.  Every key of a freshly constructed manager is marked as not valid,
    whatever the file and the environment hold; the loop of [check_api_keys]
    therefore files every provider it asks about under the missing ones. *)
Theorem fresh_manager_has_no_valid_key (env : gmap string string) (w : World)
  (providers : list APIProvider) (available missing : list string) :
  (∀ p info, get_key_info (APIKeyManager_init env w).2.1 p = Some info →
             is_valid info = false)
  ∧ classify_providers (keys (APIKeyManager_init env w).2.1) providers
      available missing
    = (available, missing ++ map provider_value providers).
Proof.
  split; [apply init_all_invalid|].
  apply classify_all_invalid, init_all_invalid.
Qed.

(** *** Storing one key *)

Lemma store_key_clean self p key w :
  has_nul key = false →
  _store_key self p key w
  = (Returned tt,
     ({| keys := λ q, if decide (q = p) then Some (new_key_info p key)
                      else keys self q;
         _actual_keys := λ q, if decide (q = p) then Some key
                              else _actual_keys self q;
         environ := <[env_var p := key]> (environ self) |},
      _save_key_to_file p key w)).
Proof. intros Hk. unfold _store_key. by rewrite Hk. Qed.

Lemma get_key_stored self p key w :
  has_nul key = false → get_key (_store_key self p key w).2.1 p = Some key.
Proof.
  intros Hk. rewrite store_key_clean by done. unfold get_key. simpl.
  rewrite lookup_insert_eq. destruct (decide (key = "")); [|done].
  rewrite decide_True by done. by subst.
Qed.

Lemma get_key_other self p q key w :
  q ≠ p → get_key (_store_key self p key w).2.1 q = get_key self q.
Proof.
  intros Hq. unfold _store_key, get_key. destruct (has_nul key); simpl; [done|].
  rewrite lookup_insert_ne by (intros Heq; by apply env_var_inj in Heq).
  by rewrite decide_False.
Qed.

(** X19.  [set_key] with a key that the environment accepts returns [True];
    afterwards [get_key] gives the key back, [get_key_info] gives its hash
    and mask, marked as not yet valid, the key has been written to the file,
    and the other providers are as before. *)
Theorem set_key_round_trip (self : APIKeyManager) (p : APIProvider)
  (key : string) (w : World) :
  has_nul key = false →
  (set_key self p key w).1 = true
  ∧ (set_key self p key w).2.2 = _save_key_to_file p key w
  ∧ get_key (set_key self p key w).2.1 p = Some key
  ∧ get_key_info (set_key self p key w).2.1 p = Some (new_key_info p key)
  ∧ get_masked_key (set_key self p key w).2.1 p = Some (_mask_key key)
  ∧ ∀ q, q ≠ p →
      get_key (set_key self p key w).2.1 q = get_key self q
      ∧ get_key_info (set_key self p key w).2.1 q = get_key_info self q.
Proof.
  intros Hk.
  pose proof (get_key_stored self p key w Hk) as Hget.
  pose proof (λ q, get_key_other self p q key w) as Hother.
  unfold set_key. rewrite store_key_clean in * by done.
  unfold get_masked_key, get_key_info. simpl in *.
  rewrite decide_True by done.
  repeat split; try done; [by apply Hother|by rewrite decide_False].
Qed.

(** X20.  A key with a NUL character is refused by the environment:
    [set_key] returns [False] and neither the environment, the file nor
    [get_key] change, but [get_key_info] already reports the refused key. *)
Theorem set_key_refused (self : APIKeyManager) (p : APIProvider)
  (key : string) (w : World) :
  has_nul key = true →
  (set_key self p key w).1 = false
  ∧ (set_key self p key w).2.2 = w
  ∧ environ (set_key self p key w).2.1 = environ self
  ∧ (∀ q, get_key (set_key self p key w).2.1 q = get_key self q)
  ∧ get_key_info (set_key self p key w).2.1 p = Some (new_key_info p key)
  ∧ ∀ q, q ≠ p → get_key_info (set_key self p key w).2.1 q = get_key_info self q.
Proof.
  intros Hk. unfold set_key, _store_key, get_key, get_key_info.
  rewrite Hk. simpl. rewrite decide_True by done.
  repeat split; try done. intros q Hq. by rewrite decide_False.
Qed.

Lemma remove_key_forgets self p :
  get_key_info (remove_key self p).2 p = None
  ∧ get_key (remove_key self p).2 p = _actual_keys self p.
Proof.
  unfold remove_key, get_key_info, get_key. simpl.
  rewrite lookup_delete_eq. by rewrite decide_True.
Qed.

(** X21.  [remove_key] returns [True] and [get_key_info] no longer knows the
    provider, but [_actual_keys] is left alone: [get_key] still returns a
    key that was set before. *)
Theorem removed_key_still_returned (self : APIKeyManager) (p : APIProvider)
  (key : string) (w : World) :
  has_nul key = false →
  (remove_key (set_key self p key w).2.1 p).1 = true
  ∧ get_key_info (remove_key (set_key self p key w).2.1 p).2 p = None
  ∧ get_key (remove_key (set_key self p key w).2.1 p).2 p = Some key.
Proof.
  intros Hk. split; [done|].
  destruct (remove_key_forgets (set_key self p key w).2.1 p) as [-> ->].
  split; [done|]. unfold set_key. rewrite store_key_clean by done. simpl.
  by rewrite decide_True.
Qed.

(** *** Construction *)

Lemma clean_env_insert env k v :
  clean_env env → has_nul v = false → clean_env (<[k := v]> env).
Proof.
  intros Henv Hv k' v'. destruct (decide (k' = k)) as [->|Hne].
  - rewrite lookup_insert_eq. by intros [= <-].
  - rewrite lookup_insert_ne by done. apply Henv.
Qed.

Lemma load_from_file_spec found : ∀ self w,
  clean_file found → clean_env (environ self) →
  let self' := (load_from_file self found w).1 in
  clean_env (environ self')
  ∧ ∀ p,
      keys self' p
      = match file_value p found with
        | Some v => Some (new_key_info p v) | None => keys self p end
      ∧ _actual_keys self' p
        = match file_value p found with
          | Some v => Some v | None => _actual_keys self p end
      ∧ environ self' !! env_var p
        = match file_value p found with
          | Some v => Some v | None => environ self !! env_var p end.
Proof.
  induction found as [|[q v] found IH]; intros self w Hfile Henv; simpl.
  - by split.
  - apply Forall_cons in Hfile as [Hv Hfile]. simpl in Hv.
    rewrite store_key_clean by done.
    set (self1 := {| keys := _ |}).
    destruct (IH self1 (_save_key_to_file q v w) Hfile) as [Hclean Hp].
    { by apply clean_env_insert. }
    split; [done|]. intros p. destruct (Hp p) as (-> & -> & ->).
    destruct (file_value p found); [done|]. simpl.
    destruct (decide (q = p)) as [->|Hne].
    + rewrite !decide_True by done. by rewrite lookup_insert_eq.
    + rewrite !decide_False by done.
      rewrite lookup_insert_ne by (intros Heq; by apply env_var_inj in Heq).
      done.
Qed.

Lemma load_from_environ_spec providers : ∀ self w,
  clean_env (environ self) →
  ∃ self' w',
    load_from_environ self providers w = (Returned tt, (self', w'))
    ∧ environ self' = environ self
    ∧ ∀ p,
        keys self' p
        = (if decide (p ∈ providers)
           then match env_value (environ self) p with
                | Some v => Some (new_key_info p v) | None => keys self p end
           else keys self p)
        ∧ _actual_keys self' p
          = (if decide (p ∈ providers)
             then match env_value (environ self) p with
                  | Some v => Some v | None => _actual_keys self p end
             else _actual_keys self p).
Proof.
  induction providers as [|p0 providers IH]; intros self w Henv; simpl.
  - exists self, w. repeat split; by rewrite decide_False by set_solver.
  - assert (∀ self' : APIKeyManager,
      environ self' = environ self →
      (∀ p, p ≠ p0 → keys self' p = keys self p
                     ∧ _actual_keys self' p = _actual_keys self p) →
      (match env_value (environ self) p0 with
       | Some v => keys self' p0 = Some (new_key_info p0 v)
                   ∧ _actual_keys self' p0 = Some v
       | None => keys self' p0 = keys self p0
                 ∧ _actual_keys self' p0 = _actual_keys self p0
       end) →
      ∀ w1, ∃ self'' w',
        load_from_environ self' providers w1 = (Returned tt, (self'', w'))
        ∧ environ self'' = environ self
        ∧ ∀ p,
          keys self'' p
          = (if decide (p ∈ p0 :: providers)
             then match env_value (environ self) p with
                  | Some v => Some (new_key_info p v) | None => keys self p end
             else keys self p)
          ∧ _actual_keys self'' p
            = (if decide (p ∈ p0 :: providers)
               then match env_value (environ self) p with
                    | Some v => Some v | None => _actual_keys self p end
               else _actual_keys self p)) as Hstep.
    { intros self' Heq Hothers Hp0 w1.
      destruct (IH self' w1) as (self'' & w' & Hrun & Henv' & Hp).
      { by rewrite Heq. }
      exists self'', w'. split; [done|]. split; [congruence|].
      intros p. destruct (Hp p) as [-> ->]. rewrite Heq.
      destruct (decide (p = p0)) as [->|Hne].
      - rewrite !(decide_True (P := p0 ∈ p0 :: providers)) by set_solver.
        destruct (env_value (environ self) p0) as [v|];
          destruct Hp0 as [-> ->]; by destruct (decide (p0 ∈ providers)).
      - destruct (Hothers p Hne) as [-> ->].
        destruct (decide (p ∈ providers)).
        + by rewrite !(decide_True (P := p ∈ p0 :: providers)) by set_solver.
        + by rewrite !(decide_False (P := p ∈ p0 :: providers)) by set_solver. }
    unfold env_value in Hstep.
    destruct (environ self !! env_var p0) as [v|] eqn:Hv.
    + destruct (decide (v = "")) as [->|Hne].
      * by apply Hstep.
      * rewrite store_key_clean by (by eapply Henv). apply Hstep; simpl.
        -- by apply insert_id.
        -- intros p Hp. by rewrite !decide_False.
        -- by rewrite !decide_True.
    + by apply Hstep.
Qed.

Lemma init_spec env w :
  clean_env env → clean_file (read_keys_file w).1 →
  ∃ self w',
    APIKeyManager_init env w = (Returned tt, (self, w'))
    ∧ ∀ p,
        get_key self p = loaded_key env (read_keys_file w).1 p
        ∧ get_key_info self p
          = new_key_info p <$> loaded_key env (read_keys_file w).1 p.
Proof.
  intros Henv Hfile. unfold APIKeyManager_init.
  destruct (read_keys_file w) as [found w1]. cbn [fst snd] in *.
  set (self0 := {| keys := _ |}).
  destruct (load_from_file_spec found self0 w1 Hfile Henv) as [Hclean Hp1].
  destruct (load_from_file self0 found w1) as [self1 w2]. simpl in Hclean, Hp1.
  destruct (load_from_environ_spec key_mappings self1 w2 Hclean)
    as (self2 & w3 & Hrun & Henv2 & Hp2).
  exists self2, w3. split; [exact Hrun|]. intros p.
  destruct (Hp1 p) as (Hk1 & Ha1 & He1). destruct (Hp2 p) as (Hk2 & Ha2).
  assert (p ∈ key_mappings) as Hin
    by (apply list_elem_of_In; destruct p; simpl; tauto).
  rewrite decide_True in Hk2 by done. rewrite decide_True in Ha2 by done.
  unfold get_key, get_key_info, loaded_key. rewrite Hk2, Ha2, Henv2, Hk1, Ha1.
  unfold env_value. rewrite He1.
  destruct (file_value p found) as [v|].
  - by destruct (decide (v = "")) as [->|].
  - destruct (env !! env_var p) as [v|]; [|done].
    by destruct (decide (v = "")).
Qed.

(** X22.  Construction on a file and an environment without NUL characters
    succeeds, and the key of each provider is then the value of the last
    line of the file that names it, even an empty one, and only without such
    a line the non-empty value of its environment variable; [get_key] and
    [get_key_info] agree on it. *)
Theorem constructed_manager_keys (env : gmap string string) (w : World) :
  clean_env env → clean_file (read_keys_file w).1 →
  (APIKeyManager_init env w).1 = Returned tt
  ∧ ∀ p,
      get_key (APIKeyManager_init env w).2.1 p
      = loaded_key env (read_keys_file w).1 p
      ∧ get_key_info (APIKeyManager_init env w).2.1 p
        = new_key_info p <$> loaded_key env (read_keys_file w).1 p.
Proof.
  intros Henv Hfile.
  destruct (init_spec env w Henv Hfile) as (self & w' & -> & Hp). by split.
Qed.
End KeyManagerFacts.

(** ** The base controller *)

Section ControllerFacts.
Context {World : Type} `{Sockets World} `{Platform World} `{Processes World}.

(** Runs the next call of the operating system, whatever it answers. *)
Ltac os_call :=
  match goal with
  | |- context [Popen_poll ?p ?w] => destruct (Popen_poll p w) as [[?|?] ?]
  | |- context [Popen_send_signal ?p ?w] =>
      destruct (Popen_send_signal p w) as [[[]|?] ?]
  | |- context [Popen_terminate ?p ?w] =>
      destruct (Popen_terminate p w) as [[[]|?] ?]
  | |- context [Popen_wait ?p ?t ?w] => destruct (Popen_wait p t w) as [[[]|?] ?]
  | |- context [Popen_kill ?p ?w] => destruct (Popen_kill p w) as [[[]|?] ?]
  end; cbn [fst snd].

Ltac method_unfold :=
  unfold Controller.is_running, Controller.sys, Controller.get_self,
    Controller.set_self in *; eff_unfold; cbn [fst snd].

Lemma is_running_spec (self : Controller.State) (w : World) :
  ∃ b w', Controller.is_running (self, w) = (Returned b, (self, w'))
    ∧ (Controller.process self = None → b = false ∧ w' = w)
    ∧ (b = true → is_Some (Controller.process self)).
Proof.
  method_unfold. destruct (Controller.process self) as [p|] eqn:Hp.
  - os_call; eexists _, _; (split; [reflexivity|]); split; try done; eauto.
  - eexists _, _. split; [reflexivity|]. by split.
Qed.

Lemma stop_spec (config : ServiceConfig) (self : Controller.State) (w : World) :
  ∃ r self' w',
    Controller.stop config (self, w) = (Returned r, (self', w'))
    ∧ failed_services r = [] ∧ started_services r = []
    ∧ stopped_from self self' r
    ∧ (sr_success r = false →
       self' = self
       ∧ ∃ e, sr_message r
              = "Failed to stop " +:+ name config +:+ ": " +:+ exc_str e)
    ∧ (Controller.process self = None →
       r = Controller.result true
             ("Service " +:+ name config +:+ " is not running") [] []
       ∧ self' = self ∧ w' = w).
Proof.
  unfold Controller.stop, stopped_from.
  destruct (is_running_spec self w) as (b & w1 & Hrun & Hnone & Hsome).
  eff_unfold. rewrite Hrun. destruct b; simpl.
  - destruct (Hsome eq_refl) as [p Hp].
    unfold Controller.sys, Controller.get_self, Controller.set_self.
    cbn [fst snd]. rewrite Hp.
    destruct os_name_is_nt; repeat os_call;
      eexists _, _, _; (split; [reflexivity|]); simpl;
      rewrite ?Hp; repeat split; try done; eauto.
  - eexists _, _, _. split; [reflexivity|]. simpl.
    repeat split; try done; eauto.
    match goal with Hp : Controller.process self = None |- _ =>
      by destruct (Hnone Hp) end.
Qed.

Lemma retry_or_spec attempt failure (self : Controller.State) (w : World) :
  ∃ o w', Controller.retry_or attempt failure (self, w) = (Returned o, (self, w'))
    ∧ match o with
      | None => attempt < Controller.max_retries self - 1
      | Some r => ¬ attempt < Controller.max_retries self - 1 ∧ r = failure self
      end.
Proof.
  unfold Controller.retry_or. method_unfold.
  destruct (decide (attempt < Controller.max_retries self - 1));
    eexists _, _; (split; [reflexivity|]); done.
Qed.

(** [stop] and then [retry_or], as both branches of a failed attempt run
    them. *)
Lemma stop_then_retry config attempt failure (self : Controller.State)
  (w : World) :
  ∃ o self' w',
    (_ ← Controller.stop config; Controller.retry_or attempt failure) (self, w)
    = (Returned o, (self', w'))
    ∧ Controller.max_retries self' = Controller.max_retries self
    ∧ match o with
      | None => attempt < Controller.max_retries self - 1
      | Some r => ¬ attempt < Controller.max_retries self - 1 ∧ r = failure self'
      end.
Proof.
  destruct (stop_spec config self w) as (r & self1 & w1 & Hstop & _ & _ & Hst & _).
  destruct Hst as (Hmax & _ & _).
  destruct (retry_or_spec attempt failure self1 w1) as (o & w2 & Hretry & Ho).
  eff_unfold. rewrite Hstop, Hretry. exists o, self1, w2.
  split; [done|]. split; [done|]. rewrite <- Hmax. done.
Qed.

Lemma attempt_once_spec config attempt (self : Controller.State) (w : World) :
  ∃ o self' w',
    Controller.attempt_once config attempt (self, w) = (Returned o, (self', w'))
    ∧ attempt_outcome config attempt self self' o.
Proof.
  unfold Controller.attempt_once, attempt_outcome.
  unfold Controller.sys, Controller.get_self, Controller.set_self.
  eff_unfold. cbn [fst snd].
  destruct (Popen config w) as [[p|e] w1]; cbn [fst snd].
  - destruct (datetime_now w1) as [t w2]. cbn [fst snd].
    destruct (_wait_for_ready config p w2) as [[[]|e] w3]; cbn [fst snd].
    + eexists _, _, _. split; [reflexivity|]. simpl. split; [done|].
      left. repeat split; eauto.
    + match goal with
      | |- context [Controller.stop config (?s, ?w)] =>
          destruct (stop_then_retry config attempt
                      (λ self, not_ready_result config self) s w)
            as (o & self' & w' & Heq & Hmax & Ho)
      end.
      eff_unfold. unfold not_ready_result in Heq. rewrite Heq.
      exists o, self', w'. split; [reflexivity|]. simpl in Hmax.
      split; [done|]. destruct o as [r|]; [|done].
      destruct Ho as [Hlast ->]. right. split; [done|]. left.
      unfold not_ready_result. by rewrite Hmax.
    + match goal with
      | |- context [Controller.stop config (?s, ?w)] =>
          destruct (stop_then_retry config attempt
                      (λ self, start_error_result config self e) s w)
            as (o & self' & w' & Heq & Hmax & Ho)
      end.
      eff_unfold. unfold start_error_result in Heq. rewrite Heq.
      exists o, self', w'. split; [reflexivity|]. simpl in Hmax.
      split; [done|]. destruct o as [r|]; [|done].
      destruct Ho as [Hlast ->]. right. split; [done|]. right. exists e.
      unfold start_error_result. by rewrite Hmax.
  - match goal with
    | |- context [Controller.stop config (?s, ?w)] =>
        destruct (stop_then_retry config attempt
                    (λ self, start_error_result config self e) s w)
          as (o & self' & w' & Heq & Hmax & Ho)
    end.
    eff_unfold. unfold start_error_result in Heq. rewrite Heq.
    exists o, self', w'. split; [reflexivity|].
    split; [done|]. destruct o as [r|]; [|done].
    destruct Ho as [Hlast ->]. right. split; [done|]. right. exists e.
    unfold start_error_result. by rewrite Hmax.
Qed.

Lemma attempts_spec config (n : nat) : ∀ a (self : Controller.State) (w : World),
  a + Z.of_nat n = Controller.max_retries self → (0 < n)%nat →
  ∃ r self' w',
    Controller.attempts config (seqZ a (Z.of_nat n)) (self, w)
    = (Returned r, (self', w'))
    ∧ Controller.max_retries self' = Controller.max_retries self
    ∧ loop_result config self self' r.
Proof.
  induction n as [|n IH]; intros a self w Hmax Hn; [lia|].
  rewrite seqZ_cons by lia.
  replace (Z.pred (Z.of_nat (S n))) with (Z.of_nat n) by lia.
  cbn [Controller.attempts]. eff_unfold.
  destruct (attempt_once_spec config a self w)
    as (o & self1 & w1 & -> & Hmax1 & Ho).
  destruct o as [r|].
  - exists r, self1, w1. split; [done|]. split; [done|].
    unfold loop_result. destruct Ho as [?|[_ [?|?]]]; auto.
  - destruct (IH (Z.succ a) self1 w1) as (r & self2 & w2 & Heq & Hmax2 & Hr);
      [lia|lia|].
    exists r, self2, w2. split; [done|]. split; [congruence|].
    unfold loop_result, not_ready_result, start_error_result in *.
    by rewrite <- Hmax1.
Qed.

Lemma attempts_none config (self : Controller.State) (w : World) :
  Controller.attempts config [] (self, w)
  = (Returned (Controller.result false
                 ("Service " +:+ name config +:+ " failed to start after "
                  +:+ pretty (Controller.max_retries self) +:+ " attempts")
                 [name config] []), (self, w)).
Proof. reflexivity. Qed.

Lemma start_spec (config : ServiceConfig) (self : Controller.State) (w : World) :
  ∃ r self' w',
    Controller.start config (self, w) = (Returned r, (self', w'))
    ∧ Controller.max_retries self' = Controller.max_retries self
    ∧ ((sr_success r = true ∧ failed_services r = [] ∧ started_services r = []
        ∧ self' = self)
       ∨ (0 < Controller.max_retries self ∧ loop_result config self self' r)
       ∨ (Controller.max_retries self ≤ 0 ∧ self' = self
          ∧ sr_success r = false ∧ failed_services r = [name config]
          ∧ started_services r = [])).
Proof.
  unfold Controller.start.
  destruct (is_running_spec self w) as (b & w1 & Hrun & _).
  eff_unfold. rewrite Hrun. destruct b.
  - eexists _, _, _. split; [reflexivity|]. split; [done|]. by left.
  - unfold Controller.sys, Controller.get_self. cbn [fst snd].
    destruct (is_port_open_returns (port config) "localhost" 5 w1)
      as (port_open & w2 & ->).
    destruct port_open.
    + eexists _, _, _. split; [reflexivity|]. split; [done|]. by left.
    + cbn [fst snd].
      destruct (decide (0 < Controller.max_retries self)) as [Hpos|Hnone].
      * assert (Z.of_nat (Z.to_nat (Controller.max_retries self))
                = Controller.max_retries self) as Hn by (apply Z2Nat.id; lia).
        destruct (attempts_spec config (Z.to_nat (Controller.max_retries self))
                    0 self w2) as (r & self' & w' & Heq & Hmax & Hr);
          [by rewrite Hn|apply Nat2Z.inj_lt; by rewrite Hn|].
        rewrite Hn in Heq.
        exists r, self', w'. split; [done|]. split; [done|]. right. by left.
      * rewrite seqZ_nil by lia. rewrite attempts_none.
        eexists _, _, _. split; [reflexivity|]. split; [done|].
        right. right. repeat split; try done. lia.
Qed.

(** X23.  [stop] never raises and names no service in its result.  It
    returns a failure only with the text of an exception, and then leaves
    the controller as it was; it forgets the process and the start time only
    together with a success; and a controller without a process is reported
    as not running without anything being done. *)
Theorem controller_stop_never_raises (config : ServiceConfig)
  (self : Controller.State) (w : World) :
  ∃ r self' w',
    Controller.stop config (self, w) = (Returned r, (self', w'))
    ∧ failed_services r = [] ∧ started_services r = []
    ∧ Controller.max_retries self' = Controller.max_retries self
    ∧ Controller.retry_count self' = Controller.retry_count self
    ∧ (self' = self
       ∨ (sr_success r = true ∧ Controller.process self' = None
          ∧ Controller.start_time self' = None))
    ∧ (sr_success r = false →
       self' = self
       ∧ ∃ e, sr_message r
              = "Failed to stop " +:+ name config +:+ ": " +:+ exc_str e)
    ∧ (Controller.process self = None →
       r = Controller.result true
             ("Service " +:+ name config +:+ " is not running") [] []
       ∧ self' = self ∧ w' = w).
Proof.
  destruct (stop_spec config self w)
    as (r & self' & w' & Heq & Hf & Hs & (Hmax & Hretry & Hst) & Hfail & Hnone).
  exists r, self', w'. repeat split; try done.
  - by apply Hfail.
  - by apply Hfail.
  - by apply Hnone.
  - by apply Hnone.
  - by apply Hnone.
Qed.

(** X24.  [start] never raises.  A success names no failed service: either
    nothing was spawned, the service being found running already, and the
    controller is as before, or the result names the service as started and
    the controller then holds a process and a start time, with its retry
    count reset.  A failure names the service, and only it, as failed. *)
Theorem controller_start_never_raises (config : ServiceConfig)
  (self : Controller.State) (w : World) :
  ∃ r self' w',
    Controller.start config (self, w) = (Returned r, (self', w'))
    ∧ Controller.max_retries self' = Controller.max_retries self
    ∧ (if sr_success r
       then failed_services r = []
            ∧ ((started_services r = [] ∧ self' = self)
               ∨ (started_services r = [name config]
                  ∧ is_Some (Controller.process self')
                  ∧ is_Some (Controller.start_time self')
                  ∧ Controller.retry_count self' = 0))
       else failed_services r = [name config] ∧ started_services r = []).
Proof.
  destruct (start_spec config self w) as (r & self' & w' & Heq & Hmax & Hr).
  exists r, self', w'. split; [done|]. split; [done|].
  destruct Hr as [(-> & Hf & Hs & Hself)|[[_ Hloop]|(_ & _ & -> & Hf & Hs)]].
  - split; [done|]. by left.
  - destruct Hloop as [(-> & Hp & Ht & Hc)|[->|[e ->]]]; simpl; [|done..].
    split; [done|]. right. done.
  - done.
Qed.

(** X25.  For a controller that allows at least one attempt, as every
    controller built by the constructor does, the [return] after the retry
    loop is never reached: a failed [start] reports that the service failed
    to become ready, or the exception of its last attempt. *)
Theorem controller_start_fails_in_loop (config : ServiceConfig)
  (self : Controller.State) (w : World) :
  0 < Controller.max_retries self →
  ∃ r self' w',
    Controller.start config (self, w) = (Returned r, (self', w'))
    ∧ (sr_success r = false →
       sr_message r
       = "Service " +:+ name config +:+ " failed to become ready after "
         +:+ pretty (Controller.max_retries self) +:+ " attempts"
       ∨ ∃ e, sr_message r
              = "Failed to start " +:+ name config +:+ " after "
                +:+ pretty (Controller.max_retries self) +:+ " attempts: "
                +:+ exc_str e).
Proof.
  intros Hpos.
  destruct (start_spec config self w) as (r & self' & w' & Heq & Hmax & Hr).
  exists r, self', w'. split; [done|]. intros Hfail.
  destruct Hr as [(Hok & _)|[[_ Hloop]|(Hle & _)]]; [congruence| |lia].
  destruct Hloop as [(-> & _)|[->|[e ->]]]; [done|by left|right; by exists e].
Qed.
End ControllerFacts.

(** ** Further scenarios on the scripted platform *)

(** The frontend process is alive but its port is closed. *)
Lemma check_service_health_entry_witness :
  let w := {| sim_clock := 0; sim_open_ports := []; sim_http := Returned 200;
              sim_spawnable := []; sim_owned := ["frontend"]; sim_log := [] |} in
  ∃ c, services default_config !! "frontend" = Some c
    ∧ is_running "frontend"
        {| ctl_kind := controller_class "frontend"; ctl_config := c |} w
      = (Returned true, w)
    ∧ is_port_open (port c) w = (false, w)
    ∧ time_time w = (0, w)
    ∧ ∃ h w', check_service_health (ServiceManager_init default_config)
                "frontend" w = (Returned h, w')
        ∧ sh_status h = STOPPED
        ∧ sh_error_message h = Some "Port 5173 is not accepting connections".
Proof.
  intros w.
  destruct (services default_config !! "frontend") as [c|] eqn:Hc;
    [|by vm_compute in Hc].
  assert (is_running "frontend"
            {| ctl_kind := controller_class "frontend"; ctl_config := c |} w
          = (Returned true, w)) as Hrun
    by (vm_compute in Hc; injection Hc as <-; by vm_compute).
  assert (is_port_open (port c) w = (false, w)) as Hport
    by (vm_compute in Hc; injection Hc as <-; by vm_compute).
  assert (time_time w = (0, w)) as Htime by reflexivity.
  exists c. split; [reflexivity|]. split; [exact Hrun|].
  split; [exact Hport|]. split; [exact Htime|].
  destruct (check_service_health_entry default_config "frontend" c w w w w
              true false 0 Hc Hrun Hport Htime)
    as (h & w' & Heq & _ & _ & _ & Hstatus & Hmsg).
  exists h, w'. split; [exact Heq|]. split; [exact Hstatus|].
  rewrite Hmsg, Hstatus. vm_compute in Hc. injection Hc as <-. by vm_compute.
Defined.

(** Validation fails for want of one package. *)
Lemma failed_validation_is_unhealthy_witness :
  let vr := validation_failed ["fastapi"] in
  let self := sim_monitor (Returned vr) None None in
  let w := sim_world 0 [8000; 3000] (Returned 200) [] in
  dependency_validator self (_check_all_services self w).2 = (Returned vr, w)
  ∧ api_key_manager self w = (Returned [(OPENAI, true)], w)
  ∧ vr_success vr = false ∧ missing_dependencies vr ≠ []
  ∧ ∃ snapshot self' w',
      check_system_health self w = (Returned (snapshot, self'), w')
      ∧ overall_status snapshot = UNHEALTHY.
Proof.
  intros vr self w.
  assert (dependency_validator self (_check_all_services self w).2
          = (Returned vr, w)) as Hv by (vm_compute; reflexivity).
  assert (api_key_manager self w = (Returned [(OPENAI, true)], w)) as Hk
    by reflexivity.
  assert (missing_dependencies vr ≠ []) as Hmiss by done.
  split; [exact Hv|]. split; [exact Hk|]. split; [reflexivity|].
  split; [exact Hmiss|].
  destruct (failed_validation_is_unhealthy self w w w vr [(OPENAI, true)]
              Hv Hk eq_refl Hmiss) as (snapshot & self' & w' & Heq & Hu & _).
  exists snapshot, self', w'. split; [exact Heq|exact Hu].
Defined.

(** Two calls in the same second. *)
Lemma get_system_status_repeated_witness :
  let self := sim_monitor (Returned validation_ok) None None in
  let w := sim_world 0 [8000; 3000] (Returned 200) [] in
  ∃ status self' w1,
    get_system_status self w = (Returned (status, self'), w1)
    ∧ _last_health_check self' = Some 0
    ∧ datetime_now w1 = (0, w1)
    ∧ td_seconds (0 - 0) ≤ 60
    ∧ _cached_status self' = Some (health status)
    ∧ ∃ status' w3, get_system_status self' w1 = (Returned (status', self'), w3)
                    ∧ health status' = health status.
Proof.
  intros self w.
  destruct (get_system_status self w) as [[[status self']|e] w1] eqn:Hfirst;
    [|by vm_compute in Hfirst].
  assert (_last_health_check self' = Some 0) as Hlast
    by (vm_compute in Hfirst; by injection Hfirst as <- <- <-).
  assert (datetime_now w1 = (0, w1)) as Hnow
    by (vm_compute in Hfirst; by injection Hfirst as <- <- <-).
  assert (td_seconds (0 - 0) ≤ 60) as Hage by (by vm_compute).
  exists status, self', w1. split; [reflexivity|]. split; [exact Hlast|].
  split; [exact Hnow|]. split; [exact Hage|].
  exact (get_system_status_repeated self self' w w1 w1 status 0 0
           Hfirst Hlast Hnow Hage).
Defined.

Lemma set_key_round_trip_witness :
  has_nul "sk-abcdef123456" = false
  ∧ KeyManager.get_key
      (KeyManager.set_key no_keys OPENAI "sk-abcdef123456" []).2.1 OPENAI
    = Some "sk-abcdef123456"
  ∧ KeyManager.get_masked_key
      (KeyManager.set_key no_keys OPENAI "sk-abcdef123456" []).2.1 OPENAI
    = Some "***********3456"
  ∧ (KeyManager.set_key no_keys OPENAI "sk-abcdef123456" []).2.2
    = [(OPENAI, "sk-abcdef123456")].
Proof.
  assert (has_nul "sk-abcdef123456" = false) as Hk by reflexivity.
  split; [exact Hk|].
  destruct (set_key_round_trip no_keys OPENAI "sk-abcdef123456" [] Hk)
    as (_ & Hfile & Hget & _ & Hmask & _).
  split; [exact Hget|]. split; [exact Hmask|]. exact Hfile.
Defined.

Lemma set_key_refused_witness :
  has_nul (String "000" "abc") = true
  ∧ (KeyManager.set_key no_keys MISTRAL (String "000" "abc") []).1 = false
  ∧ KeyManager.get_key
      (KeyManager.set_key no_keys MISTRAL (String "000" "abc") []).2.1 MISTRAL
    = None
  ∧ KeyManager.get_masked_key
      (KeyManager.set_key no_keys MISTRAL (String "000" "abc") []).2.1 MISTRAL
    = Some "****".
Proof.
  assert (has_nul (String "000" "abc") = true) as Hk by reflexivity.
  split; [exact Hk|].
  destruct (set_key_refused no_keys MISTRAL (String "000" "abc") [] Hk)
    as (Hret & _ & _ & Hget & Hinfo & _).
  split; [exact Hret|]. split; [by rewrite Hget|].
  unfold KeyManager.get_masked_key. by rewrite Hinfo.
Defined.

Lemma removed_key_still_returned_witness :
  has_nul "gm-0123456789" = false
  ∧ KeyManager.get_key_info
      (KeyManager.remove_key
         (KeyManager.set_key no_keys GEMINI "gm-0123456789" []).2.1 GEMINI).2
      GEMINI = None
  ∧ KeyManager.get_key
      (KeyManager.remove_key
         (KeyManager.set_key no_keys GEMINI "gm-0123456789" []).2.1 GEMINI).2
      GEMINI = Some "gm-0123456789".
Proof.
  assert (has_nul "gm-0123456789" = false) as Hk by reflexivity.
  split; [exact Hk|].
  destruct (removed_key_still_returned no_keys GEMINI "gm-0123456789" [] Hk)
    as (_ & Hinfo & Hget).
  split; [exact Hinfo|exact Hget].
Defined.

(** The file names OpenAI twice and the environment names OpenAI and
    Mistral: the last line of the file wins for OpenAI. *)
Lemma constructed_manager_keys_witness :
  let env : gmap string string :=
    <["OPENAI_API_KEY" := "sk-from-env"]> (<["MISTRAL_API_KEY" := "ms-from-env"]> ∅) in
  let file := [(OPENAI, "sk-first"); (OPENAI, "sk-last")] in
  clean_env env ∧ clean_file (read_keys_file file).1
  ∧ (KeyManager.APIKeyManager_init env file).1 = Returned tt
  ∧ KeyManager.get_key (KeyManager.APIKeyManager_init env file).2.1 OPENAI
    = Some "sk-last"
  ∧ KeyManager.get_key (KeyManager.APIKeyManager_init env file).2.1 MISTRAL
    = Some "ms-from-env"
  ∧ KeyManager.get_key (KeyManager.APIKeyManager_init env file).2.1 GEMINI = None.
Proof.
  intros env file.
  assert (clean_env env) as Henv.
  { intros k v. unfold env. rewrite !lookup_insert_Some, lookup_empty.
    intros [[_ <-]|[_ [[_ <-]|[_ ?]]]]; done. }
  assert (clean_file (read_keys_file file).1) as Hfile
    by (repeat constructor).
  split; [exact Henv|]. split; [exact Hfile|].
  destruct (constructed_manager_keys env file Henv Hfile) as [Hret Hkeys].
  split; [exact Hret|].
  split; [|split].
  - rewrite (proj1 (Hkeys OPENAI)). reflexivity.
  - rewrite (proj1 (Hkeys MISTRAL)). by vm_compute.
  - rewrite (proj1 (Hkeys GEMINI)). by vm_compute.
Defined.

(** Nothing can be spawned: three attempts, and the error of the last. *)
Lemma controller_start_fails_in_loop_witness :
  let config := bare_service "worker" [] in
  let w := sim_world 0 [] (Returned 200) [] in
  0 < Controller.max_retries Controller.init
  ∧ ∃ r self' w',
      Controller.start config (Controller.init, w) = (Returned r, (self', w'))
      ∧ sr_success r = false
      ∧ sr_message r
        = "Failed to start worker after 3 attempts: [Errno 2] No such file or directory"
      ∧ sim_log w' = ["spawn worker"; "spawn worker"; "spawn worker"].
Proof.
  intros config w.
  assert (0 < Controller.max_retries Controller.init) as Hpos by reflexivity.
  split; [exact Hpos|].
  destruct (controller_start_fails_in_loop config Controller.init w Hpos)
    as (r & self' & w' & Heq & _).
  exists r, self', w'. split; [exact Heq|].
  vm_compute in Heq. injection Heq as <- <- <-.
  split; [reflexivity|]. split; reflexivity.
Defined.
